(** * egarch_ibov.py: EGARCH order selection, Monte Carlo simulation, percentile bounds

    A shallow embedding of [find_best_model], [monte_carlo_simulation] and the
    confidence-interval stage of [main]; then of [calculate_returns], of
    [main] from the data to the printed interval, and of
    [rolling_seasonal_strength] of test_seasonality.py.

    The arithmetic of the script is written once, against the interface [Num],
    and read twice:
    - [binary64]: IEEE 754 double precision, as numpy computes.  Addition,
      multiplication, division, square root, absolute value and comparisons
      are the kernel's primitive floats; [np.log], [np.exp] and the scalar
      power go through the platform's libm and are a parameter ([Libm]);
    - [real]: the real numbers, the reading in which the formulas of the
      specification are exact identities. *)

From Stdlib Require Import ZArith List String Bool Lia Permutation Sorted.
From Stdlib Require Import Reals Lra.
From Stdlib Require Import Floats DecimalString.
Import ListNotations.

Set Implicit Arguments.
Local Open Scope nat_scope.

(** ** Exceptions *)

(** The exceptions the modelled code can raise. *)
Inductive exn : Type :=
| KeyError (label : string)
| IndexError
| ValueError
| TypeError.

(** A computation either returns or raises. *)
Inductive result (A : Type) : Type :=
| Ok (a : A)
| Raise (e : exn).

Arguments Ok {A} a.
Arguments Raise {A} e.

Definition bind {A B : Type} (c : result A) (k : A -> result B) : result B :=
  match c with
  | Ok a => k a
  | Raise e => Raise e
  end.

Declare Scope result_scope.
Delimit Scope result_scope with result.
Notation "x <- c ;; k" := (bind c (fun x => k))
  (at level 61, c at next level, right associativity) : result_scope.
Notation "' pat <- c ;; k" := (bind c (fun x => match x with pat => k end))
  (at level 61, pat pattern, c at next level, right associativity) : result_scope.
Local Open Scope result_scope.

(** [for i in l: st = body(i, st)], stopping at the first exception. *)
Fixpoint for_in {I S : Type} (l : list I) (body : I -> S -> result S) (st : S)
  : result S :=
  match l with
  | [] => Ok st
  | i :: l' => st' <- body i st ;; for_in l' body st'
  end.

(** Python's [range(n)]: empty when [n <= 0]. *)
Definition range (n : Z) : list nat := seq 0 (Z.to_nat n).

(** [range(lo, hi)]. *)
Definition range2 (lo hi : Z) : list Z :=
  map (fun i => (lo + Z.of_nat i)%Z) (seq 0 (Z.to_nat (hi - lo))).

(** ** The numeric interface *)

Class Num (F : Type) : Type := {
  add : F -> F -> F;
  sub : F -> F -> F;
  mul : F -> F -> F;
  div : F -> F -> F;
  pow : F -> Z -> F;            (* [x ** n] with [n] a Python int *)
  fabs : F -> F;                (* [abs(x)] *)
  np_sqrt : F -> F;
  np_exp : F -> F;
  np_log : F -> F;
  np_pi : F;
  of_int : Z -> F;              (* a Python int where a float is expected *)
  lit_0_5 : F;                  (* the literal [0.5] *)
  lit_0_99 : F;                 (* the literal [0.99] *)
  ltb : F -> F -> bool;         (* [x < y] *)
  leb : F -> F -> bool;         (* [x <= y] *)
  np_isnan : F -> bool;
  np_floor : F -> Z
}.

Declare Scope num_scope.
Delimit Scope num_scope with num.
Notation "x + y" := (add x y) : num_scope.
Notation "x - y" := (sub x y) : num_scope.
Notation "x * y" := (mul x y) : num_scope.
Notation "x / y" := (div x y) : num_scope.
Notation "x ** n" := (pow x n) (at level 30, right associativity) : num_scope.
Notation "x <? y" := (ltb x y) : num_scope.
Notation "x <=? y" := (leb x y) : num_scope.

(** *** IEEE 754 binary64 *)

(** The functions numpy takes from libm. *)
Record Libm : Type := {
  libm_log : float -> float;
  libm_exp : float -> float;
  libm_pow : float -> float -> float
}.

(** Exact for [|n| < 2^53], which covers every integer of the script. *)
Definition float_of_Z (n : Z) : float :=
  match n with
  | Z0 => PrimFloat.zero
  | Zpos _ => PrimFloat.of_uint63 (Uint63.of_Z n)
  | Zneg p => PrimFloat.opp (PrimFloat.of_uint63 (Uint63.of_Z (Zpos p)))
  end.

(** The largest integer not above [x] (0 for infinities and NaN, where numpy's
    conversion to an index is not defined). *)
Definition float_floor (x : float) : Z :=
  match Prim2SF x with
  | S754_finite s m e => Z.shiftl (if s then Zneg m else Zpos m) e
  | _ => 0%Z
  end.

Definition binary64 (m : Libm) : Num float := {|
  add := PrimFloat.add;
  sub := PrimFloat.sub;
  mul := PrimFloat.mul;
  div := PrimFloat.div;
  pow := fun x n => libm_pow m x (float_of_Z n);
  fabs := PrimFloat.abs;
  np_sqrt := PrimFloat.sqrt;
  np_exp := libm_exp m;
  np_log := libm_log m;
  np_pi := 0x1.921fb54442d18p+1%float;
  of_int := float_of_Z;
  lit_0_5 := 0.5%float;
  lit_0_99 := 0x1.fae147ae147aep-1%float;
  ltb := PrimFloat.ltb;
  leb := PrimFloat.leb;
  np_isnan := PrimFloat.is_nan;
  np_floor := float_floor
|}.

(** *** The real numbers

    [np_log] is [ln], the logarithm of the positive numbers; [ln 0] is 0 by
    convention where [np.log(0)] is [-inf], so the real reading of a run is
    that of the code for a last volatility other than zero.  No real number
    is a NaN. *)

Definition Rltb (x y : R) : bool := if Rlt_dec x y then true else false.
Definition Rleb (x y : R) : bool := if Rle_dec x y then true else false.

Definition real : Num R := {|
  add := Rplus;
  sub := Rminus;
  mul := Rmult;
  div := Rdiv;
  pow := powerRZ;
  fabs := Rabs;
  np_sqrt := R_sqrt.sqrt;
  np_exp := exp;
  np_log := ln;
  np_pi := PI;
  of_int := IZR;
  lit_0_5 := (1 / 2)%R;
  lit_0_99 := (99 / 100)%R;
  ltb := Rltb;
  leb := Rleb;
  np_isnan := fun _ => false;
  np_floor := Int_part
|}.

(** ** Data model *)

Section Model.

Context {F : Type} {num : Num F}.
Local Open Scope num_scope.

(** A pandas Series: labelled values, looked up by label. *)
Definition Series : Type := list (string * F).

(** [s[label]]: the value at the label, or [KeyError]. *)
Fixpoint getitem (s : Series) (label : string) : result F :=
  match s with
  | [] => Raise (KeyError label)
  | (k, v) :: s' => if String.eqb k label then Ok v else getitem s' label
  end.

(** What the script reads of a fitted model ([model.fit(disp='off')]). *)
Record ModelFit : Type := {
  aic : F;
  params : Series;
  conditional_volatility : list F
}.

(** [a[-1]]: the last element, or [IndexError] on an empty array. *)
Definition last_item (a : list F) : result F :=
  match rev a with
  | [] => Raise IndexError
  | x :: _ => Ok x
  end.

(** A two-dimensional array, row by row. *)
Definition Matrix : Type := list (list F).

(** [np.full((rows, cols), v)]; a negative dimension is a [ValueError]. *)
Definition np_full (rows cols : Z) (v : F) : result Matrix :=
  if ((rows <? 0) || (cols <? 0))%Z then Raise ValueError
  else Ok (repeat (repeat v (Z.to_nat cols)) (Z.to_nat rows)).

(** [np.zeros((rows, cols))]. *)
Definition np_zeros (rows cols : Z) : result Matrix :=
  np_full rows cols (of_int 0).

(** The list with position [i] replaced (unchanged when there is none). *)
Fixpoint list_set {A : Type} (l : list A) (i : nat) (v : A) : list A :=
  match l, i with
  | [], _ => []
  | _ :: l', O => v :: l'
  | x :: l', S i' => x :: list_set l' i' v
  end.

(** [m[i, j] = v]; an index out of bounds is an [IndexError]. *)
Definition setitem2 (m : Matrix) (i j : nat) (v : F) : result Matrix :=
  match nth_error m i with
  | None => Raise IndexError
  | Some row =>
      if (j <? List.length row)%nat then Ok (list_set m i (list_set row j v))
      else Raise IndexError
  end.

(** ** The random source *)

(** numpy's global generator, seen as the sequence of standard-normal draws it
    will deliver and the number of draws already taken. *)
Record Rng : Type := {
  stream : nat -> F;
  taken : nat
}.

(** [np.random.standard_normal()]: the next draw, and the generator after it. *)
Definition standard_normal (g : Rng) : F * Rng :=
  (stream g (taken g), {| stream := stream g; taken := S (taken g) |}).

(** ** monte_carlo_simulation *)

Section Loops.

(** The locals bound before the loops (lines 43-55). *)
Variables mu omega alpha1 alpha2 beta1 beta2 last_vol : F.
Variable forecast_period : Z.

(** The variables the inner loop reads and writes. *)
Record PathState : Type := {
  log_sigma2 : F;
  rng : Rng;
  simulated_returns : Matrix
}.

(** Lines 65-77: one pass of [for t in range(forecast_period)]. *)
Definition step (sim t : nat) (st : PathState) : result PathState :=
  let '(z, g) := standard_normal (rng st) in
  let log_sigma2 :=
    omega + alpha1 * (fabs z - np_sqrt (of_int 2 / np_pi))
          + alpha2 * (fabs z - np_sqrt (of_int 2 / np_pi))
          + (beta1 + beta2) * log_sigma2 st in
  let sigma := np_sqrt (np_exp log_sigma2) in
  let r := mu - lit_0_5 * sigma ** 2 + sigma * z in
  m <- setitem2 (simulated_returns st) sim t r ;;
  Ok {| log_sigma2 := log_sigma2; rng := g; simulated_returns := m |}.

(** Line 62: the log-variance every path starts from. *)
Definition path_start (g : Rng) (m : Matrix) : PathState :=
  {| log_sigma2 := np_log (last_vol ** 2); rng := g; simulated_returns := m |}.

(** Lines 61-77: one pass of [for sim in range(n_simulations)], on the
    generator and the matrix. *)
Definition path (sim : nat) (st : Rng * Matrix) : result (Rng * Matrix) :=
  st' <- for_in (range forecast_period) (step sim)
           (path_start (fst st) (snd st)) ;;
  Ok (rng st', simulated_returns st').

(** *** What the loops compute, path by path

    The functional reading of the loops, against which the imperative model
    above is proved: a path fed the draws [zs 0], [zs 1], ... *)

(** The log-variance of the path after [t] steps. *)
Fixpoint path_log_sigma2 (zs : nat -> F) (t : nat) : F :=
  match t with
  | O => np_log (last_vol ** 2)
  | S t' =>
      omega + alpha1 * (fabs (zs t') - np_sqrt (of_int 2 / np_pi))
            + alpha2 * (fabs (zs t') - np_sqrt (of_int 2 / np_pi))
            + (beta1 + beta2) * path_log_sigma2 zs t'
  end.

(** The volatility of step [t] (0-based), from the log-variance updated in
    that step. *)
Definition path_sigma (zs : nat -> F) (t : nat) : F :=
  np_sqrt (np_exp (path_log_sigma2 zs (S t))).

(** The log-return stored by step [t]. *)
Definition path_return (zs : nat -> F) (t : nat) : F :=
  mu - lit_0_5 * path_sigma zs t ** 2 + path_sigma zs t * zs t.

(** The row of a path. *)
Definition path_row (zs : nat -> F) : list F :=
  map (path_return zs) (range forecast_period).

(** The generator after [k] more draws. *)
Definition advance (g : Rng) (k : nat) : Rng :=
  {| stream := stream g; taken := taken g + k |}.

(** The draws path [sim] takes when the run starts from generator [g]. *)
Definition draws_of_path (g : Rng) (sim : nat) : nat -> F :=
  fun t => stream g (taken g + sim * Z.to_nat forecast_period + t).

(** The state of the run started from [st0] when path [sim] is about to make
    its step [t]: [sim] passes of the outer loop, then [t] passes of the
    inner one. *)
Definition state_at (sim t : nat) (st0 : Rng * Matrix) : result PathState :=
  st <- for_in (seq 0 sim) path st0 ;;
  for_in (seq 0 t) (step sim) (path_start (fst st) (snd st)).

(** The paths computed in the order [order], each with a generator of its
    own, [own sim]; the loop body is that of the source. *)
Definition paths_in_order (own : nat -> Rng) (order : list nat) (m : Matrix)
  : result Matrix :=
  for_in order (fun sim m => st <- path sim (own sim, m) ;; Ok (snd st)) m.

(** The rest of the run from the state in which path [sim] is about to make
    its step [t]: the remaining steps of the path, then the remaining paths
    of [n_simulations]. *)
Definition finish_from (n_simulations : Z) (sim t : nat) (st : PathState)
  : result (Rng * Matrix) :=
  st' <- for_in (seq t (Z.to_nat forecast_period - t)) (step sim) st ;;
  for_in (seq (S sim) (Z.to_nat n_simulations - S sim)) path
    (rng st', simulated_returns st').

(** Lines 60-77: the two nested loops, on the generator and the matrix. *)
Definition simulation_loops (n_simulations : Z) (st : Rng * Matrix)
  : result (Rng * Matrix) :=
  for_in (range n_simulations) path st.

End Loops.

(** Lines 41-79.  Besides the matrix the model returns the generator, whose
    state the Python function changes as a side effect. *)
Definition monte_carlo_simulation (model_fit : ModelFit)
    (n_simulations forecast_period : Z) (g : Rng) : result (Matrix * Rng) :=
  let params := params model_fit in
  mu <- getitem params "mu" ;;
  omega <- getitem params "omega" ;;
  alpha1 <- getitem params "alpha[1]" ;;
  alpha2 <- getitem params "alpha[2]" ;;
  beta1 <- getitem params "beta[1]" ;;
  beta2 <- getitem params "beta[2]" ;;
  simulated_returns <- np_zeros n_simulations forecast_period ;;
  last_vol <- last_item (conditional_volatility model_fit) ;;
  let annual_vol := np_sqrt (of_int 252) * last_vol in
  st <- simulation_loops mu omega alpha1 alpha2 beta1 beta2 last_vol
          forecast_period n_simulations (g, simulated_returns) ;;
  Ok (snd st, fst st).

(** The model has the six coefficients and a last conditional volatility:
    every lookup of lines 44-49 and 55 succeeds, with these values. *)
Definition has_inputs (model_fit : ModelFit)
    (mu omega alpha1 alpha2 beta1 beta2 last_vol : F) : Prop :=
  getitem (params model_fit) "mu" = Ok mu /\
  getitem (params model_fit) "omega" = Ok omega /\
  getitem (params model_fit) "alpha[1]" = Ok alpha1 /\
  getitem (params model_fit) "alpha[2]" = Ok alpha2 /\
  getitem (params model_fit) "beta[1]" = Ok beta1 /\
  getitem (params model_fit) "beta[2]" = Ok beta2 /\
  last_item (conditional_volatility model_fit) = Ok last_vol.

(** [m.shape == (rows, cols)]. *)
Definition shape (m : Matrix) (rows cols : nat) : Prop :=
  List.length m = rows /\ Forall (fun row => List.length row = cols) m.

(** [m[i, j]], read. *)
Definition getitem2 (m : Matrix) (i j : nat) : option F :=
  match nth_error m i with
  | Some row => nth_error row j
  | None => None
  end.

(** What the Python function hands back: the matrix alone. *)
Definition returned (r : result (Matrix * Rng)) : result Matrix :=
  ' (m, _) <- r ;; Ok m.

(** The label is among those of the Series. *)
Definition has_label (s : Series) (label : string) : Prop :=
  exists v, getitem s label = Ok v.

(** The defaults of the signature (line 41). *)
Definition n_simulations_default : Z := 10000.
Definition forecast_period_default : Z := 21.

(** [monte_carlo_simulation(model_fit)], as [main] calls it (line 103). *)
Definition monte_carlo_simulation_default (model_fit : ModelFit) (g : Rng)
  : result (Matrix * Rng) :=
  monte_carlo_simulation model_fit n_simulations_default
    forecast_period_default g.

(** ** The confidence interval of [main] *)

(** Insertion into a list sorted by [<=]. *)
Fixpoint insert_sorted (x : F) (l : list F) : list F :=
  match l with
  | [] => [x]
  | y :: l' => if x <=? y then x :: l else y :: insert_sorted x l'
  end.

(** [np.sort(a)]. *)
Definition np_sort (a : list F) : list F := fold_right insert_sorted [] a.

(** [np.percentile(a, q)] with the default method ([linear]), after numpy's
    implementation ([_quantile], [_get_indexes], [_get_gamma] and [_lerp] of
    [numpy/lib/_function_base_impl.py]). *)

(** [arr[i]], a negative index counting from the end. *)
Definition take (y : list F) (d : F) (i : Z) : F :=
  nth (Z.to_nat (if (i <? 0)%Z then Z.of_nat (List.length y) + i else i)) y d.

(** [_get_indexes]: the index below the virtual index, moved by [offset] (0
    for the previous index, 1 for the next one); both are [-1], the last
    element, once the virtual index has reached [n - 1] or is NaN, and [0]
    when it is below zero. *)
Definition get_index (n : Z) (virtual_index : F) (offset : Z) : Z :=
  if np_isnan virtual_index then (-1)%Z
  else if virtual_index <? of_int 0 then 0%Z
  else if of_int (n - 1) <=? virtual_index then (-1)%Z
  else (np_floor virtual_index + offset)%Z.

(** [_lerp(a, b, t)]: [a + (b - a) * t], replaced by [b - (b - a) * (1 - t)]
    where [t >= 0.5]. *)
Definition lerp (a b t : F) : F :=
  let diff_b_a := b - a in
  if lit_0_5 <=? t then b - diff_b_a * (of_int 1 - t)
  else a + diff_b_a * t.

(** The quantile [q / 100] must lie in [0, 1]; a NaN among the values is the
    result; otherwise, with [y] the sorted values and [n] their number, the
    result interpolates between the neighbours of the virtual index
    [(n - 1) * (q / 100)], with [gamma] the distance of the virtual index from
    the previous index.  An empty array raises. *)
Definition np_percentile (a : list F) (q : F) : result F :=
  let quantile := q / of_int 100 in
  if negb ((of_int 0 <=? quantile) && (quantile <=? of_int 1))
  then Raise ValueError
  else
    match a with
    | [] => Raise IndexError
    | x0 :: _ =>
        match find np_isnan a with
        | Some x => Ok x
        | None =>
            let y := np_sort a in
            let n := Z.of_nat (List.length y) in
            let virtual_index := of_int (n - 1) * quantile in
            let previous_index := get_index n virtual_index 0 in
            let next_index := get_index n virtual_index 1 in
            let gamma := virtual_index - of_int previous_index in
            Ok (lerp (take y x0 previous_index) (take y x0 next_index) gamma)
        end
    end.

(** Lines 113-115 of [main]: the two percentile ranks. *)
Definition confidence_level : F := lit_0_99.
Definition lower_percentile : F := (of_int 1 - confidence_level) / of_int 2.
Definition upper_percentile : F := of_int 1 - lower_percentile.

(** Lines 117-118 of [main]: the bounds printed for the predicted prices. *)
Definition main_confidence_interval (predicted_prices : list F)
  : result (F * F) :=
  lower_bound <- np_percentile predicted_prices
                   (lower_percentile * of_int 100) ;;
  upper_bound <- np_percentile predicted_prices
                   (upper_percentile * of_int 100) ;;
  Ok (lower_bound, upper_bound).

End Model.

(** ** find_best_model and the head of [main] *)

Section OrderSelection.

(** The libm numpy runs on. *)
Variable libm : Libm.

(** [arch_model(returns, p=p, q=q, vol='EGARCH', dist='normal').fit(disp='off')]
    on the script's data: the fitted model, or the exception the fit raises. *)
Variable arch_fit : Z -> Z -> result (@ModelFit float).

(** Lines 30-37: the body of the two loops, on [(best_aic, best_order)]. *)
Definition try_order (p q : Z) (best : float * option (Z * Z))
  : float * option (Z * Z) :=
  match arch_fit p q with
  | Ok results =>
      if PrimFloat.ltb (aic results) (fst best) then (aic results, Some (p, q))
      else best
  | Raise _ => best
  end.

(** Lines 23-39. *)
Definition find_best_model : option (Z * Z) :=
  let best_aic := PrimFloat.infinity in
  let best_order := None in
  snd (fold_left
         (fun best p => fold_left (fun best q => try_order p q best)
                          (range2 1 3) best)
         (range2 1 3) (best_aic, best_order)).

(** The candidates, in the order the two loops visit them. *)
Definition grid : list (Z * Z) :=
  flat_map (fun p => map (fun q => (p, q)) (range2 1 3)) (range2 1 3).

(** The loops run over a list of candidates. *)
Definition select (candidates : list (Z * Z)) (best : float * option (Z * Z))
  : float * option (Z * Z) :=
  fold_left (fun best pq => try_order (fst pq) (snd pq) best) candidates best.

(** What the loops have established once the candidates [done] are visited,
    with [best = (best_aic, best_order)]: no visited fit has an AIC below
    [best_aic]; and [best_order], when set, is a visited candidate whose fit
    returned [best_aic], an AIC below infinity that no candidate visited
    before it reaches. *)
Definition selection_invariant (done : list (Z * Z))
    (best : float * option (Z * Z)) : Prop :=
  (forall p q r, In (p, q) done -> arch_fit p q = Ok r ->
     PrimFloat.ltb (aic r) (fst best) = false) /\
  match snd best with
  | None => fst best = PrimFloat.infinity
  | Some (p, q) =>
      exists before after r,
        done = before ++ (p, q) :: after /\
        arch_fit p q = Ok r /\
        fst best = aic r /\
        PrimFloat.ltb (aic r) PrimFloat.infinity = true /\
        forall p' q' r', In (p', q') before -> arch_fit p' q' = Ok r' ->
          PrimFloat.leb (aic r') (aic r) = false
  end.

(** Line 90, [p, q = best_order]: unpacking [None] is a [TypeError]. *)
Definition unpack_order (best_order : option (Z * Z)) : result (Z * Z) :=
  match best_order with
  | Some (p, q) => Ok (p, q)
  | None => Raise TypeError
  end.

(** Lines 89-103 of [main]: select the order, fit it again, simulate with the
    default arguments. *)
Definition main_simulation (g : @Rng float)
  : result (@Matrix float * @Rng float) :=
  ' (p, q) <- unpack_order find_best_model ;;
  model_fit <- arch_fit p q ;;
  @monte_carlo_simulation_default float (binary64 libm) model_fit g.

End OrderSelection.

(** ** The interpolation, over the reals *)

(** The interpolation of [np_percentile] at the position [v] of the sorted
    values [y], as the weighted mean that both forms of [lerp] are over the
    reals. *)
Definition interpolate (y : list R) (d : R) (v : R) : R :=
  let j := Int_part v in
  let g := (v - IZR j)%R in
  ((1 - g) * nth (Z.to_nat j) y d
   + g * nth (Nat.min (Z.to_nat j + 1) (List.length y - 1)) y d)%R.

(** ** The parameter names of a fitted model *)

(** [name[i]], as arch labels the coefficients. *)
Definition indexed (name : string) (i : nat) : string :=
  (name ++ "[" ++ NilZero.string_of_uint (Nat.to_uint i) ++ "]")%string.

(** The labels of [model_fit.params] for an EGARCH(p, q) with constant mean,
    from arch's documentation: [mu], [omega], [alpha[1]] to [alpha[p]],
    [beta[1]] to [beta[q]]. *)
Definition egarch_param_names (p q : Z) : list string :=
  ["mu"; "omega"]%string
    ++ map (indexed "alpha") (seq 1 (Z.to_nat p))
    ++ map (indexed "beta") (seq 1 (Z.to_nat q)).

(** ** calculate_returns *)

Section Returns.

Context {F : Type} {num : Num F}.
Local Open Scope num_scope.

(** A pandas DataFrame, for what the script reads of it: its columns by
    name, each a Series labelled by the dates of the rows. *)
Definition DataFrame : Type := list (string * @Series F).

(** [data[name]]: the column, or [KeyError]. *)
Fixpoint get_column (data : DataFrame) (name : string) : result (@Series F) :=
  match data with
  | [] => Raise (KeyError name)
  | (k, column) :: data' =>
      if String.eqb k name then Ok column else get_column data' name
  end.

(** A Series of floats in which a value can be missing (pandas shows a
    missing float as NaN). *)
Definition Column : Type := list (string * option F).

(** [s.shift(1)]: every row takes the value of the row before it, the first
    row a missing value ([fill]); the labels stay. *)
Fixpoint shift_from (fill : option F) (s : @Series F) : Column :=
  match s with
  | [] => []
  | (label, v) :: s' => (label, fill) :: shift_from (Some v) s'
  end.

Definition shift1 (s : @Series F) : Column := shift_from None s.

(** [a / b] for two Series over the same index: row by row, missing where
    [b] is missing. *)
Fixpoint series_div (a : @Series F) (b : Column) : Column :=
  match a, b with
  | (label, x) :: a', (_, y) :: b' =>
      (label, option_map (fun y => x / y) y) :: series_div a' b'
  | _, _ => []
  end.

(** [np.log(c)], row by row. *)
Definition series_log (c : Column) : Column :=
  map (fun row => (fst row, option_map np_log (snd row))) c.

(** [c.dropna()]: the rows whose value is neither missing nor NaN. *)
Fixpoint dropna (c : Column) : @Series F :=
  match c with
  | [] => []
  | (label, Some v) :: c' =>
      if np_isnan v then dropna c' else (label, v) :: dropna c'
  | (_, None) :: c' => dropna c'
  end.

(** Lines 19-21:
    [np.log(data['Close'] / data['Close'].shift(1)).dropna()]. *)
Definition calculate_returns (data : DataFrame) : result (@Series F) :=
  close <- get_column data "Close" ;;
  close' <- get_column data "Close" ;;
  Ok (dropna (series_log (series_div close (shift1 close')))).

(** The log-returns between consecutive rows, each labelled by the later
    row: the functional reading against which [calculate_returns] is
    proved. *)
Fixpoint log_returns_from (previous : F) (rows : @Series F) : @Series F :=
  match rows with
  | [] => []
  | (label, price) :: rows' =>
      (label, np_log (price / previous)) :: log_returns_from price rows'
  end.

Definition consecutive_log_returns (close : @Series F) : @Series F :=
  match close with
  | [] => []
  | (_, first_price) :: rows => log_returns_from first_price rows
  end.

End Returns.

(** ** The price stage of [main] *)

Section PriceStage.

Context {F : Type} {num : Num F}.
Local Open Scope num_scope.

(** [np.sum] of one row.  The order in which numpy adds the elements is its
    own (pairwise, by blocks), so the sum is a parameter of the model. *)
Variable np_sum : list F -> F.

(** Line 106: [np.sum(simulated_returns, axis=1)]. *)
Definition cumulative_returns (simulated_returns : Matrix) : list F :=
  map np_sum simulated_returns.

(** Line 110: [last_price * np.exp(cumulative_returns)]. *)
Definition predicted_prices (last_price : F) (cumulative_returns : list F)
  : list F :=
  map (fun c => last_price * np_exp c) cumulative_returns.

(** Lines 106-118 of [main], from the values of the [Close] column and the
    simulated returns: the last price and the two bounds. *)
Definition main_interval (close : list F) (simulated_returns : Matrix)
  : result (F * (F * F)) :=
  let cumulative_returns := cumulative_returns simulated_returns in
  last_price <- last_item close ;;
  let predicted_prices := predicted_prices last_price cumulative_returns in
  bounds <- main_confidence_interval predicted_prices ;;
  Ok (last_price, bounds).

End PriceStage.

(** The sum of a row over the reals, where the order does not matter. *)
Definition real_sum (row : list R) : R := fold_right Rplus 0%R row.

(** ** main *)

Section Main.

(** The libm numpy runs on, and numpy's sum of a row. *)
Variable libm : Libm.
Variable np_sum : list float -> float.

(** [arch_model(returns, p=p, q=q, vol='EGARCH', dist='normal').fit(disp='off')]:
    the fitted model, or the exception the fit raises. *)
Variable arch_model_fit :
  @Series float -> Z -> Z -> result (@ModelFit float).

(** Lines 81-118, from the data [fetch_data] delivers and the state of the
    generator: the current price and the two bounds that are printed, and
    the generator after the simulation.  The printing and the plot are left
    out. *)
Definition main (ibov : @DataFrame float) (g : @Rng float)
  : result ((float * (float * float)) * @Rng float) :=
  returns <- @calculate_returns float (binary64 libm) ibov ;;
  ' (simulated_returns, g') <-
      main_simulation libm (arch_model_fit returns) g ;;
  close <- get_column ibov "Close" ;;
  report <- @main_interval float (binary64 libm) np_sum (map snd close)
              simulated_returns ;;
  Ok (report, g').

End Main.

(** ** test_seasonality.py: rolling_seasonal_strength *)

(** Python's [range(start, stop, step)]: a [ValueError] for a zero step. *)
Definition range3 (start stop step : Z) : result (list Z) :=
  if (step =? 0)%Z then Raise ValueError
  else
    let count :=
      if (0 <? step)%Z then ((stop - start + step - 1) / step)%Z
      else ((start - stop - step - 1) / - step)%Z in
    Ok (map (fun k => (start + Z.of_nat k * step)%Z) (seq 0 (Z.to_nat count))).

(** Where Python's slicing puts a bound [i] in a sequence of [n] elements. *)
Definition slice_bound (n i : Z) : Z :=
  if (i <? 0)%Z then Z.max (i + n) 0 else Z.min i n.

(** [l[start:stop]]. *)
Definition slice {A : Type} (l : list A) (start stop : Z) : list A :=
  let n := Z.of_nat (List.length l) in
  let lo := slice_bound n start in
  let hi := slice_bound n stop in
  firstn (Z.to_nat (hi - lo)) (skipn (Z.to_nat lo) l).

Section Seasonality.

Context {F : Type} {num : Num F}.
Local Open Scope num_scope.

(** [STL(window, period=period, robust=True).fit().seasonal]: the seasonal
    component, or the exception statsmodels raises. *)
Variable stl_seasonal : list F -> Z -> result (list F).

(** [np.var]. *)
Variable np_var : list F -> F.

(** test_seasonality.py, lines 33-36: the body of the loop, on [results]. *)
Definition window_strength (series : list F) (period window_size : Z)
    (start : Z) (results : list (Z * Z * F)) : result (list (Z * Z * F)) :=
  let window := slice series start (start + window_size) in
  seasonal <- stl_seasonal window period ;;
  let seasonal_strength := np_var seasonal / np_var window in
  Ok (results ++ [(start, (start + window_size)%Z, seasonal_strength)]).

(** test_seasonality.py, lines 18-37. *)
Definition rolling_seasonal_strength (series : list F)
    (period window_size step : Z) : result (list (Z * Z * F)) :=
  let results := [] in
  starts <- range3 0 (Z.of_nat (List.length series) - window_size) step ;;
  for_in starts (window_strength series period window_size) results.

End Seasonality.

(** The defaults of the signature (test_seasonality.py, line 18). *)
Definition period_default : Z := 12.
Definition window_size_default : Z := 60.
Definition step_default : Z := 12.

(** ** Auxiliary notions for the statements *)

(** The labels the simulation looks up, in the order of lines 44-49. *)
Definition simulation_labels : list string :=
  ["mu"; "omega"; "alpha[1]"; "alpha[2]"; "beta[1]"; "beta[2]"]%string.

(** The first of [labels] that the Series lacks, if any. *)
Definition first_missing {F : Type} (s : @Series F) (labels : list string)
  : option string :=
  find (fun label =>
          match getitem s label with Ok _ => false | Raise _ => true end)
    labels.

(** The generator that delivers the draws of [g] with the opposite sign. *)
Definition mirrored (g : @Rng float) : @Rng float :=
  {| stream := fun i => PrimFloat.opp (stream g i); taken := taken g |}.

Definition real_mirrored (g : @Rng R) : @Rng R :=
  {| stream := fun i => Ropp (stream g i); taken := taken g |}.

(** [f 0 + f 1 + ... + f (n - 1)] over the reals. *)
Definition real_sum_upto (f : nat -> R) (n : nat) : R :=
  fold_right Rplus 0%R (map f (seq 0 n)).

(** ** Concrete inputs *)

(** A small libm to run the model on concrete inputs: the IEEE results at
    zero, the infinities and NaN, a few correct digits elsewhere. *)
Definition sample_exp (x : float) : float :=
  if PrimFloat.is_nan x then PrimFloat.nan
  else if PrimFloat.ltb x (-745)%float then 0%float
  else if PrimFloat.ltb 710%float x then PrimFloat.infinity
  else Nat.iter 20 (fun y => PrimFloat.mul y y)
         (PrimFloat.add 1 (PrimFloat.div x 0x1p20))%float.

Definition sample_log (x : float) : float :=
  if PrimFloat.is_nan x || PrimFloat.ltb x 0%float then PrimFloat.nan
  else if PrimFloat.eqb x 0%float then PrimFloat.neg_infinity
  else if PrimFloat.eqb x PrimFloat.infinity then PrimFloat.infinity
  else
    let '(m, e) := PrimFloat.frshiftexp x in
    let k := float_of_Z (Uint63.to_Z e - FloatOps.shift) in
    let u := PrimFloat.div (PrimFloat.sub m 1) (PrimFloat.add m 1) in
    let u2 := PrimFloat.mul u u in
    let series :=
      fold_right
        (fun d acc => PrimFloat.add (PrimFloat.div 1 (float_of_Z d))
                        (PrimFloat.mul u2 acc))
        0%float [1; 3; 5; 7; 9; 11; 13; 15; 17; 19]%Z in
    PrimFloat.add (PrimFloat.mul k 0x1.62e42fefa39efp-1%float)
      (PrimFloat.mul 2 (PrimFloat.mul u series)).

Definition sample_libm : Libm := {|
  libm_log := sample_log;
  libm_exp := sample_exp;
  libm_pow := fun x y =>
    if PrimFloat.eqb y 2%float then PrimFloat.mul x x
    else sample_exp (PrimFloat.mul y (sample_log x))
|}.

(** The results C99 (Annex F) and IEEE 754 fix for libm at the special values
    the simulation can meet: [log(0) = -inf], [pow(0, 2) = 0],
    [exp(NaN) = NaN], [exp(+inf) = +inf], [exp(-inf) = 0]. *)
Definition ieee_special_values (libm : Libm) : Prop :=
  libm_log libm 0%float = PrimFloat.neg_infinity /\
  libm_pow libm 0%float 2%float = 0%float /\
  libm_exp libm PrimFloat.nan = PrimFloat.nan /\
  libm_exp libm PrimFloat.infinity = PrimFloat.infinity /\
  libm_exp libm PrimFloat.neg_infinity = 0%float.

(** The coefficients of the specification's end-to-end scenario:
    [mu = 0.0005], [omega = -0.1], [alpha = [0.1, 0.05]],
    [beta = [0.85, 0.05]], [last_volatility = 0.015]. *)
Definition sample_mu : float := 0x1.0624dd2f1a9fcp-11.
Definition sample_omega : float := (-0x1.999999999999ap-4)%float.
Definition sample_alpha1 : float := 0x1.999999999999ap-4.
Definition sample_alpha2 : float := 0x1.999999999999ap-5.
Definition sample_beta1 : float := 0x1.b333333333333p-1.
Definition sample_beta2 : float := 0x1.999999999999ap-5.
Definition sample_last_vol : float := 0x1.eb851eb851eb8p-7.

Definition sample_params : @Series float :=
  [("mu", sample_mu); ("omega", sample_omega);
   ("alpha[1]", sample_alpha1); ("alpha[2]", sample_alpha2);
   ("beta[1]", sample_beta1); ("beta[2]", sample_beta2)]%string.

(** The fitted EGARCH(2, 2) of the specification's end-to-end scenario. *)
Definition sample_fit : @ModelFit float := {|
  aic := (-12345.5)%float;
  params := sample_params;
  conditional_volatility := [0.125%float; sample_last_vol]
|}.

(** The same parameters from another fit: another AIC, a longer volatility
    history with the same last value. *)
Definition sample_fit_again : @ModelFit float := {|
  aic := (-12000)%float;
  params := sample_params;
  conditional_volatility := [0.25%float; 0.125%float; sample_last_vol]
|}.


(** The scenario with an intercept of 2000: the log-variance leaves the
    range of [exp]. *)
Definition sample_fit_overflow : @ModelFit float := {|
  aic := (-12345.5)%float;
  params := [("mu", sample_mu); ("omega", 2000%float);
             ("alpha[1]", sample_alpha1); ("alpha[2]", sample_alpha2);
             ("beta[1]", sample_beta1); ("beta[2]", sample_beta2)]%string;
  conditional_volatility := [0.125%float; sample_last_vol]
|}.

(** A fitted EGARCH(1, 1): no second [alpha], no second [beta]. *)
Definition sample_fit_1_1 : @ModelFit float := {|
  aic := (-12350.25)%float;
  params := [("mu", sample_mu); ("omega", sample_omega);
             ("alpha[1]", sample_alpha1); ("beta[1]", sample_beta1)]%string;
  conditional_volatility := [0.125%float; sample_last_vol]
|}.

(** A fit that succeeds at every order of the grid; EGARCH(1, 1) has the
    smallest AIC. *)
Definition sample_arch_fit (p q : Z) : result (@ModelFit float) :=
  if ((p =? 1) && (q =? 1))%Z then Ok sample_fit_1_1
  else if ((p =? 2) && (q =? 2))%Z then Ok sample_fit
  else Raise ValueError.


(** A fit that succeeds at the order [(p0, q0)] only. *)
Definition only_arch_fit (p0 q0 : Z) (p q : Z) : result (@ModelFit float) :=
  if ((p =? p0) && (q =? q0))%Z then Ok sample_fit else Raise ValueError.

(** A generator that delivers 0.5, -1.25, 0.25, 2, 0.5, ... *)
Definition sample_rng : @Rng float := {|
  stream := fun i => nth (i mod 4) [0.5; -1.25; 0.25; 2]%float 0%float;
  taken := 0
|}.

(** A generator that has already delivered four draws and delivers the same
    six next, then zeros. *)
Definition sample_rng_later : @Rng float := {|
  stream := fun i =>
    if (i <? 10)%nat then nth (i mod 4) [0.5; -1.25; 0.25; 2]%float 0%float
    else 0%float;
  taken := 4
|}.

(** A generator that delivers zeros. *)
Definition zero_rng : @Rng float := {| stream := fun _ => 0%float; taken := 0 |}.


Definition real_zero_rng : @Rng R := {| stream := fun _ => 0%R; taken := 0 |}.

(** Price data: three days, with the closing prices 100, 110, 121. *)
Definition real_data : @DataFrame R :=
  [("Open", [("d0", 99); ("d1", 101); ("d2", 119)]);
   ("Close", [("d0", 100); ("d1", 110); ("d2", 121)])]%string%R.

(** Price data with a closing price of zero on the second day. *)
Definition data_with_zero_price : @DataFrame float :=
  [("Close", [("d0", 100); ("d1", 0); ("d2", 50)])]%string%float.

(** Price data in binary64: the closing prices 100, 110, 121. *)
Definition sample_data : @DataFrame float :=
  [("Close", [("d0", 100); ("d1", 110); ("d2", 121)])]%string%float.

(** A sum of a row: the elements added from left to right. *)
Definition sample_sum (row : list float) : float :=
  fold_left PrimFloat.add row 0%float.

(** A fit that, whatever the returns, succeeds at the order (2, 2) only. *)
Definition sample_arch_model_fit (returns : @Series float) (p q : Z)
  : result (@ModelFit float) :=
  only_arch_fit 2 2 p q.

(** A fit that succeeds with an AIC that is NaN, at every order. *)
Definition nan_aic_arch_fit (p q : Z) : result (@ModelFit float) :=
  Ok {| aic := PrimFloat.nan; params := sample_params;
        conditional_volatility := [sample_last_vol] |}.

(** A seasonal decomposition and a variance to run
    [rolling_seasonal_strength] with. *)
Definition sample_stl_seasonal (window : list R) (period : Z)
  : result (list R) :=
  Ok (map (fun x => (x / 2)%R) window).

Definition sample_var (a : list R) : R := 1%R.

(** * Proofs *)

(** ** Lists and loops *)

Section ListFacts.

Context {A : Type}.

Lemma length_list_set (l : list A) (i : nat) (v : A) :
  List.length (list_set l i v) = List.length l.
Proof.
  revert i; induction l as [|x l IH]; intros [|i]; simpl; auto.
Qed.

Lemma nth_error_list_set_eq (l : list A) (i : nat) (v : A) :
  i < List.length l -> nth_error (list_set l i v) i = Some v.
Proof.
  revert i; induction l as [|x l IH]; intros [|i]; simpl; intros Hi;
    try lia; auto.
  apply IH; lia.
Qed.

Lemma nth_error_list_set_neq (l : list A) (i j : nat) (v : A) :
  i <> j -> nth_error (list_set l i v) j = nth_error l j.
Proof.
  revert i j; induction l as [|x l IH]; intros [|i] [|j]; simpl; intros Hij;
    auto; try congruence.
Qed.

(** Writing position [i] splits the list around it. *)
Lemma list_set_split (l : list A) (i : nat) (v : A) :
  i < List.length l ->
  list_set l i v = firstn i l ++ v :: skipn (S i) l.
Proof.
  revert i; induction l as [|x l IH]; intros [|i]; simpl; intros Hi;
    try lia; auto.
  f_equal. apply IH; lia.
Qed.

Lemma for_in_app {I S : Type} (body : I -> S -> result S) (l1 l2 : list I)
    (st : S) :
  for_in (l1 ++ l2) body st = (st' <- for_in l1 body st ;; for_in l2 body st').
Proof.
  revert st; induction l1 as [|i l1 IH]; intros st; simpl; auto.
  destruct (body i st); simpl; auto.
Qed.

End ListFacts.

Section MoreListFacts.

Context {A : Type}.

Lemma list_set_same (l : list A) (i : nat) (v : A) :
  nth_error l i = Some v -> list_set l i v = l.
Proof.
  revert i; induction l as [|x l IH]; intros [|i]; simpl; intros Hi;
    try discriminate; auto.
  - congruence.
  - f_equal; auto.
Qed.

Lemma list_set_twice (l : list A) (i : nat) (v w : A) :
  list_set (list_set l i v) i w = list_set l i w.
Proof.
  revert i; induction l as [|x l IH]; intros [|i]; simpl; auto.
  f_equal; auto.
Qed.

(** Writing the next cell of a row whose first [t] cells are already
    written. *)
Lemma list_set_next (f : nat -> A) (row : list A) (t : nat) (v : A) :
  t < List.length row ->
  list_set (map f (seq 0 t) ++ skipn t row) t v =
  map f (seq 0 t) ++ v :: skipn (S t) row.
Proof.
  intros Ht.
  assert (Hlen : List.length (map f (seq 0 t)) = t)
    by (rewrite length_map, length_seq; reflexivity).
  rewrite list_set_split by (rewrite length_app, Hlen, length_skipn; lia).
  assert (Hfirst : firstn t (map f (seq 0 t) ++ skipn t row)
                   = map f (seq 0 t)).
  { rewrite firstn_app, Hlen, Nat.sub_diag, firstn_O, app_nil_r.
    apply firstn_all2. lia. }
  assert (Hskip : skipn (S t) (map f (seq 0 t) ++ skipn t row)
                  = skipn (S t) row).
  { rewrite skipn_app, Hlen.
    rewrite (skipn_all2 (n := S t)) by lia.
    replace (S t - t) with 1 by lia.
    rewrite skipn_skipn. reflexivity. }
  rewrite Hfirst, Hskip. reflexivity.
Qed.

Lemma nth_error_written_prefix (f : nat -> A) (l : list A) (t : nat) :
  nth_error (map f (seq 0 t) ++ skipn t l) t = nth_error l t.
Proof.
  rewrite nth_error_app2 by (rewrite length_map, length_seq; lia).
  rewrite length_map, length_seq, Nat.sub_diag, nth_error_skipn.
  f_equal. lia.
Qed.

Lemma nth_error_Some_lt (l : list A) (i : nat) (v : A) :
  nth_error l i = Some v -> i < List.length l.
Proof.
  intros H. apply nth_error_Some. congruence.
Qed.

End MoreListFacts.

(** ** The generator *)

Section RngFacts.

Context {F : Type}.

Lemma advance_0 (g : @Rng F) : advance g 0 = g.
Proof.
  destruct g as [zs k]; unfold advance; simpl. f_equal. lia.
Qed.

Lemma advance_advance (g : @Rng F) (a b : nat) :
  advance (advance g a) b = advance g (a + b).
Proof.
  unfold advance; simpl. f_equal. lia.
Qed.

End RngFacts.

(** ** The loops of monte_carlo_simulation *)

Section LoopFacts.

Context {F : Type} {num : Num F}.
Local Open Scope num_scope.

Variables mu omega alpha1 alpha2 beta1 beta2 last_vol : F.
Variable forecast_period : Z.

Let T : nat := Z.to_nat forecast_period.
Let step_ := step mu omega alpha1 alpha2 beta1 beta2.
Let path_ := path mu omega alpha1 alpha2 beta1 beta2 last_vol forecast_period.
Let log_sigma2_ := path_log_sigma2 omega alpha1 alpha2 beta1 beta2 last_vol.
Let return_ := path_return mu omega alpha1 alpha2 beta1 beta2 last_vol.
Let row_ :=
  path_row mu omega alpha1 alpha2 beta1 beta2 last_vol forecast_period.

(** The draws a generator still has to deliver. *)
Let ahead (g : Rng) : nat -> F := fun i => stream g (taken g + i).

(** The inner loop after [t] passes: the log-variance follows the recursion,
    [t] draws are taken, the first [t] cells of row [sim] are written, and
    nothing else has changed. *)
Lemma inner_loop_prefix (sim : nat) (g : Rng) (m : Matrix) (row : list F)
    (t : nat) :
  nth_error m sim = Some row ->
  t <= List.length row ->
  for_in (seq 0 t) (step_ sim) (path_start last_vol g m) =
  Ok {| log_sigma2 := log_sigma2_ (ahead g) t;
        rng := advance g t;
        simulated_returns :=
          list_set m sim (map (return_ (ahead g)) (seq 0 t) ++ skipn t row) |}.
Proof.
  intros Hrow. induction t as [|t IH]; intros Ht.
  - simpl. unfold path_start. rewrite advance_0.
    rewrite list_set_same by assumption. reflexivity.
  - rewrite seq_S, for_in_app, IH by lia. simpl.
    unfold step_ at 1, step. simpl.
    unfold setitem2.
    rewrite nth_error_list_set_eq by (eapply nth_error_Some_lt; eassumption).
    assert (Hlen : (t <? List.length
                      (map (return_ (ahead g)) (seq 0 t) ++ skipn t row))%nat
                   = true).
    { apply Nat.ltb_lt.
      rewrite length_app, length_map, length_seq, length_skipn. lia. }
    rewrite Hlen. simpl. f_equal. f_equal.
    + unfold advance; simpl. f_equal. lia.
    + rewrite list_set_twice. f_equal.
      rewrite list_set_next by lia.
      rewrite map_app, <- app_assoc. reflexivity.
Qed.

(** One pass of the outer loop writes row [sim] whole and takes
    [forecast_period] draws. *)
Lemma path_spec (sim : nat) (g : Rng) (m : Matrix) (row : list F) :
  nth_error m sim = Some row ->
  List.length row = T ->
  path_ sim (g, m) = Ok (advance g T, list_set m sim (row_ (ahead g))).
Proof.
  intros Hrow Hlen. unfold path_, path, range. simpl.
  fold T. fold step_.
  rewrite (inner_loop_prefix sim g m (t := T) Hrow) by lia. simpl.
  rewrite skipn_all2 by lia. rewrite app_nil_r. reflexivity.
Qed.

(** The outer loop after [s] passes: [s * forecast_period] draws are taken,
    the first [s] rows are the rows of their paths, the others are as they
    were. *)
Lemma outer_loop_prefix (g : Rng) (m0 : Matrix) (s : nat) :
  Forall (fun row => List.length row = T) m0 ->
  s <= List.length m0 ->
  for_in (seq 0 s) path_ (g, m0) =
  Ok (advance g (s * T),
      map (fun i => row_ (draws_of_path forecast_period g i)) (seq 0 s)
        ++ skipn s m0).
Proof.
  intros Hrows. induction s as [|s IH]; intros Hs.
  - simpl. rewrite advance_0. reflexivity.
  - rewrite seq_S, for_in_app, IH by lia. cbn [bind for_in].
    destruct (nth_error m0 s) as [row|] eqn:Hrow.
    2:{ apply nth_error_None in Hrow. lia. }
    assert (Hlen : List.length row = T).
    { rewrite Forall_forall in Hrows. apply Hrows.
      eapply nth_error_In; eassumption. }
    rewrite (@path_spec s (advance g (s * T)) _ row)
      by (rewrite ?nth_error_written_prefix; assumption).
    cbn [bind]. rewrite advance_advance. f_equal. f_equal.
    + f_equal. lia.
    + rewrite list_set_next by lia.
      rewrite map_app, <- app_assoc. reflexivity.
Qed.

(** The two loops together, from any matrix of the right shape. *)
Lemma simulation_loops_spec (n_simulations : Z) (g : Rng) (m0 : Matrix) :
  shape m0 (Z.to_nat n_simulations) T ->
  simulation_loops mu omega alpha1 alpha2 beta1 beta2 last_vol forecast_period
    n_simulations (g, m0) =
  Ok (advance g (Z.to_nat n_simulations * T),
      map (fun i => row_ (draws_of_path forecast_period g i))
        (range n_simulations)).
Proof.
  intros [Hlen Hrows]. unfold simulation_loops, range.
  fold path_. rewrite outer_loop_prefix by (auto; lia).
  rewrite skipn_all2 by lia. rewrite app_nil_r. reflexivity.
Qed.

(** The state in which path [s] enters its step [t]: the log-variance of the
    path so far, the generator [s * forecast_period + t] draws further, and
    the first [t] returns of the path already in row [s]. *)
Lemma state_at_spec (g : Rng) (m0 : Matrix) (n s t : nat) :
  shape m0 n T -> s < n -> t <= T ->
  exists m,
    state_at mu omega alpha1 alpha2 beta1 beta2 last_vol forecast_period
      s t (g, m0) =
    Ok {| log_sigma2 := log_sigma2_ (draws_of_path forecast_period g s) t;
          rng := advance g (s * T + t);
          simulated_returns := m |} /\
    forall j, j < t ->
      getitem2 m s j = Some (return_ (draws_of_path forecast_period g s) j).
Proof.
  intros [Hlen Hrows] Hs Ht. unfold state_at. fold path_.
  rewrite outer_loop_prefix by (auto; lia). cbn [bind fst snd].
  destruct (nth_error m0 s) as [row|] eqn:Hrow.
  2:{ apply nth_error_None in Hrow. lia. }
  assert (Hrowlen : List.length row = T).
  { rewrite Forall_forall in Hrows. apply Hrows.
    eapply nth_error_In; eassumption. }
  fold step_.
  rewrite (@inner_loop_prefix s (advance g (s * T)) _ row t)
    by (rewrite ?nth_error_written_prefix; auto; lia).
  rewrite advance_advance.
  eexists. split; [reflexivity|].
  intros j Hj. unfold getitem2.
  rewrite nth_error_list_set_eq
    by (rewrite length_app, length_map, length_seq, length_skipn; lia).
  rewrite nth_error_app1 by (rewrite length_map, length_seq; lia).
  rewrite nth_error_map, nth_error_seq.
  destruct (Nat.ltb_spec j t); [|lia]. reflexivity.
Qed.

(** The run passes through [state_at]: the loops are the prefix that leads
    to the state, the rest of the inner loop, then the rest of the outer
    loop. *)
Lemma simulation_loops_through_state (n_simulations : Z) (s t : nat)
    (st0 : Rng * Matrix) :
  s < Z.to_nat n_simulations -> t <= T ->
  simulation_loops mu omega alpha1 alpha2 beta1 beta2 last_vol forecast_period
    n_simulations st0 =
  (st <- state_at mu omega alpha1 alpha2 beta1 beta2 last_vol forecast_period
           s t st0 ;;
   finish_from mu omega alpha1 alpha2 beta1 beta2 last_vol forecast_period
     n_simulations s t st).
Proof.
  intros Hs Ht. unfold simulation_loops, state_at, finish_from, range.
  fold path_. fold step_. fold T.
  replace (Z.to_nat n_simulations)
    with (s + S (Z.to_nat n_simulations - S s))%nat at 1 by lia.
  rewrite seq_app, for_in_app. cbn [seq Nat.add].
  destruct (for_in (seq 0 s) path_ st0) as [st|e]; cbn [bind]; auto.
  cbn [for_in]. unfold path_ at 1, path. unfold range. fold T. fold step_.
  replace T with (t + (T - t))%nat at 1 by lia.
  rewrite seq_app, for_in_app. cbn [Nat.add].
  destruct (for_in (seq 0 t) (step_ s) (path_start last_vol (fst st) (snd st)))
    as [st1|e]; cbn [bind]; auto.
  destruct (for_in (seq t (T - t)) (step_ s) st1) as [st2|e]; cbn [bind]; auto.
Qed.

Lemma state_at_S (s t : nat) (st0 : Rng * Matrix) :
  state_at mu omega alpha1 alpha2 beta1 beta2 last_vol forecast_period
    s (S t) st0 =
  (st <- state_at mu omega alpha1 alpha2 beta1 beta2 last_vol forecast_period
           s t st0 ;;
   step_ s t st).
Proof.
  unfold state_at. fold path_. fold step_.
  destruct (for_in (seq 0 s) path_ st0) as [st|e]; cbn [bind]; auto.
  rewrite seq_S, for_in_app. cbn [Nat.add for_in].
  destruct (for_in (seq 0 t) (step_ s) (path_start last_vol (fst st) (snd st)))
    as [st1|e]; cbn [bind]; auto.
  destruct (step_ s t st1); reflexivity.
Qed.

(** Step [t] of path [s], between the state it starts from and the state it
    leaves. *)
Lemma step_at_spec (g : Rng) (m0 : Matrix) (n s t : nat) :
  shape m0 n T -> s < n -> t < T ->
  exists st st',
    state_at mu omega alpha1 alpha2 beta1 beta2 last_vol forecast_period
      s t (g, m0) = Ok st /\
    step_ s t st = Ok st' /\
    state_at mu omega alpha1 alpha2 beta1 beta2 last_vol forecast_period
      s (S t) (g, m0) = Ok st' /\
    log_sigma2 st = log_sigma2_ (draws_of_path forecast_period g s) t /\
    rng st = advance g (s * T + t) /\
    log_sigma2 st' = log_sigma2_ (draws_of_path forecast_period g s) (S t) /\
    getitem2 (simulated_returns st') s t
    = Some (return_ (draws_of_path forecast_period g s) t).
Proof.
  intros Hshape Hs Ht.
  destruct (@state_at_spec g m0 n s t Hshape Hs) as (m & Hst & _); [lia|].
  destruct (@state_at_spec g m0 n s (S t) Hshape Hs) as (m' & Hst' & Hm');
    [lia|].
  eexists. eexists. split; [exact Hst|].
  split; [|split; [exact Hst'|]].
  - rewrite state_at_S, Hst in Hst'. exact Hst'.
  - cbn [log_sigma2 rng simulated_returns]. repeat split; auto.
Qed.

Lemma length_path_row (zs : nat -> F) : List.length (row_ zs) = T.
Proof.
  unfold row_, path_row, range. rewrite length_map, length_seq. reflexivity.
Qed.

Lemma shape_list_set (m : Matrix) (n sim : nat) (row : list F) :
  shape m n T -> List.length row = T -> shape (list_set m sim row) n T.
Proof.
  intros [Hlen Hrows] Hrow. split.
  - rewrite length_list_set. assumption.
  - apply Forall_forall. intros r Hr.
    apply In_nth_error in Hr. destruct Hr as [i Hi].
    destruct (Nat.eq_dec sim i) as [->|Hne].
    + rewrite nth_error_list_set_eq in Hi.
      * congruence.
      * apply nth_error_Some_lt in Hi. rewrite length_list_set in Hi. lia.
    + rewrite nth_error_list_set_neq in Hi by assumption.
      rewrite Forall_forall in Hrows. apply Hrows.
      eapply nth_error_In; eassumption.
Qed.

(** The paths computed in any order, each from a generator of its own: the
    rows of the paths named in [order] are written, the others are as they
    were. *)
Lemma paths_in_order_spec (own : nat -> Rng) (order : list nat) (n : nat) :
  Forall (fun sim => sim < n) order ->
  forall m0 : Matrix,
  shape m0 n T ->
  exists m,
    paths_in_order mu omega alpha1 alpha2 beta1 beta2 last_vol forecast_period
      own order m0 = Ok m /\
    shape m n T /\
    forall i,
      nth_error m i =
      if in_dec Nat.eq_dec i order then Some (row_ (ahead (own i)))
      else nth_error m0 i.
Proof.
  unfold paths_in_order.
  induction order as [|sim order IH]; intros Horder m0 Hshape.
  - exists m0. simpl. auto.
  - inversion Horder as [|? ? Hsim Horder']; subst.
    cbn [for_in]. fold path_.
    destruct (nth_error m0 sim) as [row|] eqn:Hrow.
    2:{ apply nth_error_None in Hrow. destruct Hshape as [Hlen _]. lia. }
    assert (Hlen : List.length row = T).
    { destruct Hshape as [_ Hrows]. rewrite Forall_forall in Hrows.
      apply Hrows. eapply nth_error_In; eassumption. }
    rewrite (@path_spec sim (own sim) m0 row) by assumption.
    cbn [bind snd].
    destruct (IH Horder' (list_set m0 sim (row_ (ahead (own sim)))))
      as (m & Hrun & Hm & Hnth).
    { apply shape_list_set; auto using length_path_row. }
    exists m. split; [exact Hrun|]. split; [exact Hm|].
    intros i. rewrite Hnth.
    destruct (in_dec Nat.eq_dec i order) as [Hin|Hnin].
    + destruct (in_dec Nat.eq_dec i (sim :: order)) as [_|Hn];
        [reflexivity|]. exfalso. apply Hn. right. assumption.
    + destruct (Nat.eq_dec sim i) as [->|Hne].
      * rewrite nth_error_list_set_eq
          by (eapply nth_error_Some_lt; eassumption).
        destruct (in_dec Nat.eq_dec i (i :: order)) as [_|Hn];
          [reflexivity|]. exfalso. apply Hn. left. reflexivity.
      * rewrite nth_error_list_set_neq by assumption.
        destruct (in_dec Nat.eq_dec i (sim :: order)) as [[Heq|Hin]|_];
          [congruence|contradiction|reflexivity].
Qed.

End LoopFacts.

(** ** monte_carlo_simulation as a whole *)

Section SimulationFacts.

Context {F : Type} {num : Num F}.
Local Open Scope num_scope.

Lemma np_full_ok (rows cols : Z) (v : F) :
  (0 <= rows)%Z -> (0 <= cols)%Z ->
  np_full rows cols v
  = Ok (repeat (repeat v (Z.to_nat cols)) (Z.to_nat rows)).
Proof.
  intros Hr Hc. unfold np_full.
  destruct (Z.ltb_spec rows 0); [lia|].
  destruct (Z.ltb_spec cols 0); [lia|]. reflexivity.
Qed.

Lemma np_full_negative (rows cols : Z) (v : F) :
  (rows < 0 \/ cols < 0)%Z -> np_full rows cols v = Raise ValueError.
Proof.
  intros H. unfold np_full.
  destruct (Z.ltb_spec rows 0); [reflexivity|].
  destruct (Z.ltb_spec cols 0); [reflexivity|]. lia.
Qed.

Lemma shape_repeat (rows cols : nat) (v : F) :
  shape (repeat (repeat v cols) rows) rows cols.
Proof.
  split.
  - apply repeat_length.
  - apply Forall_forall. intros row Hrow.
    apply repeat_spec in Hrow. subst row. apply repeat_length.
Qed.

(** With its inputs present and non-negative dimensions the simulation
    returns the rows of the paths, in order, and leaves the generator
    [n_simulations * forecast_period] draws further. *)
Lemma monte_carlo_simulation_run (model_fit : ModelFit)
    (mu omega alpha1 alpha2 beta1 beta2 last_vol : F)
    (n_simulations forecast_period : Z) (g : Rng) :
  has_inputs model_fit mu omega alpha1 alpha2 beta1 beta2 last_vol ->
  (0 <= n_simulations)%Z -> (0 <= forecast_period)%Z ->
  monte_carlo_simulation model_fit n_simulations forecast_period g =
  Ok (map (fun sim =>
             path_row mu omega alpha1 alpha2 beta1 beta2 last_vol
               forecast_period (draws_of_path forecast_period g sim))
        (range n_simulations),
      advance g (Z.to_nat n_simulations * Z.to_nat forecast_period)).
Proof.
  intros (Hmu & Homega & Ha1 & Ha2 & Hb1 & Hb2 & Hlv) HN HT.
  unfold monte_carlo_simulation.
  rewrite Hmu, Homega, Ha1, Ha2, Hb1, Hb2. cbn [bind].
  unfold np_zeros. rewrite np_full_ok by assumption. cbn [bind].
  rewrite Hlv. cbn [bind].
  rewrite simulation_loops_spec by apply shape_repeat.
  reflexivity.
Qed.

(** Either the inputs are present and the dimensions non-negative, or the
    simulation raises, whatever the generator. *)
Lemma monte_carlo_simulation_cases (model_fit : ModelFit)
    (n_simulations forecast_period : Z) :
  (exists mu omega alpha1 alpha2 beta1 beta2 last_vol,
     has_inputs model_fit mu omega alpha1 alpha2 beta1 beta2 last_vol /\
     (0 <= n_simulations)%Z /\ (0 <= forecast_period)%Z) \/
  (exists e, forall g,
     monte_carlo_simulation model_fit n_simulations forecast_period g
     = Raise e).
Proof.
  unfold has_inputs, monte_carlo_simulation.
  destruct (getitem (params model_fit) "mu") as [mu|e];
    [|right; exists e; reflexivity].
  destruct (getitem (params model_fit) "omega") as [omega|e];
    [|right; exists e; reflexivity].
  destruct (getitem (params model_fit) "alpha[1]") as [alpha1|e];
    [|right; exists e; reflexivity].
  destruct (getitem (params model_fit) "alpha[2]") as [alpha2|e];
    [|right; exists e; reflexivity].
  destruct (getitem (params model_fit) "beta[1]") as [beta1|e];
    [|right; exists e; reflexivity].
  destruct (getitem (params model_fit) "beta[2]") as [beta2|e];
    [|right; exists e; reflexivity].
  cbn [bind].
  destruct (Z.lt_ge_cases n_simulations 0) as [HN|HN].
  { right. exists ValueError. intros g. unfold np_zeros.
    rewrite np_full_negative by auto. reflexivity. }
  destruct (Z.lt_ge_cases forecast_period 0) as [HT|HT].
  { right. exists ValueError. intros g. unfold np_zeros.
    rewrite np_full_negative by auto. reflexivity. }
  unfold np_zeros. rewrite np_full_ok by assumption. cbn [bind].
  destruct (last_item (conditional_volatility model_fit)) as [last_vol|e];
    [|right; exists e; reflexivity].
  left. exists mu, omega, alpha1, alpha2, beta1, beta2, last_vol.
  repeat split; auto.
Qed.

(** The log-variance of a path depends on the draws of its first steps
    only. *)
Lemma path_log_sigma2_ext (omega alpha1 alpha2 beta1 beta2 last_vol : F)
    (zs zs' : nat -> F) (t : nat) :
  (forall i, i < t -> zs i = zs' i) ->
  path_log_sigma2 omega alpha1 alpha2 beta1 beta2 last_vol zs t =
  path_log_sigma2 omega alpha1 alpha2 beta1 beta2 last_vol zs' t.
Proof.
  induction t as [|t IH]; intros Hzs; simpl; auto.
  rewrite IH by (intros; apply Hzs; lia).
  rewrite (Hzs t) by lia. reflexivity.
Qed.

(** The row of a path depends on the draws of that path only. *)
Lemma path_row_ext (mu omega alpha1 alpha2 beta1 beta2 last_vol : F)
    (forecast_period : Z) (zs zs' : nat -> F) :
  (forall i, i < Z.to_nat forecast_period -> zs i = zs' i) ->
  path_row mu omega alpha1 alpha2 beta1 beta2 last_vol forecast_period zs =
  path_row mu omega alpha1 alpha2 beta1 beta2 last_vol forecast_period zs'.
Proof.
  intros Hzs. unfold path_row, range. apply map_ext_in.
  intros t Ht. apply in_seq in Ht.
  unfold path_return, path_sigma.
  rewrite (path_log_sigma2_ext _ _ _ _ _ _ zs zs' (t := S t))
    by (intros; apply Hzs; lia).
  rewrite (Hzs t) by lia. reflexivity.
Qed.


(** The simulation is the run up to any step, then the rest of the run. *)
Lemma monte_carlo_simulation_through_state (model_fit : ModelFit)
    (mu omega alpha1 alpha2 beta1 beta2 last_vol : F)
    (n_simulations forecast_period : Z) (g : Rng) (zeros : Matrix)
    (s t : nat) :
  has_inputs model_fit mu omega alpha1 alpha2 beta1 beta2 last_vol ->
  np_zeros n_simulations forecast_period = Ok zeros ->
  s < Z.to_nat n_simulations -> t <= Z.to_nat forecast_period ->
  monte_carlo_simulation model_fit n_simulations forecast_period g =
  (st <- state_at mu omega alpha1 alpha2 beta1 beta2 last_vol forecast_period
           s t (g, zeros) ;;
   st' <- finish_from mu omega alpha1 alpha2 beta1 beta2 last_vol
            forecast_period n_simulations s t st ;;
   Ok (snd st', fst st')).
Proof.
  intros (Hmu & Homega & Ha1 & Ha2 & Hb1 & Hb2 & Hlv) Hzeros Hs Ht.
  unfold monte_carlo_simulation.
  rewrite Hmu, Homega, Ha1, Ha2, Hb1, Hb2, Hzeros, Hlv. cbn [bind].
  rewrite (@simulation_loops_through_state F num mu omega alpha1 alpha2 beta1
             beta2 last_vol forecast_period n_simulations s t)
    by assumption.
  destruct (state_at mu omega alpha1 alpha2 beta1 beta2 last_vol
              forecast_period s t (g, zeros)); reflexivity.
Qed.

Lemma np_zeros_shape (rows cols : Z) (zeros : Matrix) :
  np_zeros rows cols = Ok zeros ->
  shape zeros (Z.to_nat rows) (Z.to_nat cols).
Proof.
  unfold np_zeros, np_full.
  destruct ((rows <? 0)%Z || (cols <? 0)%Z); [discriminate|].
  intros H. injection H as <-. apply shape_repeat.
Qed.

(** The entries of the matrix of path rows. *)
Lemma getitem2_rows (mu omega alpha1 alpha2 beta1 beta2 last_vol : F)
    (n_simulations forecast_period : Z) (draws : nat -> nat -> F)
    (s t : nat) :
  s < Z.to_nat n_simulations -> t < Z.to_nat forecast_period ->
  getitem2
    (map (fun sim =>
            path_row mu omega alpha1 alpha2 beta1 beta2 last_vol
              forecast_period (draws sim))
       (range n_simulations)) s t
  = Some (path_return mu omega alpha1 alpha2 beta1 beta2 last_vol
            (draws s) t).
Proof.
  intros Hs Ht. unfold getitem2, range.
  rewrite nth_error_map, nth_error_seq.
  destruct (Nat.ltb_spec s (Z.to_nat n_simulations)); [|lia].
  cbn [option_map Nat.add]. unfold path_row, range.
  rewrite nth_error_map, nth_error_seq.
  destruct (Nat.ltb_spec t (Z.to_nat forecast_period)); [|lia].
  reflexivity.
Qed.

(** Every step of every path: the state it starts from and the state it
    leaves are states of the run; the log-variance is updated by the EGARCH
    formula from the draw of the step and the log-variance before it, and the
    return stored at [(s, t)] is computed from that same draw. *)
Lemma step_of_the_run (model_fit : ModelFit)
    (mu omega alpha1 alpha2 beta1 beta2 last_vol : F)
    (n_simulations forecast_period : Z) (g : Rng) (zeros : Matrix)
    (s t : nat) :
  has_inputs model_fit mu omega alpha1 alpha2 beta1 beta2 last_vol ->
  np_zeros n_simulations forecast_period = Ok zeros ->
  s < Z.to_nat n_simulations -> t < Z.to_nat forecast_period ->
  exists st st',
    state_at mu omega alpha1 alpha2 beta1 beta2 last_vol forecast_period
      s t (g, zeros) = Ok st /\
    step mu omega alpha1 alpha2 beta1 beta2 s t st = Ok st' /\
    monte_carlo_simulation model_fit n_simulations forecast_period g =
      (st2 <- finish_from mu omega alpha1 alpha2 beta1 beta2 last_vol
                forecast_period n_simulations s (S t) st' ;;
       Ok (snd st2, fst st2)) /\
    (t = 0 -> log_sigma2 st = np_log (last_vol ** 2)) /\
    let z := stream g (taken g + s * Z.to_nat forecast_period + t) in
    let sigma := np_sqrt (np_exp (log_sigma2 st')) in
    log_sigma2 st' =
      omega + alpha1 * (fabs z - np_sqrt (of_int 2 / np_pi))
            + alpha2 * (fabs z - np_sqrt (of_int 2 / np_pi))
            + (beta1 + beta2) * log_sigma2 st /\
    getitem2 (simulated_returns st') s t
    = Some (mu - lit_0_5 * sigma ** 2 + sigma * z) /\
    exists m g',
      monte_carlo_simulation model_fit n_simulations forecast_period g
      = Ok (m, g') /\
      getitem2 m s t = Some (mu - lit_0_5 * sigma ** 2 + sigma * z).
Proof.
  intros Hin Hzeros Hs Ht.
  destruct (@step_at_spec F num mu omega alpha1 alpha2 beta1 beta2 last_vol
              forecast_period g zeros (Z.to_nat n_simulations) s t
              (@np_zeros_shape _ _ _ Hzeros) Hs Ht)
    as (st & st' & Hst & Hstep & Hst' & Hls & _ & Hls' & Hentry).
  exists st, st'. split; [exact Hst|]. split; [exact Hstep|].
  split; [|split].
  - rewrite (@monte_carlo_simulation_through_state model_fit mu omega alpha1
               alpha2 beta1 beta2 last_vol n_simulations forecast_period g
               zeros s (S t) Hin Hzeros) by lia.
    rewrite Hst'. reflexivity.
  - intros ->. rewrite Hls. reflexivity.
  - cbv zeta. split; [|split].
    + rewrite Hls', Hls. reflexivity.
    + rewrite Hentry, Hls'. reflexivity.
    + eexists. eexists. split.
      { apply monte_carlo_simulation_run with (1 := Hin); lia. }
      rewrite getitem2_rows by assumption. rewrite Hls'. reflexivity.
Qed.

End SimulationFacts.

(** ** IEEE 754 arithmetic and order

    From the specification of the primitive floats ([FloatAxioms]). *)

Lemma Prim2SF_infinity : Prim2SF infinity = S754_infinity false.
Proof. reflexivity. Qed.
Lemma Prim2SF_zero : Prim2SF 0%float = S754_zero false.
Proof. reflexivity. Qed.

Lemma SFcompare_refl_finite s m e :
  SFcompare (S754_finite s m e) (S754_finite s m e) = Some Eq.
Proof.
  simpl. rewrite Z.compare_refl, Pos.compare_cont_refl.
  destruct s; reflexivity.
Qed.

Lemma is_finite_spec (x : float) :
  PrimFloat.is_finite x =
  match Prim2SF x with
  | S754_zero _ | S754_finite _ _ _ => true
  | _ => false
  end.
Proof.
  unfold PrimFloat.is_finite, PrimFloat.is_nan, PrimFloat.is_infinity.
  rewrite !eqb_spec, abs_spec, Prim2SF_infinity.
  destruct (Prim2SF x) as [s|s| |s m e]; try reflexivity.
  - destruct s; reflexivity.
  - unfold SFeqb at 1. rewrite SFcompare_refl_finite. reflexivity.
Qed.

Lemma is_nan_spec (x : float) :
  PrimFloat.is_nan x = match Prim2SF x with S754_nan => true | _ => false end.
Proof.
  unfold PrimFloat.is_nan. rewrite eqb_spec.
  destruct (Prim2SF x) as [s|s| |s m e]; try reflexivity.
  - destruct s; reflexivity.
  - unfold SFeqb. rewrite SFcompare_refl_finite. reflexivity.
Qed.

(** Adding the product of a finite number and zero *)
Lemma add_mul_zero (x sigma : float) :
  PrimFloat.is_finite sigma = true ->
  (x + sigma * 0 = x \/
   (PrimFloat.eqb x 0 = true /\ PrimFloat.eqb (x + sigma * 0) 0 = true))%float.
Proof.
  rewrite is_finite_spec. intros Hfin.
  assert (Hmul : exists s, Prim2SF (sigma * 0) = S754_zero s).
  { rewrite mul_spec, Prim2SF_zero.
    destruct (Prim2SF sigma) as [s|s| |s m e]; try discriminate;
      eexists; reflexivity. }
  destruct Hmul as [s Hmul].
  destruct (Prim2SF x) as [sx|sx| |sx mx ex] eqn:Hx.
  - right. rewrite !eqb_spec, add_spec, Hmul, Hx, Prim2SF_zero.
    destruct sx, s; split; reflexivity.
  - left. apply Prim2SF_inj. rewrite add_spec, Hmul, Hx. reflexivity.
  - left. apply Prim2SF_inj. rewrite add_spec, Hmul, Hx. reflexivity.
  - left. apply Prim2SF_inj. rewrite add_spec, Hmul, Hx. reflexivity.
Qed.


Ltac order_cases :=
  repeat match goal with
  | |- context [Z.compare ?a ?b] => destruct (Z.compare_spec a b)
  | H : context [Z.compare ?a ?b] |- _ => destruct (Z.compare_spec a b)
  | |- context [PosDef.Pos.compare_cont Eq ?a ?b] =>
      change (PosDef.Pos.compare_cont Eq a b) with (Pos.compare a b);
      destruct (Pos.compare_spec a b)
  | H : context [PosDef.Pos.compare_cont Eq ?a ?b] |- _ =>
      change (PosDef.Pos.compare_cont Eq a b) with (Pos.compare a b) in H;
      destruct (Pos.compare_spec a b)
  end.

Lemma SFltb_trans (a b c : spec_float) :
  SFltb a b = true -> SFltb b c = true -> SFltb a c = true.
Proof.
  unfold SFltb, SFcompare.
  destruct a as [sa|sa| |sa ma ea], b as [sb|sb| |sb mb eb],
    c as [sc|sc| |sc mc ec];
    try destruct sa; try destruct sb; try destruct sc;
    try discriminate; try reflexivity;
    intros Hab Hbc; order_cases; simpl in *;
    try discriminate; try reflexivity; try lia.
Qed.

Lemma ltb_trans (a b c : float) :
  PrimFloat.ltb a b = true -> PrimFloat.ltb b c = true -> PrimFloat.ltb a c = true.
Proof. rewrite !ltb_spec. apply SFltb_trans. Qed.

Lemma ltb_irrefl (a : float) : PrimFloat.ltb a a = false.
Proof.
  rewrite ltb_spec. unfold SFltb, SFcompare.
  destruct (Prim2SF a) as [s|s| |s m e]; try destruct s; try reflexivity;
  rewrite Z.compare_refl, Pos.compare_cont_refl; reflexivity.
Qed.

Lemma SFleb_ltb_trans (a b c : spec_float) :
  SFleb a b = true -> SFltb b c = true -> SFltb a c = true.
Proof.
  unfold SFleb, SFltb, SFcompare.
  destruct a as [sa|sa| |sa ma ea], b as [sb|sb| |sb mb eb],
    c as [sc|sc| |sc mc ec];
    try destruct sa; try destruct sb; try destruct sc;
    try discriminate; try reflexivity;
    intros Hab Hbc; order_cases; simpl in *;
    try discriminate; try reflexivity; try lia.
Qed.

Lemma leb_ltb_trans (a b c : float) :
  PrimFloat.leb a b = true -> PrimFloat.ltb b c = true ->
  PrimFloat.ltb a c = true.
Proof. rewrite leb_spec, !ltb_spec. apply SFleb_ltb_trans. Qed.

Lemma is_nan_true (x : float) : PrimFloat.is_nan x = true -> x = PrimFloat.nan.
Proof.
  rewrite is_nan_spec. intros H. apply Prim2SF_inj.
  destruct (Prim2SF x); try discriminate. reflexivity.
Qed.

(** With a zero draw and a volatility that is NaN or infinite the return is
    NaN, whatever [x = mu - 0.5 * sigma ** 2] is. *)
Lemma return_at_zero_draw_not_finite (x sigma : float) :
  PrimFloat.is_finite sigma = false ->
  (x + sigma * 0)%float = PrimFloat.nan.
Proof.
  rewrite is_finite_spec. intros Hsigma. apply Prim2SF_inj.
  rewrite add_spec, mul_spec, Prim2SF_zero.
  destruct (Prim2SF sigma) as [s|s| |s m e]; try discriminate;
    destruct (Prim2SF x); reflexivity.
Qed.

(** ** Rounding to binary64

    From the definitions of [SpecFloat]: what [binary_round] returns, that it
    is monotone against a binary64 number, and what follows for the order of
    sums, differences and products. *)

Section Rounding.

Local Open Scope Z_scope.
Local Unset Implicit Arguments.

Lemma fexp_binary64 (x : Z) : fexp prec emax x = Z.max (x - 53) (-1074).
Proof. reflexivity. Qed.

Lemma digits2_pos_spec (m : positive) :
  2 ^ (Zpos (digits2_pos m) - 1) <= Zpos m < 2 ^ Zpos (digits2_pos m).
Proof.
  induction m as [p IH|p IH|]; cbn [digits2_pos].
  - rewrite Pos2Z.inj_succ.
    replace (Z.succ (Zpos (digits2_pos p)) - 1) with (Zpos (digits2_pos p) - 1 + 1)
      by lia.
    rewrite Z.pow_succ_r by lia. rewrite Z.pow_add_r by lia.
    change (2 ^ 1) with 2. lia.
  - rewrite Pos2Z.inj_succ.
    replace (Z.succ (Zpos (digits2_pos p)) - 1) with (Zpos (digits2_pos p) - 1 + 1)
      by lia.
    rewrite Z.pow_succ_r by lia. rewrite Z.pow_add_r by lia.
    change (2 ^ 1) with 2. lia.
  - cbn. lia.
Qed.

(** The number of binary digits is determined by the bounds. *)
Lemma digits2_pos_unique (m : positive) (d : Z) :
  2 ^ (d - 1) <= Zpos m < 2 ^ d -> Zpos (digits2_pos m) = d.
Proof.
  intros [Hlo Hhi]. pose proof (digits2_pos_spec m) as [Hlo' Hhi'].
  assert (Hd : 0 < d).
  { destruct (Z.ltb_spec 0 d) as [|Hle]; [assumption|].
    exfalso. destruct (Z.eqb_spec d 0) as [->|].
    - cbn in Hhi. lia.
    - rewrite Z.pow_neg_r in Hhi by lia. lia. }
  assert (H1 : d - 1 < Zpos (digits2_pos m)).
  { apply (Z.pow_lt_mono_r_iff 2); lia. }
  assert (H2 : Zpos (digits2_pos m) - 1 < d).
  { apply (Z.pow_lt_mono_r_iff 2); lia. }
  lia.
Qed.

Lemma shl_align_spec (m : positive) (e e' : Z) :
  let '(m', e'') := shl_align m e e' in
  e'' = Z.min e e' /\ Zpos m' = Zpos m * 2 ^ (e - e'').
Proof.
  unfold shl_align. destruct (e' - e) as [|d|d] eqn:Hd.
  - split; [lia|]. replace (e - e) with 0 by lia. cbn. lia.
  - split; [lia|]. replace (e - e) with 0 by lia. cbn. lia.
  - split; [lia|]. replace (e - e') with (Zpos d) by lia.
    change (Pos.iter xO m d) with (shift_pos d m).
    rewrite shift_pos_correct. rewrite Zpower_pos_nat, Zpower_nat_Z.
    rewrite positive_nat_Z. lia.
Qed.

(** *** Shifting right *)

Lemma shr_1_spec (r : shr_record) :
  0 <= shr_m r ->
  shr_m (shr_1 r) = shr_m r / 2 /\
  shr_r (shr_1 r) = Z.odd (shr_m r) /\
  shr_s (shr_1 r) = shr_r r || shr_s r.
Proof.
  destruct r as [m r s]. cbn [shr_m shr_r shr_s]. intros Hm.
  destruct m as [|[p|p|]|p]; cbn [shr_1 shr_m shr_r shr_s]; try lia.
  - repeat split.
  - repeat split. rewrite Pos2Z.inj_xI.
    apply (Z.div_unique _ 2 _ 1); lia.
  - repeat split. rewrite Pos2Z.inj_xO.
    apply (Z.div_unique _ 2 _ 0); lia.
  - repeat split.
Qed.

Lemma iter_shr_1_spec (p : positive) (r : shr_record) :
  0 <= shr_m r ->
  shr_m (iter_pos shr_1 p r) = shr_m r / 2 ^ Zpos p /\
  (shr_r r = false -> shr_s r = false -> (shr_m r) mod 2 ^ Zpos p = 0 ->
   shr_r (iter_pos shr_1 p r) = false /\ shr_s (iter_pos shr_1 p r) = false).
Proof.
  revert r. induction p as [p IH|p IH|]; intros r Hm; cbn [iter_pos].
  - destruct (shr_1_spec r Hm) as (H1m & H1r & H1s).
    assert (Hm1 : 0 <= shr_m (shr_1 r)) by (rewrite H1m; apply Z.div_pos; lia).
    destruct (IH _ Hm1) as [H2m H2f].
    assert (Hm2 : 0 <= shr_m (iter_pos shr_1 p (shr_1 r)))
      by (rewrite H2m; apply Z.div_pos; [lia|apply Z.pow_pos_nonneg; lia]).
    destruct (IH _ Hm2) as [H3m H3f].
    assert (Hpow : 2 ^ Zpos p~1 = 2 * 2 ^ Zpos p * 2 ^ Zpos p).
    { rewrite Pos2Z.inj_xI. rewrite Z.pow_add_r, Z.pow_mul_r by lia.
      change (2 ^ 2) with 4. change (2 ^ 1) with 2.
      replace 4 with (2 * 2) by lia. rewrite Z.pow_mul_l. lia. }
    assert (Hp : 0 < 2 ^ Zpos p) by (apply Z.pow_pos_nonneg; lia).
    split.
    + rewrite H3m, H2m, H1m, Hpow. rewrite !Z.div_div by lia.
      f_equal. lia.
    + intros Hr Hs Hmod.
      assert (Hdiv : shr_m r = 2 * 2 ^ Zpos p * 2 ^ Zpos p * (shr_m r / 2 ^ Zpos p~1)).
      { rewrite <- Hpow. apply Z.div_exact in Hmod; [exact Hmod|lia]. }
      set (k := shr_m r / 2 ^ Zpos p~1) in *.
      assert (Hodd : Z.odd (shr_m r) = false).
      { rewrite Hdiv. rewrite <- !Z.mul_assoc. apply Z.odd_even. }
      assert (H1mk : shr_m (shr_1 r) = 2 ^ Zpos p * 2 ^ Zpos p * k).
      { rewrite H1m, Hdiv. rewrite <- !Z.mul_assoc.
        rewrite (Z.mul_comm 2). apply Z.div_mul. lia. }
      destruct H2f as [H2r H2s].
      * rewrite H1r. exact Hodd.
      * rewrite H1s, Hr, Hs. reflexivity.
      * rewrite H1mk. rewrite <- Z.mul_assoc, Z.mul_comm. apply Z.mod_mul. lia.
      * apply H3f; [exact H2r|exact H2s|].
        rewrite H2m, H1mk. rewrite <- Z.mul_assoc, (Z.mul_comm (2 ^ Zpos p)).
        rewrite Z.div_mul by lia. rewrite Z.mul_comm. apply Z.mod_mul. lia.
  - destruct (IH _ Hm) as [H2m H2f].
    assert (Hp : 0 < 2 ^ Zpos p) by (apply Z.pow_pos_nonneg; lia).
    assert (Hm2 : 0 <= shr_m (iter_pos shr_1 p r))
      by (rewrite H2m; apply Z.div_pos; lia).
    destruct (IH _ Hm2) as [H3m H3f].
    assert (Hpow : 2 ^ Zpos p~0 = 2 ^ Zpos p * 2 ^ Zpos p).
    { rewrite Pos2Z.inj_xO. rewrite <- Z.pow_add_r by lia. f_equal. lia. }
    split.
    + rewrite H3m, H2m, Hpow. rewrite Z.div_div by lia. reflexivity.
    + intros Hr Hs Hmod.
      assert (Hdiv : shr_m r = 2 ^ Zpos p * 2 ^ Zpos p * (shr_m r / 2 ^ Zpos p~0)).
      { rewrite <- Hpow. apply Z.div_exact in Hmod; [exact Hmod|lia]. }
      set (k := shr_m r / 2 ^ Zpos p~0) in *.
      destruct H2f as [H2r H2s]; [exact Hr|exact Hs| |].
      * rewrite Hdiv. rewrite <- Z.mul_assoc, Z.mul_comm. apply Z.mod_mul. lia.
      * apply H3f; [exact H2r|exact H2s|].
        rewrite H2m, Hdiv. rewrite <- Z.mul_assoc, (Z.mul_comm (2 ^ Zpos p)).
        rewrite Z.div_mul by lia. rewrite Z.mul_comm. apply Z.mod_mul. lia.
  - destruct (shr_1_spec r Hm) as (H1m & H1r & H1s).
    split; [rewrite H1m; reflexivity|].
    intros Hr Hs Hmod. rewrite H1r, H1s, Hr, Hs. split; [|reflexivity].
    change (2 ^ 1) with 2 in Hmod. rewrite Zodd_mod, Hmod. reflexivity.
Qed.

Lemma shr_spec (r : shr_record) (e n : Z) :
  0 <= shr_m r ->
  snd (shr r e n) = e + Z.max n 0 /\
  shr_m (fst (shr r e n)) = shr_m r / 2 ^ Z.max n 0 /\
  (shr_r r = false -> shr_s r = false -> shr_m r mod 2 ^ Z.max n 0 = 0 ->
   shr_r (fst (shr r e n)) = false /\ shr_s (fst (shr r e n)) = false).
Proof.
  intros Hm. unfold shr. destruct n as [|p|p]; cbn [fst snd].
  - rewrite Z.max_id. cbn. rewrite Z.div_1_r. repeat split; auto; lia.
  - rewrite Z.max_l by lia. destruct (iter_shr_1_spec p r Hm) as [H1 H2].
    repeat split; auto; apply H2; assumption.
  - rewrite Z.max_r by lia. cbn. rewrite Z.div_1_r. repeat split; auto; lia.
Qed.

Lemma round_nearest_even_spec (r : shr_record) :
  shr_m r <= round_nearest_even (shr_m r) (loc_of_shr_record r) <= shr_m r + 1 /\
  (shr_r r = false -> shr_s r = false ->
   round_nearest_even (shr_m r) (loc_of_shr_record r) = shr_m r).
Proof.
  destruct r as [m [|] [|]]; cbn; try destruct (Z.even m); split; try lia;
    intros; try discriminate; reflexivity.
Qed.

(** What [binary_round_aux] returns on a positive integer with an exact
    location: the integer is shifted to the exponent of its binade, rounded,
    and shifted once more if the rounding carried. *)
Lemma binary_round_aux_spec (sx : bool) (M : positive) (E : Z) :
  let n := Z.max (fexp prec emax (Zpos (digits2_pos M) + E) - E) 0 in
  let e1 := E + n in
  exists m2,
    Zpos M / 2 ^ n <= m2 <= Zpos M / 2 ^ n + 1 /\
    (Zpos M mod 2 ^ n = 0 -> m2 = Zpos M / 2 ^ n) /\
    let n2 := Z.max (fexp prec emax (Zdigits2 m2 + e1) - e1) 0 in
    binary_round_aux prec emax sx (Zpos M) E loc_Exact =
    match m2 / 2 ^ n2 with
    | Z0 => S754_zero sx
    | Zpos m =>
        if e1 + n2 <=? emax - prec then S754_finite sx m (e1 + n2)
        else S754_infinity sx
    | Zneg _ => S754_nan
    end.
Proof.
  intros n e1. unfold binary_round_aux, shr_fexp.
  cbn [shr_record_of_loc Zdigits2].
  set (r0 := {| shr_m := Zpos M; shr_r := false; shr_s := false |}).
  assert (H0 : 0 <= shr_m r0) by (cbn; lia).
  destruct (shr_spec r0 E (fexp prec emax (Zpos (digits2_pos M) + E) - E) H0)
    as (He & Hm & Hf).
  fold n in He, Hm, Hf. fold e1 in He.
  destruct (shr r0 E (fexp prec emax (Zpos (digits2_pos M) + E) - E))
    as [r1 e1'] eqn:Hshr.
  cbn [fst snd] in He, Hm, Hf. subst e1'. cbn [shr_m r0] in Hm, Hf.
  destruct (round_nearest_even_spec r1) as [Hb Hx].
  set (m2 := round_nearest_even (shr_m r1) (loc_of_shr_record r1)) in *.
  exists m2. rewrite <- Hm. split; [exact Hb|]. split.
  { intros Hmod. destruct (Hf eq_refl eq_refl Hmod) as [Hr Hs]. auto. }
  cbv zeta.
  set (n2 := Z.max (fexp prec emax (Zdigits2 m2 + e1) - e1) 0).
  set (r2 := {| shr_m := m2; shr_r := false; shr_s := false |}).
  assert (H2 : 0 <= shr_m r2).
  { cbn. assert (0 <= shr_m r1); [|lia]. rewrite Hm. apply Z.div_pos; [lia|].
    apply Z.pow_pos_nonneg; lia. }
  destruct (shr_spec r2 e1 (fexp prec emax (Zdigits2 m2 + e1) - e1) H2)
    as (He2 & Hm2 & _).
  fold n2 in He2, Hm2.
  destruct (shr r2 e1 (fexp prec emax (Zdigits2 m2 + e1) - e1))
    as [r3 e3] eqn:Hshr2.
  cbn [fst snd] in He2, Hm2. subst e3. rewrite Hm2. reflexivity.
Qed.

(** [binary_round] first aligns the integer, so that nothing is shifted in
    from the left. *)
Lemma binary_round_spec (sx : bool) (M : positive) (E : Z) :
  let e1 := fexp prec emax (Zpos (digits2_pos M) + E) in
  let E' := Z.min E e1 in
  let M' := Zpos M * 2 ^ (E - E') in
  exists m2,
    M' / 2 ^ (e1 - E') <= m2 <= M' / 2 ^ (e1 - E') + 1 /\
    (M' mod 2 ^ (e1 - E') = 0 -> m2 = M' / 2 ^ (e1 - E')) /\
    let n2 := Z.max (fexp prec emax (Zdigits2 m2 + e1) - e1) 0 in
    binary_round prec emax sx M E =
    match m2 / 2 ^ n2 with
    | Z0 => S754_zero sx
    | Zpos m =>
        if e1 + n2 <=? emax - prec then S754_finite sx m (e1 + n2)
        else S754_infinity sx
    | Zneg _ => S754_nan
    end.
Proof.
  intros e1 E' M'. unfold binary_round. fold e1.
  pose proof (shl_align_spec M E e1) as Hal.
  destruct (shl_align M E e1) as [mz ez]. destruct Hal as [Hez Hmz].
  fold E' in Hez. subst ez. fold M' in Hmz.
  assert (Hdig : Zpos (digits2_pos mz) + E' = Zpos (digits2_pos M) + E).
  { assert (Zpos (digits2_pos mz) = Zpos (digits2_pos M) + (E - E')); [|lia].
    apply digits2_pos_unique. rewrite Hmz. unfold M'.
    pose proof (digits2_pos_spec M) as [Hlo Hhi].
    assert (HE : 0 <= E - E') by (unfold E'; lia).
    replace (Zpos (digits2_pos M) + (E - E') - 1)
      with (Zpos (digits2_pos M) - 1 + (E - E')) by lia.
    rewrite !Z.pow_add_r by lia.
    assert (0 < 2 ^ (E - E')) by (apply Z.pow_pos_nonneg; lia).
    split; [apply Z.mul_le_mono_nonneg_r; lia|apply Z.mul_lt_mono_pos_r; lia]. }
  destruct (binary_round_aux_spec sx mz E') as (m2 & Hb & Hx & Hres).
  rewrite Hdig in Hb, Hx, Hres. fold e1 in Hb, Hx, Hres.
  assert (Hn : Z.max (e1 - E') 0 = e1 - E') by (unfold E'; lia).
  rewrite Hn in Hb, Hx, Hres. rewrite Hmz in Hb, Hx.
  replace (E' + (e1 - E')) with e1 in Hres by lia.
  exists m2. split; [exact Hb|]. split; [exact Hx|]. exact Hres.
Qed.

Lemma bounded_spec (m : positive) (e : Z) :
  bounded prec emax m e = true ->
  fexp prec emax (Zpos (digits2_pos m) + e) = e /\ e <= 971.
Proof.
  unfold bounded, canonical_mantissa. intros H.
  apply andb_true_iff in H. destruct H as [H1 H2].
  apply Z.eqb_eq in H1. apply Z.leb_le in H2. split; [exact H1|exact H2].
Qed.

Lemma Zdigits2_pos (m : Z) :
  0 < m -> 2 ^ (Zdigits2 m - 1) <= m < 2 ^ Zdigits2 m.
Proof.
  destruct m as [|p|p]; try lia. intros _. apply digits2_pos_spec.
Qed.

Lemma pow2_pos (k : Z) : 0 <= k -> 0 < 2 ^ k.
Proof. intros. apply Z.pow_pos_nonneg; lia. Qed.

(** The binade of a smaller number is not higher. *)
Lemma digits_le (a b da db k : Z) :
  0 <= k -> 0 < a -> 0 < b -> 0 < da -> 0 < db ->
  2 ^ (da - 1) <= a -> b < 2 ^ db -> a * 2 ^ k <= b -> da + k <= db.
Proof.
  intros Hk Ha Hb Hda Hdb Hlo Hhi Hle.
  assert (H : 2 ^ (da - 1 + k) < 2 ^ db).
  { rewrite Z.pow_add_r by lia. pose proof (pow2_pos k Hk).
    assert (2 ^ (da - 1) * 2 ^ k <= a * 2 ^ k)
      by (apply Z.mul_le_mono_nonneg_r; lia).
    lia. }
  apply Z.pow_lt_mono_r_iff in H; lia.
Qed.

Lemma digits_le' (a b da db k : Z) :
  0 <= k -> 0 < a -> 0 < b -> 0 < da -> 0 < db ->
  2 ^ (da - 1) <= a -> b < 2 ^ db -> a <= b * 2 ^ k -> da <= db + k.
Proof.
  intros Hk Ha Hb Hda Hdb Hlo Hhi Hle.
  assert (H : 2 ^ (da - 1) < 2 ^ (db + k)).
  { rewrite Z.pow_add_r by lia. pose proof (pow2_pos k Hk).
    assert (b * 2 ^ k < 2 ^ db * 2 ^ k)
      by (apply Z.mul_lt_mono_pos_r; lia).
    lia. }
  apply Z.pow_lt_mono_r_iff in H; lia.
Qed.

(** The second shift of [binary_round_aux] leaves a positive integer
    positive. *)
Lemma second_shift_positive (m2 e1 : Z) :
  0 < m2 -> -1074 <= e1 ->
  let n2 := Z.max (fexp prec emax (Zdigits2 m2 + e1) - e1) 0 in
  0 < m2 / 2 ^ n2.
Proof.
  intros Hm He n2. pose proof (Zdigits2_pos m2 Hm) as [Hlo Hhi].
  assert (Hd : 0 < Zdigits2 m2) by (destruct m2; cbn; lia).
  assert (Hn2 : 0 <= n2 <= Zdigits2 m2 - 1).
  { unfold n2. rewrite fexp_binary64. lia. }
  assert (H : 2 ^ n2 <= m2).
  { apply Z.le_trans with (2 ^ (Zdigits2 m2 - 1)); [|exact Hlo].
    apply Z.pow_le_mono_r; lia. }
  apply Z.div_str_pos. split; [apply pow2_pos; lia|exact H].
Qed.

(** Rounding does not fall below a binary64 number that the exact value
    reaches. *)
Lemma binary_round_lower (sx : bool) (M : positive) (E : Z)
    (mc : positive) (ec : Z) :
  bounded prec emax mc ec = true ->
  E <= ec -> Zpos mc * 2 ^ (ec - E) <= Zpos M ->
  match binary_round prec emax sx M E with
  | S754_finite s m e => s = sx /\ (ec < e \/ (e = ec /\ (mc <= m)%positive))
  | S754_infinity s => s = sx
  | _ => False
  end.
Proof.
  intros Hc HE Hle. apply bounded_spec in Hc. destruct Hc as [Hcan Hmax].
  destruct (binary_round_spec sx M E) as (m2 & Hb & _ & Hres).
  cbv zeta in Hres. rewrite Hres. clear Hres.
  set (e1 := fexp prec emax (Zpos (digits2_pos M) + E)) in *.
  set (E' := Z.min E e1) in *.
  set (M' := Zpos M * 2 ^ (E - E')) in *.
  pose proof (digits2_pos_spec M) as [HMlo HMhi].
  pose proof (digits2_pos_spec mc) as [Hclo Hchi].
  assert (HD : Zpos (digits2_pos mc) + ec <= Zpos (digits2_pos M) + E).
  { assert (Zpos (digits2_pos mc) + (ec - E) <= Zpos (digits2_pos M)); [|lia].
    apply (digits_le (Zpos mc) (Zpos M)); lia. }
  assert (He1 : ec <= e1).
  { unfold e1. rewrite <- Hcan. rewrite !fexp_binary64. lia. }
  assert (Hemin : -1074 <= ec) by (rewrite <- Hcan, fexp_binary64; lia).
  assert (HE' : E' <= E /\ E' <= e1) by (unfold E'; lia).
  assert (HM' : Zpos mc * 2 ^ (ec - E') <= M').
  { unfold M'. replace (ec - E') with (ec - E + (E - E')) by lia.
    rewrite Z.pow_add_r by lia. rewrite Z.mul_assoc.
    apply Z.mul_le_mono_nonneg_r; [|exact Hle].
    pose proof (pow2_pos (E - E')). lia. }
  assert (Hp : 0 < 2 ^ (e1 - E')) by (apply pow2_pos; lia).
  assert (Hm1 : (ec = e1 -> Zpos mc <= M' / 2 ^ (e1 - E')) /\
                0 < M' / 2 ^ (e1 - E')).
  { destruct (Z.eq_dec ec e1) as [Heq|Hne].
    - assert (Zpos mc <= M' / 2 ^ (e1 - E')).
      { apply Z.div_le_lower_bound; [exact Hp|]. rewrite Z.mul_comm.
        rewrite <- Heq. exact HM'. }
      split; [intros _; assumption|lia].
    - split; [intros; contradiction|].
      assert (HdM' : 2 ^ (Zpos (digits2_pos M) + (E - E') - 1) <= M').
      { unfold M'.
        replace (Zpos (digits2_pos M) + (E - E') - 1)
          with (Zpos (digits2_pos M) - 1 + (E - E')) by lia.
        rewrite Z.pow_add_r by lia.
        apply Z.mul_le_mono_nonneg_r; [|exact HMlo].
        pose proof (pow2_pos (E - E')). lia. }
      assert (He1' : e1 = Zpos (digits2_pos M) + E - 53).
      { unfold e1 in *. rewrite fexp_binary64 in *. lia. }
      apply Z.div_str_pos. split; [exact Hp|].
      apply Z.le_trans with (2 ^ (Zpos (digits2_pos M) + (E - E') - 1));
        [|exact HdM'].
      apply Z.pow_le_mono_r; lia. }
  destruct Hm1 as [Hm1eq Hm1pos].
  assert (Hm2 : 0 < m2) by lia.
  assert (He1min : -1074 <= e1) by lia.
  pose proof (second_shift_positive m2 e1 Hm2 He1min) as Hm3. cbv zeta in Hm3.
  set (n2 := Z.max (fexp prec emax (Zdigits2 m2 + e1) - e1) 0) in *.
  assert (Hn2 : 0 <= n2) by (unfold n2; lia).
  destruct (m2 / 2 ^ n2) as [|m3|m3] eqn:Hm3eq; try lia.
  destruct (e1 + n2 <=? emax - prec); [|reflexivity].
  split; [reflexivity|].
  destruct (Z.eq_dec (e1 + n2) ec) as [Heq|Hne]; [|left; lia].
  right. split; [exact Heq|].
  assert (n2 = 0) by lia. assert (ec = e1) by lia.
  replace n2 with 0 in Hm3eq by lia. cbn in Hm3eq. rewrite Z.div_1_r in Hm3eq.
  specialize (Hm1eq H0). lia.
Qed.

(** Rounding does not rise above a binary64 number that bounds the exact
    value. *)
Lemma binary_round_upper (sx : bool) (M : positive) (E : Z)
    (mc : positive) (ec : Z) :
  bounded prec emax mc ec = true ->
  E <= ec -> Zpos M <= Zpos mc * 2 ^ (ec - E) ->
  match binary_round prec emax sx M E with
  | S754_finite s m e => s = sx /\ (e < ec \/ (e = ec /\ (m <= mc)%positive))
  | S754_zero s => s = sx
  | _ => False
  end.
Proof.
  intros Hc HE Hle. apply bounded_spec in Hc. destruct Hc as [Hcan Hmax].
  destruct (binary_round_spec sx M E) as (m2 & Hb & Hx & Hres).
  cbv zeta in Hres. rewrite Hres. clear Hres.
  set (e1 := fexp prec emax (Zpos (digits2_pos M) + E)) in *.
  set (E' := Z.min E e1) in *.
  set (M' := Zpos M * 2 ^ (E - E')) in *.
  pose proof (digits2_pos_spec M) as [HMlo HMhi].
  pose proof (digits2_pos_spec mc) as [Hclo Hchi].
  assert (HD : Zpos (digits2_pos M) + E <= Zpos (digits2_pos mc) + ec).
  { assert (Zpos (digits2_pos M) <= Zpos (digits2_pos mc) + (ec - E)); [|lia].
    apply (digits_le' (Zpos M) (Zpos mc)); lia. }
  assert (He1 : e1 <= ec).
  { unfold e1. rewrite <- Hcan. rewrite !fexp_binary64. lia. }
  assert (Hemin : -1074 <= e1) by (unfold e1; rewrite fexp_binary64; lia).
  assert (HE' : E' <= E /\ E' <= e1) by (unfold E'; lia).
  set (K := Zpos mc * 2 ^ (ec - e1)).
  assert (Hp : 0 < 2 ^ (e1 - E')) by (apply pow2_pos; lia).
  assert (Hq : 0 < 2 ^ (ec - e1)) by (apply pow2_pos; lia).
  assert (HM' : M' <= K * 2 ^ (e1 - E')).
  { unfold M', K. rewrite <- Z.mul_assoc, <- Z.pow_add_r by lia.
    replace (ec - e1 + (e1 - E')) with (ec - E + (E - E')) by lia.
    rewrite Z.pow_add_r by lia. rewrite Z.mul_assoc.
    apply Z.mul_le_mono_nonneg_r; [|exact Hle].
    pose proof (pow2_pos (E - E')). lia. }
  assert (HM'pos : 0 < M').
  { unfold M'. pose proof (pow2_pos (E - E')). nia. }
  assert (Hm1 : M' / 2 ^ (e1 - E') <= K).
  { apply Z.div_le_upper_bound; [exact Hp|]. rewrite Z.mul_comm. exact HM'. }
  assert (Hm1pos : 0 <= M' / 2 ^ (e1 - E')) by (apply Z.div_pos; lia).
  assert (Hm2 : 0 <= m2 <= K).
  { split; [lia|].
    destruct (Z.eq_dec (M' / 2 ^ (e1 - E')) K) as [Heq|Hne]; [|lia].
    assert (Hmod : M' mod 2 ^ (e1 - E') = 0).
    { pose proof (Z.div_mod M' (2 ^ (e1 - E'))) as Hdm.
      pose proof (Z.mod_pos_bound M' (2 ^ (e1 - E')) Hp) as Hmb.
      rewrite Heq in Hdm. nia. }
    rewrite (Hx Hmod). lia. }
  set (n2 := Z.max (fexp prec emax (Zdigits2 m2 + e1) - e1) 0) in *.
  assert (Hn2 : 0 <= n2) by (unfold n2; lia).
  assert (Hm3 : 0 <= m2 / 2 ^ n2).
  { apply Z.div_pos; [lia|apply pow2_pos; exact Hn2]. }
  destruct (m2 / 2 ^ n2) as [|m3|m3] eqn:Hm3eq; try lia; [reflexivity|].
  assert (Hm2pos : 0 < m2).
  { destruct (Z.eq_dec m2 0) as [->|]; [|lia]. rewrite Z.div_0_l in Hm3eq;
      [discriminate|]. pose proof (pow2_pos n2 Hn2). lia. }
  pose proof (Zdigits2_pos m2 Hm2pos) as [H2lo H2hi].
  assert (Hd2 : 0 < Zdigits2 m2) by (destruct m2; cbn; lia).
  assert (HD2 : Zdigits2 m2 + e1 <= Zpos (digits2_pos mc) + ec).
  { assert (Zdigits2 m2 <= Zpos (digits2_pos mc) + (ec - e1)); [|lia].
    apply (digits_le' m2 (Zpos mc)); try lia. }
  assert (He3 : e1 + n2 <= ec).
  { assert (fexp prec emax (Zdigits2 m2 + e1) <= ec)
      by (rewrite <- Hcan, !fexp_binary64; lia).
    unfold n2. lia. }
  replace (e1 + n2 <=? emax - prec) with true
    by (symmetry; apply Z.leb_le; change (emax - prec) with 971; lia).
  split; [reflexivity|].
  destruct (Z.eq_dec (e1 + n2) ec) as [Heq|Hne]; [|left; lia].
  right. split; [exact Heq|].
  assert (Zpos m3 <= Zpos mc); [|lia].
  rewrite <- Hm3eq. replace n2 with (ec - e1) by lia.
  apply Z.div_le_upper_bound; [exact Hq|]. 
  unfold K in Hm2. lia.
Qed.

(** A rounded positive integer is a zero, a finite number or an infinity of
    the sign asked for. *)
Lemma binary_round_aux_sign (sx : bool) (M : positive) (E : Z) :
  match binary_round_aux prec emax sx (Zpos M) E loc_Exact with
  | S754_finite s _ _ | S754_zero s | S754_infinity s => s = sx
  | S754_nan => False
  end.
Proof.
  destruct (binary_round_aux_spec sx M E) as (m2 & Hb & _ & Hres).
  cbv zeta in Hres. rewrite Hres. clear Hres.
  set (n := Z.max (fexp prec emax (Zpos (digits2_pos M) + E) - E) 0) in *.
  set (e1 := E + n) in *.
  set (n2 := Z.max (fexp prec emax (Zdigits2 m2 + e1) - e1) 0).
  assert (0 <= Zpos M / 2 ^ n).
  { apply Z.div_pos; [lia|apply pow2_pos; unfold n; lia]. }
  assert (Hm3 : 0 <= m2 / 2 ^ n2).
  { apply Z.div_pos; [lia|apply pow2_pos; unfold n2; lia]. }
  destruct (m2 / 2 ^ n2); try lia; [reflexivity|].
  destruct (e1 + n2 <=? emax - prec); reflexivity.
Qed.

Lemma binary_round_sign (sx : bool) (M : positive) (E : Z) :
  match binary_round prec emax sx M E with
  | S754_finite s _ _ | S754_zero s | S754_infinity s => s = sx
  | S754_nan => False
  end.
Proof.
  unfold binary_round.
  destruct (shl_align M E (fexp prec emax (Zpos (digits2_pos M) + E)))
    as [mz ez].
  apply binary_round_aux_sign.
Qed.

(** *** Sums and differences against one operand *)

(** Zero or above: a zero, a positive number or plus infinity. *)
Lemma SFnonneg_cases (x : spec_float) :
  SFleb (S754_zero false) x = true ->
  (exists s, x = S754_zero s) \/ (exists m e, x = S754_finite false m e)
  \/ x = S754_infinity false.
Proof.
  destruct x as [s|[|]| |[|] m e]; cbn; try discriminate; eauto.
Qed.

Lemma shl_align_fst (m : positive) (e ez : Z) :
  ez <= e -> Zpos (fst (shl_align m e ez)) = Zpos m * 2 ^ (e - ez).
Proof.
  intros H. pose proof (shl_align_spec m e ez) as Hs.
  destruct (shl_align m e ez) as [m' e']. destruct Hs as [-> Hm].
  cbn [fst]. rewrite Hm. rewrite Z.min_r by lia. reflexivity.
Qed.

Lemma SFleb_finite_pos (m1 m2 : positive) (e1 e2 : Z) :
  e1 < e2 \/ (e2 = e1 /\ (m1 <= m2)%positive) ->
  SFleb (S754_finite false m1 e1) (S754_finite false m2 e2) = true.
Proof.
  unfold SFleb, SFcompare.
  change (PosDef.Pos.compare_cont Eq m1 m2) with (Pos.compare m1 m2).
  destruct (Z.compare_spec e1 e2); destruct (Pos.compare_spec m1 m2);
    intros [|[]]; try reflexivity; lia.
Qed.

Lemma SFleb_finite_neg (m1 m2 : positive) (e1 e2 : Z) :
  e2 < e1 \/ (e2 = e1 /\ (m2 <= m1)%positive) ->
  SFleb (S754_finite true m1 e1) (S754_finite true m2 e2) = true.
Proof.
  unfold SFleb, SFcompare.
  change (PosDef.Pos.compare_cont Eq m1 m2) with (Pos.compare m1 m2).
  destruct (Z.compare_spec e1 e2); destruct (Pos.compare_spec m1 m2);
    intros [|[]]; try reflexivity; lia.
Qed.

(** The sum of a binary64 number and a number that is zero or above is not
    below the former. *)
Lemma SFadd_ge (a x : spec_float) :
  valid_binary a = true ->
  match a with S754_zero _ | S754_finite _ _ _ => True | _ => False end ->
  SFleb (S754_zero false) x = true ->
  SFleb a (SF64add a x) = true.
Proof.
  intros Hva Ha Hx.
  destruct (SFnonneg_cases x Hx) as [[s ->]|[(mx & ex & ->)| ->]].
  - destruct a as [sa|sa| |sa ma ea]; try contradiction.
    + destruct sa, s; reflexivity.
    + change (SF64add (S754_finite sa ma ea) (S754_zero s))
        with (S754_finite sa ma ea).
      unfold SFleb. rewrite SFcompare_refl_finite. reflexivity.
  - destruct a as [sa|sa| |sa ma ea]; try contradiction; [reflexivity|].
    unfold SF64add, SFadd.
    set (ez := Z.min ea ex).
    pose proof (shl_align_fst ma ea ez ltac:(unfold ez; lia)) as HA.
    pose proof (shl_align_fst mx ex ez ltac:(unfold ez; lia)) as HX.
    set (A := fst (shl_align ma ea ez)) in *.
    set (X := fst (shl_align mx ex ez)) in *.
    cbn [valid_binary] in Hva.
    destruct sa; cbn [cond_Zopp].
    + destruct (- Zpos A + Zpos X) as [|p|p] eqn:HM; cbn [binary_normalize].
      * reflexivity.
      * pose proof (binary_round_sign false p ez) as Hs.
        destruct (binary_round prec emax false p ez) as [s|s| |s m e];
          try contradiction; subst s; reflexivity.
      * pose proof (binary_round_upper true p ez ma ea Hva
                      ltac:(unfold ez; lia) ltac:(lia)) as Hu.
        destruct (binary_round prec emax true p ez) as [s|s| |s m e];
          try contradiction.
        -- subst s. reflexivity.
        -- destruct Hu as [-> Hu]. apply SFleb_finite_neg. exact Hu.
    + change (Zpos A + Zpos X) with (Zpos (A + X)). cbn [binary_normalize].
      pose proof (binary_round_lower false (A + X) ez ma ea Hva
                    ltac:(unfold ez; lia) ltac:(lia)) as Hl.
      destruct (binary_round prec emax false (A + X) ez) as [s|s| |s m e];
        try contradiction.
      * subst s. reflexivity.
      * destruct Hl as [-> Hl]. apply SFleb_finite_pos.
        destruct Hl as [|[]]; [left|right]; auto.
  - destruct a as [sa|sa| |sa ma ea]; try contradiction.
    + reflexivity.
    + destruct sa; reflexivity.
Qed.

(** Taking a number that is zero or above from a binary64 number gives
    nothing above the latter. *)
Lemma SFsub_le (b x : spec_float) :
  valid_binary b = true ->
  match b with S754_zero _ | S754_finite _ _ _ => True | _ => False end ->
  SFleb (S754_zero false) x = true ->
  SFleb (SF64sub b x) b = true.
Proof.
  intros Hvb Hb Hx.
  destruct (SFnonneg_cases x Hx) as [[s ->]|[(mx & ex & ->)| ->]].
  - destruct b as [sb|sb| |sb mb eb]; try contradiction.
    + destruct sb, s; reflexivity.
    + change (SF64sub (S754_finite sb mb eb) (S754_zero s))
        with (S754_finite sb mb eb).
      unfold SFleb. rewrite SFcompare_refl_finite. reflexivity.
  - destruct b as [sb|sb| |sb mb eb]; try contradiction; [reflexivity|].
    unfold SF64sub, SFsub.
    set (ez := Z.min eb ex).
    pose proof (shl_align_fst mb eb ez ltac:(unfold ez; lia)) as HB.
    pose proof (shl_align_fst mx ex ez ltac:(unfold ez; lia)) as HX.
    set (B := fst (shl_align mb eb ez)) in *.
    set (X := fst (shl_align mx ex ez)) in *.
    cbn [valid_binary] in Hvb.
    destruct sb; cbn [cond_Zopp].
    + change (- Zpos B - Zpos X) with (Zneg (B + X)). cbn [binary_normalize].
      pose proof (binary_round_lower true (B + X) ez mb eb Hvb
                    ltac:(unfold ez; lia) ltac:(lia)) as Hl.
      destruct (binary_round prec emax true (B + X) ez) as [s|s| |s m e];
        try contradiction.
      * subst s. reflexivity.
      * destruct Hl as [-> Hl]. apply SFleb_finite_neg.
        destruct Hl as [|[]]; [left|right]; auto.
    + destruct (Zpos B - Zpos X) as [|p|p] eqn:HM; cbn [binary_normalize].
      * reflexivity.
      * pose proof (binary_round_upper false p ez mb eb Hvb
                      ltac:(unfold ez; lia) ltac:(lia)) as Hu.
        destruct (binary_round prec emax false p ez) as [s|s| |s m e];
          try contradiction.
        -- subst s. reflexivity.
        -- destruct Hu as [-> Hu]. apply SFleb_finite_pos.
           destruct Hu as [|[]]; [left|right]; auto.
      * pose proof (binary_round_sign true p ez) as Hs.
        destruct (binary_round prec emax true p ez) as [s|s| |s m e];
          try contradiction; subst s; reflexivity.
  - destruct b as [sb|sb| |sb mb eb]; try contradiction.
    + reflexivity.
    + destruct sb; reflexivity.
Qed.

(** The order of two positive binary64 numbers, read off their mantissas
    once aligned. *)
Lemma canonical_le (ma mb : positive) (ea eb : Z) :
  bounded prec emax ma ea = true -> bounded prec emax mb eb = true ->
  ea < eb \/ (ea = eb /\ (ma <= mb)%positive) ->
  Zpos ma * 2 ^ (ea - Z.min ea eb) <= Zpos mb * 2 ^ (eb - Z.min ea eb).
Proof.
  intros Ha Hb Hle. apply bounded_spec in Ha, Hb.
  destruct Ha as [Ha _], Hb as [Hb _]. rewrite fexp_binary64 in Ha, Hb.
  destruct Hle as [Hlt|[-> Hm]].
  - rewrite Z.min_l by lia. rewrite Z.sub_diag, Z.mul_1_r.
    pose proof (digits2_pos_spec ma) as [_ Hahi].
    pose proof (digits2_pos_spec mb) as [Hblo _].
    assert (Hda : Zpos (digits2_pos ma) <= 53) by lia.
    assert (Hdb : Zpos (digits2_pos mb) = 53) by lia.
    rewrite Hdb in Hblo. change (2 ^ (53 - 1)) with 4503599627370496 in Hblo.
    assert (Zpos ma < 2 ^ 53).
    { apply Z.lt_le_trans with (2 ^ Zpos (digits2_pos ma)); [exact Hahi|].
      apply Z.pow_le_mono_r; lia. }
    change (2 ^ 53) with 9007199254740992 in H.
    assert (2 ^ 1 <= 2 ^ (eb - ea)) by (apply Z.pow_le_mono_r; lia).
    change (2 ^ 1) with 2 in H0. nia.
  - rewrite Z.min_id, Z.sub_diag, !Z.mul_1_r. lia.
Qed.

Lemma SFleb_finite_pos_inv (m1 m2 : positive) (e1 e2 : Z) :
  SFleb (S754_finite false m1 e1) (S754_finite false m2 e2) = true ->
  e1 < e2 \/ (e1 = e2 /\ (m1 <= m2)%positive).
Proof.
  unfold SFleb, SFcompare.
  change (PosDef.Pos.compare_cont Eq m1 m2) with (Pos.compare m1 m2).
  destruct (Z.compare_spec e1 e2); destruct (Pos.compare_spec m1 m2);
    intros; try discriminate; lia.
Qed.

Lemma SFleb_finite_neg_inv (m1 m2 : positive) (e1 e2 : Z) :
  SFleb (S754_finite true m1 e1) (S754_finite true m2 e2) = true ->
  e2 < e1 \/ (e2 = e1 /\ (m2 <= m1)%positive).
Proof.
  unfold SFleb, SFcompare.
  change (PosDef.Pos.compare_cont Eq m1 m2) with (Pos.compare m1 m2).
  destruct (Z.compare_spec e1 e2); destruct (Pos.compare_spec m1 m2);
    intros; try discriminate; lia.
Qed.

Lemma binary_normalize_nonneg (M ez : Z) :
  0 <= M -> SFleb (S754_zero false) (binary_normalize prec emax M ez false) = true.
Proof.
  intros HM. destruct M as [|p|p]; try lia; cbn [binary_normalize].
  - reflexivity.
  - pose proof (binary_round_sign false p ez) as Hs.
    destruct (binary_round prec emax false p ez) as [s|s| |s m e];
      try contradiction; subst s; reflexivity.
Qed.

(** The difference of two binary64 numbers in order is zero or above. *)
Lemma SFsub_nonneg (a b : spec_float) :
  valid_binary a = true -> valid_binary b = true ->
  match a with S754_zero _ | S754_finite _ _ _ => True | _ => False end ->
  match b with S754_zero _ | S754_finite _ _ _ => True | _ => False end ->
  SFleb a b = true ->
  SFleb (S754_zero false) (SF64sub b a) = true.
Proof.
  intros Hva Hvb Ha Hb Hle.
  destruct a as [sa|sa| |sa ma ea]; try contradiction;
    destruct b as [sb|sb| |sb mb eb]; try contradiction.
  - destruct sa, sb; reflexivity.
  - destruct sb; [discriminate|reflexivity].
  - destruct sa; [reflexivity|discriminate].
  - unfold SF64sub, SFsub.
    set (ez := Z.min eb ea).
    pose proof (shl_align_fst mb eb ez ltac:(unfold ez; lia)) as HB.
    pose proof (shl_align_fst ma ea ez ltac:(unfold ez; lia)) as HA.
    set (B := fst (shl_align mb eb ez)) in *.
    set (A := fst (shl_align ma ea ez)) in *.
    cbn [valid_binary] in Hva, Hvb.
    apply binary_normalize_nonneg.
    destruct sa, sb; cbn [cond_Zopp]; try discriminate; try lia.
    + apply SFleb_finite_neg_inv in Hle.
      pose proof (canonical_le mb ma eb ea Hvb Hva) as Hc.
      fold ez in Hc. rewrite HA, HB.
      assert (eb < ea \/ eb = ea /\ (mb <= ma)%positive) by lia.
      specialize (Hc H). lia.
    + apply SFleb_finite_pos_inv in Hle.
      pose proof (canonical_le ma mb ea eb Hva Hvb Hle) as Hc.
      rewrite (Z.min_comm ea eb) in Hc. fold ez in Hc. rewrite HA, HB. lia.
Qed.

(** The product of a number that is zero or above and a positive binary64
    number is zero or above. *)
Lemma SFmul_nonneg (x t : spec_float) :
  SFleb (S754_zero false) x = true ->
  (exists m e, t = S754_finite false m e) ->
  SFleb (S754_zero false) (SF64mul x t) = true.
Proof.
  intros Hx (mt & et & ->).
  destruct (SFnonneg_cases x Hx) as [[s ->]|[(mx & ex & ->)| ->]].
  - destruct s; reflexivity.
  - unfold SF64mul, SFmul. cbn [xorb].
    pose proof (binary_round_aux_sign false (mx * mt) (ex + et)) as Hs.
    destruct (binary_round_aux prec emax false (Zpos (mx * mt)) (ex + et)
                loc_Exact) as [s|s| |s m e];
      try contradiction; subst s; reflexivity.
  - reflexivity.
Qed.

(** *** The same, on the primitive floats *)

Lemma float_finite_cases (x : float) :
  PrimFloat.is_finite x = true ->
  valid_binary (Prim2SF x) = true /\
  match Prim2SF x with S754_zero _ | S754_finite _ _ _ => True | _ => False end.
Proof.
  intros H. split; [apply Prim2SF_valid|].
  unfold is_finite, is_nan, is_infinity in H.
  rewrite !eqb_spec, abs_spec in H.
  destruct (Prim2SF x) as [s|s| |s m e]; try exact I.
  - destruct s; discriminate.
  - discriminate.
Qed.

Lemma float_sub_nonneg (a b : float) :
  PrimFloat.is_finite a = true -> PrimFloat.is_finite b = true ->
  PrimFloat.leb a b = true -> PrimFloat.leb 0 (b - a) = true.
Proof.
  intros Ha Hb. rewrite !leb_spec, sub_spec.
  destruct (float_finite_cases a Ha), (float_finite_cases b Hb).
  apply SFsub_nonneg; assumption.
Qed.

Lemma float_mul_nonneg (x t : float) :
  PrimFloat.leb 0 x = true ->
  PrimFloat.is_finite t = true -> PrimFloat.ltb 0 t = true ->
  PrimFloat.leb 0 (x * t) = true.
Proof.
  intros Hx Ht Hpos. rewrite leb_spec in *. rewrite mul_spec.
  rewrite ltb_spec in Hpos. destruct (float_finite_cases t Ht) as [_ Hfin].
  apply SFmul_nonneg; [exact Hx|].
  destruct (Prim2SF t) as [s|s| |s m e]; try contradiction.
  - discriminate.
  - destruct s; [discriminate|]. eauto.
Qed.

Lemma float_add_ge (a x : float) :
  PrimFloat.is_finite a = true -> PrimFloat.leb 0 x = true ->
  PrimFloat.leb a (a + x) = true.
Proof.
  intros Ha Hx. rewrite leb_spec in *. rewrite add_spec.
  destruct (float_finite_cases a Ha). apply SFadd_ge; assumption.
Qed.

Lemma float_sub_le (b x : float) :
  PrimFloat.is_finite b = true -> PrimFloat.leb 0 x = true ->
  PrimFloat.leb (b - x) b = true.
Proof.
  intros Hb Hx. rewrite leb_spec in *. rewrite sub_spec.
  destruct (float_finite_cases b Hb). apply SFsub_le; assumption.
Qed.

End Rounding.

(** ** find_best_model *)

Section OrderSelectionFacts.

Variable arch_fit : Z -> Z -> result (@ModelFit float).

Lemma select_snoc (done : list (Z * Z)) (pq : Z * Z)
    (best : float * option (Z * Z)) :
  select arch_fit (done ++ [pq]) best
  = try_order arch_fit (fst pq) (snd pq) (select arch_fit done best).
Proof.
  unfold select. rewrite fold_left_app. reflexivity.
Qed.

Lemma select_invariant (candidates : list (Z * Z)) :
  selection_invariant arch_fit candidates
    (select arch_fit candidates (PrimFloat.infinity, None)).
Proof.
  induction candidates as [|[p q] done IH] using rev_ind.
  - split; simpl; [intros ? ? ? []|reflexivity].
  - rewrite select_snoc. cbn [fst snd].
    destruct (select arch_fit done (PrimFloat.infinity, None)) as [b o].
    destruct IH as [Hmin Hbest]. cbn [fst snd] in Hmin, Hbest.
    unfold try_order. cbn [fst].
    destruct (arch_fit p q) as [r|e] eqn:Hfit.
    + destruct (PrimFloat.ltb (aic r) b) eqn:Hlt.
      * (* the candidate becomes the best *)
        split; cbn [fst snd].
        -- intros p' q' r' Hin Hfit'. apply in_app_or in Hin.
           destruct Hin as [Hin|[Heq|[]]].
           ++ destruct (PrimFloat.ltb (aic r') (aic r)) eqn:Hlt'; [|reflexivity].
              rewrite <- (Hmin p' q' r' Hin Hfit').
              symmetry. eapply ltb_trans; eassumption.
           ++ injection Heq as <- <-.
              assert (r' = r) by congruence. subst r'. apply ltb_irrefl.
        -- exists done, [], r. repeat split; auto.
           ++ destruct o as [[p0 q0]|].
              ** destruct Hbest as (bf & af & r0 & _ & _ & Hb & Hinf & _).
                 subst b. eapply ltb_trans; eassumption.
              ** subst b. assumption.
           ++ intros p' q' r' Hin Hfit'.
              destruct (PrimFloat.leb (aic r') (aic r)) eqn:Hle; [|reflexivity].
              rewrite <- (Hmin p' q' r' Hin Hfit').
              symmetry. eapply leb_ltb_trans; eassumption.
      * (* the candidate is not better *)
        split; cbn [fst snd].
        -- intros p' q' r' Hin Hfit'. apply in_app_or in Hin.
           destruct Hin as [Hin|[Heq|[]]]; [eauto|].
           injection Heq as <- <-. assert (r' = r) by congruence.
           subst r'. assumption.
        -- destruct o as [[p0 q0]|]; [|assumption].
           destruct Hbest as (bf & af & r0 & Hdone & Hfit0 & Hb & Hinf & Hbf).
           exists bf, (af ++ [(p, q)]), r0. repeat split; auto.
           rewrite Hdone, <- app_assoc. reflexivity.
    + (* the fit raised: the candidate is skipped *)
      split; cbn [fst snd].
      -- intros p' q' r' Hin Hfit'. apply in_app_or in Hin.
         destruct Hin as [Hin|[Heq|[]]]; [eauto|].
         injection Heq as <- <-. congruence.
      -- destruct o as [[p0 q0]|]; [|assumption].
         destruct Hbest as (bf & af & r0 & Hdone & Hfit0 & Hb & Hinf & Hbf).
         exists bf, (af ++ [(p, q)]), r0. repeat split; auto.
         rewrite Hdone, <- app_assoc. reflexivity.
Qed.

Lemma find_best_model_grid :
  find_best_model arch_fit
  = snd (select arch_fit grid (PrimFloat.infinity, None)).
Proof. reflexivity. Qed.

Lemma grid_order : grid = [(1, 1); (1, 2); (2, 1); (2, 2)]%Z.
Proof. reflexivity. Qed.

End OrderSelectionFacts.

(** ** Percentiles over the reals *)

Section RealPercentile.

Local Open Scope R_scope.

Lemma Rleb_true (x y : R) : Rleb x y = true <-> x <= y.
Proof. unfold Rleb. destruct (Rle_dec x y); split; try discriminate; auto. Qed.

Lemma Rleb_false (x y : R) : Rleb x y = false <-> y < x.
Proof.
  unfold Rleb. destruct (Rle_dec x y); split; try discriminate; auto; lra.
Qed.

Lemma length_insert_sorted (x : R) (l : list R) :
  List.length (@insert_sorted R real x l) = S (List.length l).
Proof.
  induction l as [|y l IH]; simpl; auto.
  destruct (Rleb x y); simpl; auto.
Qed.

Lemma length_np_sort (a : list R) :
  List.length (@np_sort R real a) = List.length a.
Proof.
  induction a as [|x a IH]; simpl; auto.
  rewrite length_insert_sorted. f_equal. exact IH.
Qed.

Lemma insert_sorted_In (x y : R) (l : list R) :
  In y (@insert_sorted R real x l) -> y = x \/ In y l.
Proof.
  induction l as [|z l IH]; simpl.
  - intros [<-|[]]; auto.
  - destruct (Rleb x z); simpl.
    + intros [<-|[<-|H]]; auto.
    + intros [<-|H]; auto. destruct (IH H); auto.
Qed.

Lemma insert_sorted_sorted (x : R) (l : list R) :
  StronglySorted Rle l -> StronglySorted Rle (@insert_sorted R real x l).
Proof.
  induction 1 as [|y l Hl IH Hy]; simpl.
  - constructor; constructor.
  - destruct (Rleb x y) eqn:Hxy.
    + apply Rleb_true in Hxy. constructor.
      * constructor; assumption.
      * constructor; [assumption|].
        rewrite Forall_forall in Hy |- *. intros z Hz.
        specialize (Hy z Hz). lra.
    + apply Rleb_false in Hxy. constructor; [assumption|].
      apply Forall_forall. intros z Hz.
      apply insert_sorted_In in Hz. destruct Hz as [->|Hz]; [lra|].
      rewrite Forall_forall in Hy. auto.
Qed.

Lemma np_sort_sorted (a : list R) : StronglySorted Rle (@np_sort R real a).
Proof.
  induction a as [|x a IH]; simpl.
  - constructor.
  - apply insert_sorted_sorted. exact IH.
Qed.

Lemma sorted_nth (l : list R) (d : R) (i j : nat) :
  StronglySorted Rle l -> (i <= j < List.length l)%nat ->
  nth i l d <= nth j l d.
Proof.
  intros Hl. revert i j. induction Hl as [|x l Hl IH Hx]; intros i j Hij.
  - simpl in Hij. lia.
  - destruct i as [|i], j as [|j]; simpl in *; try lia.
    + lra.
    + rewrite Forall_forall in Hx. apply Hx. apply nth_In. lia.
    + apply IH. lia.
Qed.

Lemma Int_part_le (x y : R) : x <= y -> (Int_part x <= Int_part y)%Z.
Proof.
  intros Hxy.
  destruct (base_Int_part x) as [Hx _], (base_Int_part y) as [_ Hy].
  assert (H : IZR (Int_part x) < IZR (Int_part y + 1)).
  { rewrite plus_IZR. lra. }
  apply lt_IZR in H. lia.
Qed.

Lemma Int_part_bounds (x : R) (n : Z) :
  0 <= x <= IZR n -> (0 <= Int_part x <= n)%Z.
Proof.
  intros [H0 Hn].
  destruct (base_Int_part x) as [Hlo Hhi]. split.
  - assert (H : IZR (-1) < IZR (Int_part x)) by lra.
    apply lt_IZR in H. lia.
  - apply le_IZR. lra.
Qed.

Lemma Int_part_eq (r : R) (z : Z) : IZR z <= r < IZR z + 1 -> Int_part r = z.
Proof.
  intros [Hlo Hhi]. symmetry. apply Int_part_spec. lra.
Qed.

(** Over the reals both forms of [lerp] are the weighted mean. *)
Lemma lerp_real (a b t : R) : @lerp R real a b t = (1 - t) * a + t * b.
Proof.
  unfold lerp. cbn [real leb sub add mul of_int lit_0_5].
  destruct (Rleb (1 / 2) t); ring.
Qed.

Lemma interpolate_between (y : list R) (d v : R) :
  StronglySorted Rle y -> (0 < List.length y)%nat ->
  0 <= v <= IZR (Z.of_nat (List.length y) - 1) ->
  nth (Z.to_nat (Int_part v)) y d <= interpolate y d v
  <= nth (Nat.min (Z.to_nat (Int_part v) + 1) (List.length y - 1)) y d.
Proof.
  intros Hy Hn Hv. unfold interpolate.
  destruct (@Int_part_bounds v _ Hv) as [Hj0 Hjn].
  destruct (base_Int_part v) as [Hlo Hhi].
  set (j := Int_part v) in *.
  assert (Hle : nth (Z.to_nat j) y d
                <= nth (Nat.min (Z.to_nat j + 1) (List.length y - 1)) y d).
  { apply sorted_nth; [assumption|]. lia. }
  set (lo := nth (Z.to_nat j) y d) in *.
  set (hi := nth (Nat.min (Z.to_nat j + 1) (List.length y - 1)) y d) in *.
  set (g := v - IZR j). assert (0 <= g < 1) by (unfold g; lra).
  split; nra.
Qed.

Lemma interpolate_monotone (y : list R) (d v w : R) :
  StronglySorted Rle y -> (0 < List.length y)%nat ->
  0 <= v -> v <= w -> w <= IZR (Z.of_nat (List.length y) - 1) ->
  interpolate y d v <= interpolate y d w.
Proof.
  intros Hy Hn Hv Hvw Hw.
  assert (Hjv := @Int_part_bounds v (Z.of_nat (List.length y) - 1)).
  assert (Hjw := @Int_part_bounds w (Z.of_nat (List.length y) - 1)).
  assert (Hj := @Int_part_le v w Hvw).
  destruct Hjv as [Hv0 Hvn]; [lra|]. destruct Hjw as [Hw0 Hwn]; [lra|].
  destruct (Z.eq_dec (Int_part v) (Int_part w)) as [Heq|Hne].
  - unfold interpolate. rewrite <- Heq.
    set (j := Int_part v) in *.
    assert (Hle : nth (Z.to_nat j) y d
                  <= nth (Nat.min (Z.to_nat j + 1) (List.length y - 1)) y d).
    { apply sorted_nth; [assumption|]. lia. }
    set (lo := nth (Z.to_nat j) y d) in *.
    set (hi := nth (Nat.min (Z.to_nat j + 1) (List.length y - 1)) y d) in *.
    nra.
  - destruct (@interpolate_between y d v Hy Hn) as [_ Hup]; [lra|].
    destruct (@interpolate_between y d w Hy Hn) as [Hdown _]; [lra|].
    assert (Hmid : nth (Nat.min (Z.to_nat (Int_part v) + 1)
                          (List.length y - 1)) y d
                   <= nth (Z.to_nat (Int_part w)) y d).
    { apply sorted_nth; [assumption|]. lia. }
    lra.
Qed.

End RealPercentile.

(** With a quantile in [0, 1] and values, [np_percentile] returns: the NaN
    among the values, or the interpolation. *)
Lemma np_percentile_valid {F : Type} {num : Num F} (x0 : F) (a : list F)
    (q : F) :
  negb ((of_int 0 <=? q / of_int 100) && (q / of_int 100 <=? of_int 1))%num
  = false ->
  np_percentile (x0 :: a) q =
  match find np_isnan (x0 :: a) with
  | Some x => Ok x
  | None =>
      let y := np_sort (x0 :: a) in
      let n := Z.of_nat (List.length y) in
      let virtual_index := (of_int (n - 1) * (q / of_int 100))%num in
      Ok (lerp (take y x0 (get_index n virtual_index 0))
            (take y x0 (get_index n virtual_index 1))
            (virtual_index - of_int (get_index n virtual_index 0))%num)
  end.
Proof. intros H. unfold np_percentile. rewrite H. reflexivity. Qed.

Section RealBounds.

Local Open Scope R_scope.

Lemma find_isnan_real (a : list R) : find (@np_isnan R real) a = None.
Proof. induction a as [|x a IH]; simpl; auto. Qed.

(** Over the reals [np_percentile] is the interpolation of the sorted
    values. *)
Lemma np_percentile_real (x0 : R) (a : list R) (q : R) :
  0 <= q <= 100 ->
  @np_percentile R real (x0 :: a) q =
  Ok (interpolate (@np_sort R real (x0 :: a)) x0
        (IZR (Z.of_nat (List.length (@np_sort R real (x0 :: a))) - 1)
         * (q / 100))).
Proof.
  intros [Hq0 Hq100]. unfold np_percentile.
  cbn [real leb of_int div].
  assert (H0 : Rleb 0 (q / 100) = true) by (apply Rleb_true; lra).
  assert (H1 : Rleb (q / 100) 1 = true) by (apply Rleb_true; lra).
  rewrite H0, H1. cbn [andb negb].
  rewrite find_isnan_real. f_equal. rewrite lerp_real.
  set (y := @np_sort R real (x0 :: a)).
  assert (Hlen : (0 < List.length y)%nat)
    by (unfold y; rewrite length_np_sort; simpl; lia).
  set (n := Z.of_nat (List.length y)).
  assert (Hn1 : 0 <= IZR (n - 1)) by (apply IZR_le; lia).
  cbn [real mul sub of_int].
  set (v := IZR (n - 1) * (q / 100)).
  assert (Hv : 0 <= v <= IZR (n - 1)) by (unfold v; split; nra).
  unfold get_index, interpolate. cbn [real np_isnan ltb leb of_int np_floor].
  assert (Hneg : Rltb v 0 = false).
  { unfold Rltb. destruct (Rlt_dec v 0); [lra|reflexivity]. }
  rewrite Hneg. unfold take.
  destruct (Rleb (IZR (n - 1)) v) eqn:Habove.
  - apply Rleb_true in Habove.
    assert (Hv' : v = IZR (n - 1)) by lra.
    assert (Hj : Int_part v = (n - 1)%Z).
    { apply Int_part_eq. rewrite Hv'. lra. }
    rewrite Hj. cbn [Z.ltb Z.compare]. fold n. rewrite Hv'.
    replace (Z.to_nat (n + -1)) with (Z.to_nat (n - 1)) by lia.
    rewrite Rminus_diag. ring.
  - apply Rleb_false in Habove.
    destruct (@Int_part_bounds v _ Hv) as [Hj0 Hjn].
    destruct (base_Int_part v) as [Hlo Hhi].
    set (j := Int_part v) in *.
    assert (Hjlt : (j < n - 1)%Z) by (apply lt_IZR; lra).
    destruct (Z.ltb_spec (j + 0) 0); [lia|].
    destruct (Z.ltb_spec (j + 1) 0); [lia|].
    rewrite Z.add_0_r.
    replace (Nat.min (Z.to_nat j + 1) (List.length y - 1))
      with (Z.to_nat (j + 1)) by lia.
    reflexivity.
Qed.

Lemma real_ranks :
  (@lower_percentile R real * 100 = 1 / 2 /\
   @upper_percentile R real * 100 = 199 / 2)%R.
Proof.
  unfold upper_percentile, lower_percentile, confidence_level.
  cbn [real sub div of_int lit_0_99]. split; lra.
Qed.

(** The bounds of a non-empty collection of real prices are ordered. *)
Lemma real_bounds_ordered (predicted_prices : list R) :
  predicted_prices <> [] ->
  exists lower_bound upper_bound,
    @main_confidence_interval R real predicted_prices
    = Ok (lower_bound, upper_bound) /\
    @np_percentile R real predicted_prices (1 / 2) = Ok lower_bound /\
    @np_percentile R real predicted_prices (199 / 2) = Ok upper_bound /\
    lower_bound <= upper_bound.
Proof.
  destruct predicted_prices as [|x0 a]; [congruence|]. intros _.
  unfold main_confidence_interval.
  destruct real_ranks as [Hlo Hup].
  cbn [real mul of_int] in Hlo, Hup |- *. rewrite Hlo, Hup.
  rewrite !np_percentile_real by lra. cbn [bind].
  eexists. eexists. repeat split.
  assert (Hn : (0 < List.length (@np_sort R real (x0 :: a)))%nat)
    by (rewrite length_np_sort; simpl; lia).
  set (n1 := IZR (Z.of_nat (List.length (@np_sort R real (x0 :: a))) - 1)).
  assert (Hpos : 0 <= n1) by (apply IZR_le; lia).
  apply interpolate_monotone; auto using np_sort_sorted; fold n1; nra.
Qed.

End RealBounds.

Lemma binary64_ranks (libm : Libm) :
  @confidence_level float (binary64 libm) = 0x1.fae147ae147aep-1%float /\
  (@lower_percentile float (binary64 libm) * 100
   = 0x1.0000000000004p-1)%float /\
  (@upper_percentile float (binary64 libm) * 100 = 99.5)%float.
Proof. repeat split. Qed.

(** A NaN among the predicted prices makes both bounds NaN, which [<=] does
    not order. *)
Lemma binary64_nan_price_nan_bounds (libm : Libm)
    (predicted_prices : list float) :
  (exists x, In x predicted_prices /\ PrimFloat.is_nan x = true) ->
  @main_confidence_interval float (binary64 libm) predicted_prices
  = Ok (PrimFloat.nan, PrimFloat.nan) /\
  PrimFloat.leb PrimFloat.nan PrimFloat.nan = false.
Proof.
  intros (x & Hin & Hnan). split; [|reflexivity].
  assert (Hfind : find PrimFloat.is_nan predicted_prices = Some PrimFloat.nan).
  { destruct (find PrimFloat.is_nan predicted_prices) as [y|] eqn:Hy.
    - apply find_some in Hy. destruct Hy as [_ Hy].
      rewrite (is_nan_true _ Hy). reflexivity.
    - rewrite (find_none _ _ Hy x Hin) in Hnan. discriminate. }
  destruct predicted_prices as [|x0 a]; [destruct Hin|].
  unfold main_confidence_interval, np_percentile.
  cbn [binary64 np_isnan]. rewrite Hfind. reflexivity.
Qed.

(** ** Percentiles in binary64 *)

Lemma SFleb_trans (a b c : spec_float) :
  SFleb a b = true -> SFleb b c = true -> SFleb a c = true.
Proof.
  unfold SFleb, SFcompare.
  destruct a as [sa|sa| |sa ma ea], b as [sb|sb| |sb mb eb],
    c as [sc|sc| |sc mc ec];
    try destruct sa; try destruct sb; try destruct sc;
    try discriminate; try reflexivity;
    intros Hab Hbc; order_cases; simpl in *;
    try discriminate; try reflexivity; try lia.
Qed.

Lemma leb_trans (a b c : float) :
  PrimFloat.leb a b = true -> PrimFloat.leb b c = true ->
  PrimFloat.leb a c = true.
Proof. rewrite !leb_spec. apply SFleb_trans. Qed.

(** Two numbers, neither a NaN, are ordered one way or the other. *)
Lemma leb_total (a b : float) :
  PrimFloat.is_nan a = false -> PrimFloat.is_nan b = false ->
  PrimFloat.leb a b = false -> PrimFloat.leb b a = true.
Proof.
  rewrite !is_nan_spec, !leb_spec. unfold SFleb, SFcompare.
  destruct (Prim2SF a) as [sa|sa| |sa ma ea], (Prim2SF b) as [sb|sb| |sb mb eb];
    try destruct sa; try destruct sb;
    try discriminate; try reflexivity;
    intros _ _ Hab; order_cases; simpl in *;
    try discriminate; try reflexivity; try lia.
Qed.

Lemma finite_not_nan (x : float) :
  PrimFloat.is_finite x = true -> PrimFloat.is_nan x = false.
Proof.
  rewrite is_finite_spec, is_nan_spec.
  destruct (Prim2SF x); try discriminate; reflexivity.
Qed.

Section SortFacts.

Context {F : Type} {num : Num F}.

Lemma insert_sorted_in (x y : F) (l : list F) :
  In y (insert_sorted x l) <-> y = x \/ In y l.
Proof.
  induction l as [|z l IH]; simpl.
  - intuition auto.
  - destruct (leb x z); simpl; rewrite ?IH; intuition auto.
Qed.

Lemma np_sort_in (y : F) (a : list F) : In y (np_sort a) <-> In y a.
Proof.
  induction a as [|x a IH]; simpl; [reflexivity|].
  unfold np_sort in *. simpl. rewrite insert_sorted_in, IH. intuition auto.
Qed.

Lemma insert_sorted_length (x : F) (l : list F) :
  List.length (insert_sorted x l) = S (List.length l).
Proof.
  induction l as [|z l IH]; simpl; [reflexivity|].
  destruct (leb x z); simpl; congruence.
Qed.

Lemma np_sort_length (a : list F) : List.length (np_sort a) = List.length a.
Proof.
  induction a as [|x a IH]; simpl; [reflexivity|].
  unfold np_sort in *. simpl. rewrite insert_sorted_length. congruence.
Qed.

End SortFacts.

Section Binary64Sort.

Variable libm : Libm.

Lemma insert_sorted_binary64 (x : float) (l : list float) :
  PrimFloat.is_nan x = false ->
  Forall (fun y => PrimFloat.is_nan y = false) l ->
  StronglySorted (fun a b => PrimFloat.leb a b = true) l ->
  StronglySorted (fun a b => PrimFloat.leb a b = true)
    (@insert_sorted float (binary64 libm) x l).
Proof.
  intros Hx Hl Hs. induction Hs as [|z l Hs IH Hz]; simpl.
  - constructor; constructor.
  - cbn [binary64 leb]. inversion Hl as [|z' l' Hnz Hnl]; subst.
    destruct (PrimFloat.leb x z) eqn:Hxz.
    + constructor; [constructor; assumption|].
      constructor; [exact Hxz|].
      rewrite Forall_forall in Hz |- *. intros w Hw.
      apply leb_trans with z; auto.
    + constructor; [apply IH; assumption|].
      rewrite Forall_forall in Hz |- *. intros w Hw.
      apply insert_sorted_in in Hw. destruct Hw as [->|Hw]; [|auto].
      apply leb_total; assumption.
Qed.

(** Sorting values without a NaN puts them in order. *)
Lemma np_sort_binary64 (a : list float) :
  Forall (fun y => PrimFloat.is_nan y = false) a ->
  StronglySorted (fun a b => PrimFloat.leb a b = true)
    (@np_sort float (binary64 libm) a).
Proof.
  induction 1 as [|x a Hx Ha IH]; [constructor|].
  unfold np_sort in *. simpl. apply insert_sorted_binary64; auto.
  rewrite Forall_forall in Ha |- *. intros y Hy. apply Ha.
  apply (@np_sort_in float (binary64 libm)). exact Hy.
Qed.

End Binary64Sort.

Lemma sorted_nth_binary64 (l : list float) (d : float) (i j : nat) :
  StronglySorted (fun a b => PrimFloat.leb a b = true) l ->
  i < j < List.length l ->
  PrimFloat.leb (nth i l d) (nth j l d) = true.
Proof.
  intros Hs. revert i j. induction Hs as [|z l Hs IH Hz]; intros i j Hij.
  - simpl in Hij. lia.
  - destruct j as [|j]; [lia|]. destruct i as [|i]; simpl.
    + rewrite Forall_forall in Hz. apply Hz. apply nth_In. simpl in Hij. lia.
    + apply IH. simpl in Hij. lia.
Qed.

(** The two bounds of [main] on 10000 values: the lower one comes off the
    51st value in order by the subtracting form of [lerp], the upper one off
    the 9950th by the adding form. *)
Lemma binary64_default_bounds (libm : Libm) (x0 : float) (a : list float) :
  List.length (x0 :: a) = Z.to_nat n_simulations_default ->
  find PrimFloat.is_nan (x0 :: a) = None ->
  let y := @np_sort float (binary64 libm) (x0 :: a) in
  @main_confidence_interval float (binary64 libm) (x0 :: a) =
  Ok ((nth (Z.to_nat 50) y x0
       - (nth (Z.to_nat 50) y x0 - nth (Z.to_nat 49) y x0)
         * 0x1.47ae147ad4000p-8)%float,
      (nth (Z.to_nat 9949) y x0
       + (nth (Z.to_nat 9950) y x0 - nth (Z.to_nat 9949) y x0)
         * 0x1.47ae147a00000p-8)%float).
Proof.
  intros Hlen Hfind y. unfold main_confidence_interval.
  rewrite !np_percentile_valid by reflexivity.
  cbn [binary64 np_isnan]. rewrite Hfind. cbv zeta. fold y.
  assert (Hy : Z.of_nat (List.length y) = 10000%Z).
  { unfold y. rewrite np_sort_length, Hlen. unfold n_simulations_default.
    lia. }
  rewrite Hy. cbn [bind]. unfold lerp, take.
  repeat match goal with
  | |- context [@get_index float ?n 10000%Z ?v ?o] =>
      let i := eval vm_compute in (@get_index float n 10000%Z v o) in
      change (@get_index float n 10000%Z v o) with i
  end.
  change (49 <? 0)%Z with false. change (50 <? 0)%Z with false.
  change (9949 <? 0)%Z with false. change (9950 <? 0)%Z with false.
  repeat match goal with
  | |- context [@leb float ?n ?x ?z] =>
      let b := eval vm_compute in (@leb float n x z) in
      change (@leb float n x z) with b
  end.
  cbv iota.
  match goal with
  | |- context [@sub float ?n (@of_int float ?n' 1%Z) ?g] =>
      let c := eval vm_compute in (@sub float n (@of_int float n' 1%Z) g) in
      change (@sub float n (@of_int float n' 1%Z) g) with c
  end.
  match goal with
  | |- context [@sub float ?n ?v (@of_int float ?n' 9949%Z)] =>
      let c := eval vm_compute in (@sub float n v (@of_int float n' 9949%Z)) in
      change (@sub float n v (@of_int float n' 9949%Z)) with c
  end.
  reflexivity.
Qed.

(** With the default 10000 prices, all of them finite, the bounds of [main]
    are ordered in binary64. *)
Lemma binary64_default_bounds_ordered (libm : Libm)
    (predicted_prices : list float) :
  List.length predicted_prices = Z.to_nat n_simulations_default ->
  (forall x, In x predicted_prices -> PrimFloat.is_finite x = true) ->
  exists lower_bound upper_bound,
    @main_confidence_interval float (binary64 libm) predicted_prices
    = Ok (lower_bound, upper_bound) /\
    PrimFloat.leb lower_bound upper_bound = true.
Proof.
  intros Hlen Hfin. destruct predicted_prices as [|x0 a].
  { exfalso. cbn [List.length] in Hlen. unfold n_simulations_default in Hlen.
    lia. }
  assert (Hfind : find PrimFloat.is_nan (x0 :: a) = None).
  { destruct (find PrimFloat.is_nan (x0 :: a)) as [x|] eqn:Hx; [|reflexivity].
    apply find_some in Hx. destruct Hx as [Hin Hnan].
    rewrite (finite_not_nan x (Hfin x Hin)) in Hnan. discriminate. }
  rewrite (@binary64_default_bounds libm x0 a Hlen Hfind).
  set (y := @np_sort float (binary64 libm) (x0 :: a)).
  assert (Hy : List.length y = Z.to_nat 10000).
  { unfold y. rewrite np_sort_length. exact Hlen. }
  assert (Hsorted : StronglySorted (fun a b => PrimFloat.leb a b = true) y).
  { apply np_sort_binary64. rewrite Forall_forall. intros x Hx.
    apply finite_not_nan. apply Hfin. exact Hx. }
  assert (Hnth : forall i, i < Z.to_nat 10000 ->
                   PrimFloat.is_finite (nth i y x0) = true).
  { intros i Hi. apply Hfin. apply (@np_sort_in float (binary64 libm)).
    fold y. apply nth_In. rewrite Hy. exact Hi. }
  set (y49 := nth (Z.to_nat 49) y x0).
  set (y50 := nth (Z.to_nat 50) y x0).
  set (y9949 := nth (Z.to_nat 9949) y x0).
  set (y9950 := nth (Z.to_nat 9950) y x0).
  assert (H1 : PrimFloat.leb y49 y50 = true)
    by (apply sorted_nth_binary64; [exact Hsorted|lia]).
  assert (H2 : PrimFloat.leb y50 y9949 = true)
    by (apply sorted_nth_binary64; [exact Hsorted|lia]).
  assert (H3 : PrimFloat.leb y9949 y9950 = true)
    by (apply sorted_nth_binary64; [exact Hsorted|lia]).
  assert (F49 : PrimFloat.is_finite y49 = true) by (apply Hnth; lia).
  assert (F50 : PrimFloat.is_finite y50 = true) by (apply Hnth; lia).
  assert (F9949 : PrimFloat.is_finite y9949 = true) by (apply Hnth; lia).
  assert (F9950 : PrimFloat.is_finite y9950 = true) by (apply Hnth; lia).
  eexists. eexists. split; [reflexivity|].
  apply leb_trans with y50.
  { apply float_sub_le; [exact F50|].
    apply float_mul_nonneg; [|reflexivity|reflexivity].
    apply float_sub_nonneg; assumption. }
  apply leb_trans with y9949; [exact H2|].
  apply float_add_ge; [exact F9949|].
  apply float_mul_nonneg; [|reflexivity|reflexivity].
  apply float_sub_nonneg; assumption.
Qed.

(** ** Lookups that fail *)

Section KeyFacts.

Context {F : Type} {num : Num F}.

Lemma getitem_raise (s : @Series F) (label : string) (e : exn) :
  getitem s label = Raise e ->
  e = KeyError label /\ ~ has_label s label.
Proof.
  intros H. split.
  - induction s as [|[k v] s IH]; simpl in H.
    + congruence.
    + destruct (String.eqb k label); [discriminate|auto].
  - intros [v Hv]. congruence.
Qed.

(** A lookup that fails ends the simulation with its [KeyError]. *)
Lemma monte_carlo_simulation_missing (model_fit : ModelFit)
    (n_simulations forecast_period : Z) (g : Rng) :
  ~ has_label (params model_fit) "alpha[1]" \/
  ~ has_label (params model_fit) "alpha[2]" \/
  ~ has_label (params model_fit) "beta[1]" \/
  ~ has_label (params model_fit) "beta[2]" ->
  exists label,
    monte_carlo_simulation model_fit n_simulations forecast_period g
    = Raise (KeyError label) /\
    In label ["mu"; "omega"; "alpha[1]"; "alpha[2]"; "beta[1]"; "beta[2]"]%string
    /\ ~ has_label (params model_fit) label.
Proof.
  intros Hmissing. unfold monte_carlo_simulation.
  destruct (getitem (params model_fit) "mu") as [mu|e] eqn:Hmu.
  2:{ destruct (getitem_raise _ _ Hmu) as [-> Hno].
      exists "mu"%string. split; [reflexivity|split; [simpl; tauto|assumption]]. }
  destruct (getitem (params model_fit) "omega") as [omega|e] eqn:Homega.
  2:{ destruct (getitem_raise _ _ Homega) as [-> Hno].
      exists "omega"%string. split; [reflexivity|split; [simpl; tauto|assumption]]. }
  destruct (getitem (params model_fit) "alpha[1]") as [a1|e] eqn:Ha1.
  2:{ destruct (getitem_raise _ _ Ha1) as [-> Hno].
      exists "alpha[1]"%string. split; [reflexivity|split; [simpl; tauto|assumption]]. }
  destruct (getitem (params model_fit) "alpha[2]") as [a2|e] eqn:Ha2.
  2:{ destruct (getitem_raise _ _ Ha2) as [-> Hno].
      exists "alpha[2]"%string. split; [reflexivity|split; [simpl; tauto|assumption]]. }
  destruct (getitem (params model_fit) "beta[1]") as [b1|e] eqn:Hb1.
  2:{ destruct (getitem_raise _ _ Hb1) as [-> Hno].
      exists "beta[1]"%string. split; [reflexivity|split; [simpl; tauto|assumption]]. }
  destruct (getitem (params model_fit) "beta[2]") as [b2|e] eqn:Hb2.
  2:{ destruct (getitem_raise _ _ Hb2) as [-> Hno].
      exists "beta[2]"%string. split; [reflexivity|split; [simpl; tauto|assumption]]. }
  exfalso. unfold has_label in Hmissing.
  destruct Hmissing as [H|[H|[H|H]]]; apply H; eauto.
Qed.

End KeyFacts.

(** A Series with the labels of an EGARCH(p, q) below order (2, 2) lacks
    [alpha[2]] or [beta[2]]. *)
Lemma low_order_lacks_label (p q : Z) (s : @Series float) :
  In (p, q) grid -> (p < 2 \/ q < 2)%Z ->
  map fst s = egarch_param_names p q ->
  ~ has_label s "alpha[2]" \/ ~ has_label s "beta[2]".
Proof.
  intros Hgrid Hlow Hnames.
  assert (Hcases : (p, q) = (1, 1)%Z \/ (p, q) = (1, 2)%Z
                   \/ (p, q) = (2, 1)%Z).
  { simpl in Hgrid.
    destruct Hgrid as [H|[H|[H|[H|[]]]]]; injection H as <- <-;
      auto; lia. }
  clear Hgrid Hlow.
  destruct Hcases as [H|[H|H]]; inversion H; subst p q; clear H;
    cbv in Hnames;
    repeat (destruct s as [|[? ?] s]; simpl in Hnames; try discriminate;
            try (injection Hnames as ? Hnames; subst));
    [left|left|right]; intros [v' Hv]; cbv in Hv; discriminate.
Qed.

(** ** The concrete inputs *)

(** The lookups of the simulation on the sample fits. *)
Lemma sample_has_inputs :
  has_inputs sample_fit sample_mu sample_omega sample_alpha1 sample_alpha2
    sample_beta1 sample_beta2 sample_last_vol.
Proof. repeat split. Defined.


(** The sample libm has the IEEE special values. *)
Lemma sample_libm_special_values : ieee_special_values sample_libm.
Proof. repeat split. Defined.

(** * The claims *)

(** ** The log-variance recursion and the stored return *)

(** C1.  In every path the log-variance starts from
    [np.log(last_vol ** 2)], and every step replaces it by
    [omega + alpha1 * (|z| - sqrt(2/pi)) + alpha2 * (|z| - sqrt(2/pi))
     + (beta1 + beta2) * log_sigma2], with the one draw [z] of the step in
    both alpha terms and the one previous log-variance under both betas: no
    history per lag.  This holds on any arithmetic, so in binary64 as the
    code evaluates it.  For [forecast_period = 1] and [z = 0] the
    log-variance after the step is, over the reals,
    [omega + (alpha1 + alpha2) * (0 - sqrt(2/pi))
     + (beta1 + beta2) * ln(last_vol ^ 2)], and in binary64 the same sum with
    the two alpha terms added one after the other. *)
Theorem C1_log_variance_recursion :
  (forall (F : Type) (num : Num F) (model_fit : @ModelFit F)
      (mu omega alpha1 alpha2 beta1 beta2 last_vol : F)
      (n_simulations forecast_period : Z) (g : Rng) (zeros : Matrix)
      (s t : nat),
      has_inputs model_fit mu omega alpha1 alpha2 beta1 beta2 last_vol ->
      np_zeros n_simulations forecast_period = Ok zeros ->
      s < Z.to_nat n_simulations -> t < Z.to_nat forecast_period ->
      exists st st',
        state_at mu omega alpha1 alpha2 beta1 beta2 last_vol forecast_period
          s t (g, zeros) = Ok st /\
        step mu omega alpha1 alpha2 beta1 beta2 s t st = Ok st' /\
        monte_carlo_simulation model_fit n_simulations forecast_period g =
          (st2 <- finish_from mu omega alpha1 alpha2 beta1 beta2 last_vol
                    forecast_period n_simulations s (S t) st' ;;
           Ok (snd st2, fst st2)) /\
        (t = 0 -> log_sigma2 st = np_log (last_vol ** 2)%num) /\
        let z := stream g (taken g + s * Z.to_nat forecast_period + t) in
        log_sigma2 st' =
          (omega + alpha1 * (fabs z - np_sqrt (of_int 2 / np_pi))
                 + alpha2 * (fabs z - np_sqrt (of_int 2 / np_pi))
                 + (beta1 + beta2) * log_sigma2 st)%num) /\
  (forall (model_fit : @ModelFit R)
      (mu omega alpha1 alpha2 beta1 beta2 last_vol : R)
      (n_simulations : Z) (g : Rng) (zeros : Matrix) (s : nat),
      has_inputs model_fit mu omega alpha1 alpha2 beta1 beta2 last_vol ->
      @np_zeros R real n_simulations 1 = Ok zeros ->
      s < Z.to_nat n_simulations ->
      stream g (taken g + s) = 0%R ->
      exists st',
        @state_at R real mu omega alpha1 alpha2 beta1 beta2 last_vol 1
          s 1 (g, zeros) = Ok st' /\
        log_sigma2 st' =
          (omega + (alpha1 + alpha2) * (0 - R_sqrt.sqrt (2 / PI))
                 + (beta1 + beta2) * ln (last_vol ^ 2))%R) /\
  (forall (libm : Libm) (model_fit : @ModelFit float)
      (mu omega alpha1 alpha2 beta1 beta2 last_vol : float)
      (n_simulations : Z) (g : Rng) (zeros : Matrix) (s : nat),
      has_inputs model_fit mu omega alpha1 alpha2 beta1 beta2 last_vol ->
      @np_zeros float (binary64 libm) n_simulations 1 = Ok zeros ->
      s < Z.to_nat n_simulations ->
      stream g (taken g + s) = 0%float ->
      exists st',
        @state_at float (binary64 libm) mu omega alpha1 alpha2 beta1 beta2
          last_vol 1 s 1 (g, zeros) = Ok st' /\
        log_sigma2 st' =
          (omega
           + alpha1 * (0 - PrimFloat.sqrt (2 / 0x1.921fb54442d18p+1))
           + alpha2 * (0 - PrimFloat.sqrt (2 / 0x1.921fb54442d18p+1))
           + (beta1 + beta2) * libm_log libm (libm_pow libm last_vol 2))%float).
Proof.
  split; [|split].
  - intros F num model_fit mu omega alpha1 alpha2 beta1 beta2 last_vol
      n_simulations forecast_period g zeros s t Hin Hzeros Hs Ht.
    destruct (@step_of_the_run F num model_fit mu omega alpha1 alpha2 beta1
                beta2 last_vol n_simulations forecast_period g zeros s t Hin
                Hzeros Hs Ht)
      as (st & st' & Hst & Hstep & Hrun & Hinit & Hupd & _ & _).
    exists st, st'. auto.
  - intros model_fit mu omega alpha1 alpha2 beta1 beta2 last_vol
      n_simulations g zeros s Hin Hzeros Hs Hz.
    destruct (@step_of_the_run R real model_fit mu omega alpha1 alpha2 beta1
                beta2 last_vol n_simulations 1 g zeros s 0 Hin Hzeros Hs)
      as (st & st' & Hst & Hstep & _ & Hinit & Hupd & _ & _); [simpl; lia|].
    exists st'. split.
    + rewrite state_at_S, Hst. exact Hstep.
    + cbv zeta in Hupd. rewrite Hupd, (Hinit eq_refl).
      replace (taken g + s * Z.to_nat 1 + 0) with (taken g + s)
        by (simpl; lia).
      rewrite Hz.
      cbn [real add sub mul div pow fabs np_sqrt np_log np_pi of_int].
      change (powerRZ last_vol 2) with (last_vol ^ 2)%R.
      rewrite Rabs_R0. ring.
  - intros libm model_fit mu omega alpha1 alpha2 beta1 beta2 last_vol
      n_simulations g zeros s Hin Hzeros Hs Hz.
    destruct (@step_of_the_run float (binary64 libm) model_fit mu omega alpha1
                alpha2 beta1 beta2 last_vol n_simulations 1 g zeros s 0 Hin
                Hzeros Hs)
      as (st & st' & Hst & Hstep & _ & Hinit & Hupd & _ & _); [simpl; lia|].
    exists st'. split.
    + rewrite state_at_S, Hst. exact Hstep.
    + cbv zeta in Hupd. rewrite Hupd, (Hinit eq_refl).
      replace (taken g + s * Z.to_nat 1 + 0) with (taken g + s)
        by (simpl; lia).
      rewrite Hz. reflexivity.
Qed.

(** C1 on the sample fit, one path of one step, the draw being zero. *)
Lemma C1_log_variance_recursion_witness :
  has_inputs sample_fit sample_mu sample_omega sample_alpha1 sample_alpha2
    sample_beta1 sample_beta2 sample_last_vol /\
  @np_zeros float (binary64 sample_libm) 1 1 = Ok [[0%float]] /\
  0 < Z.to_nat 1 /\
  stream zero_rng (taken zero_rng + 0) = 0%float /\
  exists st',
    @state_at float (binary64 sample_libm) sample_mu sample_omega
      sample_alpha1 sample_alpha2 sample_beta1 sample_beta2 sample_last_vol
      1 0 1 (zero_rng, [[0%float]]) = Ok st' /\
    log_sigma2 st' =
      (sample_omega
       + sample_alpha1 * (0 - PrimFloat.sqrt (2 / 0x1.921fb54442d18p+1))
       + sample_alpha2 * (0 - PrimFloat.sqrt (2 / 0x1.921fb54442d18p+1))
       + (sample_beta1 + sample_beta2)
         * libm_log sample_libm (libm_pow sample_libm sample_last_vol 2))%float.
Proof.
  split; [exact sample_has_inputs|]. split; [reflexivity|].
  split; [simpl; lia|]. split; [reflexivity|].
  destruct C1_log_variance_recursion as (_ & _ & Hfloat).
  apply (Hfloat sample_libm sample_fit sample_mu sample_omega sample_alpha1
           sample_alpha2 sample_beta1 sample_beta2 sample_last_vol 1%Z
           zero_rng [[0%float]] 0 sample_has_inputs).
  - reflexivity.
  - simpl. lia.
  - reflexivity.
Defined.

(** C2, as amended.  At every step the volatility is
    [sqrt(exp(log_sigma2))], from the log-variance just updated, and the
    return written at [(s, t)], the one the returned matrix holds there, is
    [mu - 0.5 * sigma ** 2 + sigma * z] with [z] the draw used in the update
    of that step.  With [z = 0] and a finite [sigma] the return is
    [mu - 0.5 * sigma ^ 2]: exactly over the reals, where every [sigma] is
    finite; in binary64 that float, up to the sign of a zero.  With [z = 0]
    and a [sigma] that is infinite or NaN the return is NaN. *)
Theorem C2_return_formula :
  (forall (F : Type) (num : Num F) (model_fit : @ModelFit F)
      (mu omega alpha1 alpha2 beta1 beta2 last_vol : F)
      (n_simulations forecast_period : Z) (g : Rng) (zeros : Matrix)
      (s t : nat),
      has_inputs model_fit mu omega alpha1 alpha2 beta1 beta2 last_vol ->
      np_zeros n_simulations forecast_period = Ok zeros ->
      s < Z.to_nat n_simulations -> t < Z.to_nat forecast_period ->
      exists st st' m g',
        state_at mu omega alpha1 alpha2 beta1 beta2 last_vol forecast_period
          s t (g, zeros) = Ok st /\
        step mu omega alpha1 alpha2 beta1 beta2 s t st = Ok st' /\
        monte_carlo_simulation model_fit n_simulations forecast_period g
        = Ok (m, g') /\
        let z := stream g (taken g + s * Z.to_nat forecast_period + t) in
        let sigma := np_sqrt (np_exp (log_sigma2 st')) in
        log_sigma2 st' =
          (omega + alpha1 * (fabs z - np_sqrt (of_int 2 / np_pi))
                 + alpha2 * (fabs z - np_sqrt (of_int 2 / np_pi))
                 + (beta1 + beta2) * log_sigma2 st)%num /\
        getitem2 (simulated_returns st') s t
        = Some (mu - lit_0_5 * sigma ** 2 + sigma * z)%num /\
        getitem2 m s t = Some (mu - lit_0_5 * sigma ** 2 + sigma * z)%num) /\
  (forall (model_fit : @ModelFit R)
      (mu omega alpha1 alpha2 beta1 beta2 last_vol : R)
      (n_simulations forecast_period : Z) (g : Rng) (zeros : Matrix)
      (s t : nat),
      has_inputs model_fit mu omega alpha1 alpha2 beta1 beta2 last_vol ->
      @np_zeros R real n_simulations forecast_period = Ok zeros ->
      s < Z.to_nat n_simulations -> t < Z.to_nat forecast_period ->
      stream g (taken g + s * Z.to_nat forecast_period + t) = 0%R ->
      exists st' m g',
        @state_at R real mu omega alpha1 alpha2 beta1 beta2 last_vol
          forecast_period s (S t) (g, zeros) = Ok st' /\
        @monte_carlo_simulation R real model_fit n_simulations
          forecast_period g = Ok (m, g') /\
        let sigma := R_sqrt.sqrt (exp (log_sigma2 st')) in
        getitem2 m s t = Some (mu - 1 / 2 * sigma ^ 2)%R) /\
  (forall (libm : Libm) (model_fit : @ModelFit float)
      (mu omega alpha1 alpha2 beta1 beta2 last_vol : float)
      (n_simulations forecast_period : Z) (g : Rng) (zeros : Matrix)
      (s t : nat),
      has_inputs model_fit mu omega alpha1 alpha2 beta1 beta2 last_vol ->
      @np_zeros float (binary64 libm) n_simulations forecast_period
      = Ok zeros ->
      s < Z.to_nat n_simulations -> t < Z.to_nat forecast_period ->
      stream g (taken g + s * Z.to_nat forecast_period + t) = 0%float ->
      exists st' m g' r,
        @state_at float (binary64 libm) mu omega alpha1 alpha2 beta1 beta2
          last_vol forecast_period s (S t) (g, zeros) = Ok st' /\
        @monte_carlo_simulation float (binary64 libm) model_fit n_simulations
          forecast_period g = Ok (m, g') /\
        getitem2 m s t = Some r /\
        let sigma := PrimFloat.sqrt (libm_exp libm (log_sigma2 st')) in
        let x := (mu - 0.5 * libm_pow libm sigma 2)%float in
        (PrimFloat.is_finite sigma = true ->
         r = x \/ (PrimFloat.eqb x 0 = true /\ PrimFloat.eqb r 0 = true)) /\
        (PrimFloat.is_finite sigma = false -> r = PrimFloat.nan)).
Proof.
  split; [|split].
  - intros F num model_fit mu omega alpha1 alpha2 beta1 beta2 last_vol
      n_simulations forecast_period g zeros s t Hin Hzeros Hs Ht.
    destruct (@step_of_the_run F num model_fit mu omega alpha1 alpha2 beta1
                beta2 last_vol n_simulations forecast_period g zeros s t Hin
                Hzeros Hs Ht)
      as (st & st' & Hst & Hstep & _ & _ & Hupd & Hcell & m & g' & Hrun
          & Hentry).
    exists st, st', m, g'. auto 10.
  - intros model_fit mu omega alpha1 alpha2 beta1 beta2 last_vol
      n_simulations forecast_period g zeros s t Hin Hzeros Hs Ht Hz.
    destruct (@step_of_the_run R real model_fit mu omega alpha1 alpha2 beta1
                beta2 last_vol n_simulations forecast_period g zeros s t Hin
                Hzeros Hs Ht)
      as (st & st' & Hst & Hstep & _ & _ & _ & _ & m & g' & Hrun & Hentry).
    exists st', m, g'. split; [|split; [exact Hrun|]].
    + rewrite state_at_S, Hst. exact Hstep.
    + cbv zeta. rewrite Hentry, Hz. f_equal.
      cbn [real add sub mul div pow fabs np_sqrt np_exp lit_0_5].
      change (powerRZ (R_sqrt.sqrt (exp (log_sigma2 st'))) 2)
        with (R_sqrt.sqrt (exp (log_sigma2 st')) ^ 2)%R.
      ring.
  - intros libm model_fit mu omega alpha1 alpha2 beta1 beta2 last_vol
      n_simulations forecast_period g zeros s t Hin Hzeros Hs Ht Hz.
    destruct (@step_of_the_run float (binary64 libm) model_fit mu omega alpha1
                alpha2 beta1 beta2 last_vol n_simulations forecast_period g
                zeros s t Hin Hzeros Hs Ht)
      as (st & st' & Hst & Hstep & _ & _ & _ & _ & m & g' & Hrun & Hentry).
    eexists st', m, g', _. split; [|split; [exact Hrun|split; [exact Hentry|]]].
    + rewrite state_at_S, Hst. exact Hstep.
    + cbv zeta. rewrite Hz. split; intros Hfin.
      * apply (add_mul_zero _ _ Hfin).
      * apply (return_at_zero_draw_not_finite _ _ Hfin).
Qed.

(** C2 on the sample fit, one path of one step, the draw being zero. *)
Lemma C2_return_formula_witness :
  has_inputs sample_fit sample_mu sample_omega sample_alpha1 sample_alpha2
    sample_beta1 sample_beta2 sample_last_vol /\
  @np_zeros float (binary64 sample_libm) 1 1 = Ok [[0%float]] /\
  stream zero_rng (taken zero_rng + 0 * Z.to_nat 1 + 0) = 0%float /\
  exists m g' r,
    @monte_carlo_simulation float (binary64 sample_libm) sample_fit 1 1
      zero_rng = Ok (m, g') /\
    getitem2 m 0 0 = Some r.
Proof.
  split; [exact sample_has_inputs|]. split; [reflexivity|].
  split; [reflexivity|].
  destruct C2_return_formula as (_ & _ & Hfloat).
  destruct (Hfloat sample_libm sample_fit sample_mu sample_omega sample_alpha1
              sample_alpha2 sample_beta1 sample_beta2 sample_last_vol 1%Z 1%Z
              zero_rng [[0%float]] 0 0 sample_has_inputs)
    as (st' & m & g' & r & _ & Hrun & Hentry & _).
  - reflexivity.
  - simpl. lia.
  - simpl. lia.
  - reflexivity.
  - exists m, g', r. split; assumption.
Defined.

(** C2, as stated, fails: with [omega = 2000] the log-variance of the first
    step is about 1992, [exp] overflows and [sigma] is infinite; with
    [z = 0] the stored return is NaN, while [mu - 0.5 * sigma ** 2] is
    [-inf]. *)
Lemma C2_infinite_sigma_return_nan :
  has_inputs sample_fit_overflow sample_mu 2000%float sample_alpha1
    sample_alpha2 sample_beta1 sample_beta2 sample_last_vol /\
  stream zero_rng (taken zero_rng + 0 * Z.to_nat 1 + 0) = 0%float /\
  exists st' m g' r,
    @state_at float (binary64 sample_libm) sample_mu 2000%float sample_alpha1
      sample_alpha2 sample_beta1 sample_beta2 sample_last_vol 1 0 1
      (zero_rng, [[0%float]]) = Ok st' /\
    @monte_carlo_simulation float (binary64 sample_libm) sample_fit_overflow
      1 1 zero_rng = Ok (m, g') /\
    getitem2 m 0 0 = Some r /\
    PrimFloat.sqrt (libm_exp sample_libm (log_sigma2 st'))
    = PrimFloat.infinity /\
    r = PrimFloat.nan /\
    (sample_mu
     - 0.5 * libm_pow sample_libm
               (PrimFloat.sqrt (libm_exp sample_libm (log_sigma2 st'))) 2)%float
    = PrimFloat.neg_infinity.
Proof.
  split; [repeat split|]. split; [reflexivity|].
  eexists. eexists. eexists. eexists.
  split; [vm_compute; reflexivity|].
  split; [vm_compute; reflexivity|].
  split; [reflexivity|]. repeat split.
Qed.

(** ** Shape, determinism and independence of the result *)

(** C3.  For a model with its inputs, [n_simulations = N >= 1] and
    [forecast_period = T >= 1], the simulation returns a matrix of exactly
    [N] rows and [T] columns; every entry [(s, t)] is the log-return the loop
    computed for step [t] of path [s]; and the loops give this same matrix
    from any initial fill, so no cell keeps what the allocation put there. *)
Theorem C3_shape_and_fully_written {F : Type} {num : Num F}
    (model_fit : ModelFit)
    (mu omega alpha1 alpha2 beta1 beta2 last_vol : F)
    (n_simulations forecast_period : Z) (g : Rng) :
  has_inputs model_fit mu omega alpha1 alpha2 beta1 beta2 last_vol ->
  (1 <= n_simulations)%Z -> (1 <= forecast_period)%Z ->
  exists m g',
    monte_carlo_simulation model_fit n_simulations forecast_period g
    = Ok (m, g') /\
    shape m (Z.to_nat n_simulations) (Z.to_nat forecast_period) /\
    (forall s t,
       s < Z.to_nat n_simulations -> t < Z.to_nat forecast_period ->
       getitem2 m s t =
       Some (path_return mu omega alpha1 alpha2 beta1 beta2 last_vol
               (draws_of_path forecast_period g s) t)) /\
    (forall v m0,
       np_full n_simulations forecast_period v = Ok m0 ->
       simulation_loops mu omega alpha1 alpha2 beta1 beta2 last_vol
         forecast_period n_simulations (g, m0) = Ok (g', m)).
Proof.
  intros Hin HN HT.
  eexists. eexists. split.
  { apply monte_carlo_simulation_run with (1 := Hin); lia. }
  split; [|split].
  - split.
    + unfold range. rewrite length_map, length_seq. reflexivity.
    + apply Forall_forall. intros row Hrow.
      apply in_map_iff in Hrow. destruct Hrow as (s & <- & _).
      apply length_path_row.
  - intros s t Hs Ht. unfold getitem2, range.
    rewrite nth_error_map, nth_error_seq.
    destruct (Nat.ltb_spec s (Z.to_nat n_simulations)); [|lia].
    cbn [option_map Nat.add]. unfold path_row, range.
    rewrite nth_error_map, nth_error_seq.
    destruct (Nat.ltb_spec t (Z.to_nat forecast_period)); [|lia].
    reflexivity.
  - intros v m0 Hm0. rewrite np_full_ok in Hm0 by lia.
    injection Hm0 as <-.
    apply simulation_loops_spec. apply shape_repeat.
Qed.

(** C3 on the sample fit, two paths of three steps. *)
Lemma C3_shape_and_fully_written_witness :
  has_inputs sample_fit sample_mu sample_omega sample_alpha1 sample_alpha2
    sample_beta1 sample_beta2 sample_last_vol /\
  (1 <= 2)%Z /\ (1 <= 3)%Z /\
  exists m g',
    @monte_carlo_simulation float (binary64 sample_libm) sample_fit 2 3
      sample_rng = Ok (m, g') /\
    shape m 2 3.
Proof.
  split; [exact sample_has_inputs|]. split; [lia|]. split; [lia|].
  destruct (@C3_shape_and_fully_written float (binary64 sample_libm)
              sample_fit sample_mu sample_omega sample_alpha1 sample_alpha2
              sample_beta1 sample_beta2 sample_last_vol 2%Z 3%Z sample_rng
              sample_has_inputs)
    as (m & g' & Hrun & Hshape & _); [lia|lia|].
  exists m, g'. split; assumption.
Defined.

(** C4.  Two invocations on models with the same parameters and the same
    last volatility, with the same [n_simulations] and [forecast_period], and
    generators that deliver the same draws (over the
    [n_simulations * forecast_period] draws an invocation takes), return the
    same: identical matrices, or the same exception. *)
Theorem C4_deterministic {F : Type} {num : Num F}
    (model_fit model_fit' : ModelFit)
    (n_simulations forecast_period : Z) (g g' : Rng) :
  params model_fit = params model_fit' ->
  last_item (conditional_volatility model_fit)
  = last_item (conditional_volatility model_fit') ->
  (forall i, i < Z.to_nat n_simulations * Z.to_nat forecast_period ->
     stream g (taken g + i) = stream g' (taken g' + i)) ->
  returned (monte_carlo_simulation model_fit n_simulations forecast_period g)
  = returned
      (monte_carlo_simulation model_fit' n_simulations forecast_period g').
Proof.
  intros Hparams Hlast Hdraws.
  assert (Hsame : monte_carlo_simulation model_fit' n_simulations
                    forecast_period g'
                  = monte_carlo_simulation model_fit n_simulations
                      forecast_period g').
  { unfold monte_carlo_simulation. rewrite Hparams, Hlast. reflexivity. }
  rewrite Hsame.
  destruct (monte_carlo_simulation_cases model_fit n_simulations
              forecast_period)
    as [(mu & omega & a1 & a2 & b1 & b2 & lv & Hin & HN & HT)|[e He]].
  - rewrite !(monte_carlo_simulation_run _ Hin) by assumption.
    cbn [returned bind]. f_equal.
    apply map_ext_in. intros s Hs. apply in_seq in Hs.
    apply path_row_ext. intros t Ht. unfold draws_of_path.
    rewrite <- !Nat.add_assoc. apply Hdraws. nia.
  - rewrite !He. reflexivity.
Qed.

(** C4 on two fits with the same parameters and last volatility, and two
    generators that agree on the six draws taken. *)
Lemma C4_deterministic_witness :
  params sample_fit = params sample_fit_again /\
  last_item (conditional_volatility sample_fit)
  = last_item (conditional_volatility sample_fit_again) /\
  (forall i, i < Z.to_nat 2 * Z.to_nat 3 ->
     stream sample_rng (taken sample_rng + i)
     = stream sample_rng_later (taken sample_rng_later + i)) /\
  returned
    (@monte_carlo_simulation float (binary64 sample_libm) sample_fit 2 3
       sample_rng)
  = returned
      (@monte_carlo_simulation float (binary64 sample_libm) sample_fit_again
         2 3 sample_rng_later).
Proof.
  assert (Hdraws : forall i, i < Z.to_nat 2 * Z.to_nat 3 ->
            stream sample_rng (taken sample_rng + i)
            = stream sample_rng_later (taken sample_rng_later + i)).
  { intros i Hi. simpl in Hi.
    do 6 (destruct i as [|i]; [reflexivity|]). lia. }
  split; [reflexivity|]. split; [reflexivity|]. split; [exact Hdraws|].
  apply (@C4_deterministic float (binary64 sample_libm) sample_fit
           sample_fit_again 2%Z 3%Z sample_rng sample_rng_later);
    [reflexivity|reflexivity|exact Hdraws].
Defined.

(** C5.  Row [s] of the result is the row of path [s], a function of the
    coefficients, the last volatility and the draws path [s] takes: a run
    whose generator delivers the same draws to path [s] (and any draws to the
    other paths) has the same row [s]; and computing the paths in any order,
    each from the generator positioned at its own draws, gives the matrix the
    simulation returns. *)
Theorem C5_paths_independent {F : Type} {num : Num F}
    (model_fit : ModelFit)
    (mu omega alpha1 alpha2 beta1 beta2 last_vol : F)
    (n_simulations forecast_period : Z) (g : Rng) :
  has_inputs model_fit mu omega alpha1 alpha2 beta1 beta2 last_vol ->
  (0 <= n_simulations)%Z -> (0 <= forecast_period)%Z ->
  exists m g1,
    monte_carlo_simulation model_fit n_simulations forecast_period g
    = Ok (m, g1) /\
    (forall s, s < Z.to_nat n_simulations ->
       nth_error m s =
       Some (path_row mu omega alpha1 alpha2 beta1 beta2 last_vol
               forecast_period (draws_of_path forecast_period g s))) /\
    (forall g' s, s < Z.to_nat n_simulations ->
       (forall t, t < Z.to_nat forecast_period ->
          draws_of_path forecast_period g' s t
          = draws_of_path forecast_period g s t) ->
       exists m' g1',
         monte_carlo_simulation model_fit n_simulations forecast_period g'
         = Ok (m', g1') /\
         nth_error m' s = nth_error m s) /\
    (forall order m0,
       Permutation order (range n_simulations) ->
       np_zeros n_simulations forecast_period = Ok m0 ->
       paths_in_order mu omega alpha1 alpha2 beta1 beta2 last_vol
         forecast_period
         (fun s => advance g (s * Z.to_nat forecast_period)) order m0
       = Ok m).
Proof.
  intros Hin HN HT.
  assert (Hrow : forall (h : Rng) s, s < Z.to_nat n_simulations ->
            nth_error
              (map (fun sim =>
                      path_row mu omega alpha1 alpha2 beta1 beta2 last_vol
                        forecast_period (draws_of_path forecast_period h sim))
                 (range n_simulations)) s =
            Some (path_row mu omega alpha1 alpha2 beta1 beta2 last_vol
                    forecast_period (draws_of_path forecast_period h s))).
  { intros h s Hs. unfold range. rewrite nth_error_map, nth_error_seq.
    destruct (Nat.ltb_spec s (Z.to_nat n_simulations)); [|lia].
    reflexivity. }
  eexists. eexists. split.
  { apply monte_carlo_simulation_run with (1 := Hin); assumption. }
  split; [|split].
  - intros s Hs. apply Hrow. assumption.
  - intros g' s Hs Hdraws. eexists. eexists. split.
    { apply monte_carlo_simulation_run with (1 := Hin); assumption. }
    rewrite !Hrow by assumption. f_equal.
    apply path_row_ext. assumption.
  - intros order m0 Hperm Hm0.
    unfold np_zeros in Hm0. rewrite np_full_ok in Hm0 by assumption.
    injection Hm0 as <-.
    destruct (@paths_in_order_spec F num mu omega alpha1 alpha2 beta1 beta2
                last_vol forecast_period
                (fun s => advance g (s * Z.to_nat forecast_period))
                order (Z.to_nat n_simulations))
      with (m0 := repeat (repeat (of_int 0) (Z.to_nat forecast_period))
                    (Z.to_nat n_simulations))
      as (m & Hrun & [Hlen _] & Hnth).
    { apply Forall_forall. intros s Hs.
      apply (Permutation_in _ Hperm) in Hs. apply in_seq in Hs. lia. }
    { apply shape_repeat. }
    rewrite Hrun. f_equal. apply nth_error_ext. intros i. rewrite Hnth.
    destruct (Nat.lt_ge_cases i (Z.to_nat n_simulations)) as [Hi|Hi].
    + rewrite Hrow by assumption.
      destruct (in_dec Nat.eq_dec i order) as [_|Hn]; [reflexivity|].
      exfalso. apply Hn. apply (Permutation_in _ (Permutation_sym Hperm)).
      apply in_seq. lia.
    + destruct (in_dec Nat.eq_dec i order) as [Hi'|_].
      * apply (Permutation_in _ Hperm) in Hi'. apply in_seq in Hi'. lia.
      * transitivity (@None (list F)).
        -- apply nth_error_None. rewrite repeat_length. lia.
        -- symmetry. apply nth_error_None. unfold range.
           rewrite length_map, length_seq. lia.
Qed.

(** C5 on the sample fit: path 1 computed before path 0. *)
Lemma C5_paths_independent_witness :
  has_inputs sample_fit sample_mu sample_omega sample_alpha1 sample_alpha2
    sample_beta1 sample_beta2 sample_last_vol /\
  (0 <= 2)%Z /\ (0 <= 3)%Z /\
  Permutation [1; 0] (range 2) /\
  exists m g1,
    @monte_carlo_simulation float (binary64 sample_libm) sample_fit 2 3
      sample_rng = Ok (m, g1) /\
    @paths_in_order float (binary64 sample_libm) sample_mu sample_omega
      sample_alpha1 sample_alpha2 sample_beta1 sample_beta2 sample_last_vol 3
      (fun s => advance sample_rng (s * Z.to_nat 3)) [1; 0]
      (repeat (repeat 0%float 3) 2)
    = Ok m.
Proof.
  assert (Hperm : Permutation [1; 0] (range 2)) by apply perm_swap.
  split; [exact sample_has_inputs|]. split; [lia|]. split; [lia|].
  split; [exact Hperm|].
  destruct (@C5_paths_independent float (binary64 sample_libm) sample_fit
              sample_mu sample_omega sample_alpha1 sample_alpha2 sample_beta1
              sample_beta2 sample_last_vol 2%Z 3%Z sample_rng
              sample_has_inputs)
    as (m & g1 & Hrun & _ & _ & Horder); [lia|lia|].
  exists m, g1. split; [exact Hrun|].
  apply Horder; [exact Hperm|reflexivity].
Defined.

(** C9.  The preconditions [n_simulations >= 1] and [forecast_period >= 1]
    are not enforced: with [n_simulations = 0] the simulation returns the
    empty matrix [np.zeros((0, T))], with [forecast_period = 0] the matrix
    [np.zeros((N, 0))] of [N] empty rows; neither raises, the loop concerned
    ranges over nothing, and no draw is taken from the generator. *)
Theorem C9_zero_dimensions_not_rejected {F : Type} {num : Num F}
    (model_fit : ModelFit)
    (mu omega alpha1 alpha2 beta1 beta2 last_vol : F) (g : Rng) :
  has_inputs model_fit mu omega alpha1 alpha2 beta1 beta2 last_vol ->
  (forall forecast_period, (0 <= forecast_period)%Z ->
     monte_carlo_simulation model_fit 0 forecast_period g = Ok ([], g) /\
     np_zeros 0 forecast_period = Ok [] /\
     range 0 = []) /\
  (forall n_simulations, (0 <= n_simulations)%Z ->
     monte_carlo_simulation model_fit n_simulations 0 g
     = Ok (repeat [] (Z.to_nat n_simulations), g) /\
     np_zeros n_simulations 0 = Ok (repeat [] (Z.to_nat n_simulations)) /\
     range 0 = []).
Proof.
  intros Hin. split.
  - intros T HT. split; [|split]; try reflexivity.
    + rewrite (monte_carlo_simulation_run _ Hin) by (assumption || lia).
      simpl. rewrite advance_0. reflexivity.
    + unfold np_zeros. rewrite np_full_ok by (assumption || lia). reflexivity.
  - intros N HN. split; [|split]; try reflexivity.
    + rewrite (monte_carlo_simulation_run _ Hin) by (assumption || lia).
      rewrite Nat.mul_0_r, advance_0. f_equal. f_equal.
      unfold range, path_row, range. simpl.
      generalize (Z.to_nat N) at 1 2 as n. intros n.
      generalize 0 as start. induction n as [|n IH]; intros start; simpl;
        [reflexivity|]. f_equal. apply IH.
    + unfold np_zeros. rewrite np_full_ok by (assumption || lia). reflexivity.
Qed.

(** C9 on the sample fit: no paths of three steps, two paths of no step. *)
Lemma C9_zero_dimensions_not_rejected_witness :
  has_inputs sample_fit sample_mu sample_omega sample_alpha1 sample_alpha2
    sample_beta1 sample_beta2 sample_last_vol /\
  @monte_carlo_simulation float (binary64 sample_libm) sample_fit 0 3
    sample_rng = Ok ([], sample_rng) /\
  @monte_carlo_simulation float (binary64 sample_libm) sample_fit 2 0
    sample_rng = Ok ([[]; []], sample_rng).
Proof.
  split; [exact sample_has_inputs|].
  destruct (@C9_zero_dimensions_not_rejected float (binary64 sample_libm)
              sample_fit sample_mu sample_omega sample_alpha1 sample_alpha2
              sample_beta1 sample_beta2 sample_last_vol sample_rng
              sample_has_inputs) as [Hrows Hcols].
  split.
  - apply (Hrows 3%Z). lia.
  - apply (Hcols 2%Z). lia.
Defined.

(** ** Degenerate values *)




(** ** Defaults and percentile bounds *)

(** C7, as amended.  The defaults are [n_simulations = 10000] and
    [forecast_period = 21], and [main] calls the simulation with them.  The
    reporting stage takes [confidence_level = 0.99] and the percentile ranks
    [(1 - 0.99) / 2 * 100] and [(1 - (1 - 0.99) / 2) * 100]: 0.5 and 99.5
    over the reals; in binary64 the lower rank comes out as
    0.50000000000000044 and the upper as 99.5.  For every non-empty
    collection of real prices the two bounds exist and
    [lower_bound <= upper_bound].  In binary64 the bounds of the 10000
    prices of the default configuration exist and are ordered whenever every
    price is finite; a NaN among the prices makes both bounds NaN. *)
Theorem C7_defaults_and_ordered_bounds :
  n_simulations_default = 10000%Z /\
  forecast_period_default = 21%Z /\
  (forall (F : Type) (num : Num F) (model_fit : @ModelFit F) (g : Rng),
     monte_carlo_simulation_default model_fit g
     = monte_carlo_simulation model_fit 10000 21 g) /\
  @confidence_level R real = (99 / 100)%R /\
  (@lower_percentile R real * 100 = 1 / 2)%R /\
  (@upper_percentile R real * 100 = 199 / 2)%R /\
  (forall libm,
     @confidence_level float (binary64 libm) = 0x1.fae147ae147aep-1%float /\
     (@lower_percentile float (binary64 libm) * 100
      = 0x1.0000000000004p-1)%float /\
     (@upper_percentile float (binary64 libm) * 100 = 99.5)%float) /\
  (forall predicted_prices : list R,
     predicted_prices <> [] ->
     exists lower_bound upper_bound,
       @main_confidence_interval R real predicted_prices
       = Ok (lower_bound, upper_bound) /\
       @np_percentile R real predicted_prices (1 / 2)%R = Ok lower_bound /\
       @np_percentile R real predicted_prices (199 / 2)%R = Ok upper_bound /\
       (lower_bound <= upper_bound)%R) /\
  (forall libm (predicted_prices : list float),
     List.length predicted_prices = Z.to_nat n_simulations_default ->
     (forall x, In x predicted_prices -> PrimFloat.is_finite x = true) ->
     exists lower_bound upper_bound,
       @main_confidence_interval float (binary64 libm) predicted_prices
       = Ok (lower_bound, upper_bound) /\
       PrimFloat.leb lower_bound upper_bound = true) /\
  (forall libm (predicted_prices : list float),
     (exists x, In x predicted_prices /\ PrimFloat.is_nan x = true) ->
     @main_confidence_interval float (binary64 libm) predicted_prices
     = Ok (PrimFloat.nan, PrimFloat.nan) /\
     PrimFloat.leb PrimFloat.nan PrimFloat.nan = false).
Proof.
  destruct real_ranks as [Hlo Hup].
  repeat (split; [reflexivity || assumption|]). split; [|split; [|split]].
  - apply binary64_ranks.
  - apply real_bounds_ordered.
  - apply binary64_default_bounds_ordered.
  - apply binary64_nan_price_nan_bounds.
Qed.

(** Five real prices, and 10000 binary64 prices of 100: the bounds are
    ordered. *)
Lemma C7_defaults_and_ordered_bounds_witness :
  ([3; 1; 2; 10; 7]%R <> [] /\
   exists lower_bound upper_bound,
     @main_confidence_interval R real [3; 1; 2; 10; 7]%R
     = Ok (lower_bound, upper_bound) /\
     (lower_bound <= upper_bound)%R) /\
  (List.length (repeat 100%float (Z.to_nat n_simulations_default))
   = Z.to_nat n_simulations_default /\
   (forall x, In x (repeat 100%float (Z.to_nat n_simulations_default)) ->
      PrimFloat.is_finite x = true) /\
   exists lower_bound upper_bound,
     @main_confidence_interval float (binary64 sample_libm)
       (repeat 100%float (Z.to_nat n_simulations_default))
     = Ok (lower_bound, upper_bound) /\
     PrimFloat.leb lower_bound upper_bound = true).
Proof.
  destruct C7_defaults_and_ordered_bounds
    as (_ & _ & _ & _ & _ & _ & _ & Hbounds & Hbinary64 & _).
  split.
  - split; [discriminate|].
    destruct (Hbounds [3; 1; 2; 10; 7]%R) as (lo & up & Hci & _ & _ & Hle);
      [discriminate|].
    exists lo, up. split; assumption.
  - assert (Hlen : List.length
                     (repeat 100%float (Z.to_nat n_simulations_default))
                   = Z.to_nat n_simulations_default) by apply repeat_length.
    assert (Hfin : forall x,
               In x (repeat 100%float (Z.to_nat n_simulations_default)) ->
               PrimFloat.is_finite x = true).
    { intros x Hx. apply repeat_spec in Hx. subst x. reflexivity. }
    split; [exact Hlen|]. split; [exact Hfin|].
    exact (Hbinary64 sample_libm _ Hlen Hfin).
Defined.

(** C7, as stated, fails in binary64.  A NaN among the predicted prices,
    which the simulation can deliver, makes both bounds NaN, and
    [NaN <= NaN] does not hold.  An infinite price makes the upper bound
    NaN: [inf - inf * 0.005]; with the default 10000 prices, all of them
    infinite, both bounds are NaN.  And two finite prices whose difference
    overflows give the bounds [inf] and [-inf], in this order.  (And the
    lower rank the code computes is not the float 0.5.) *)
Lemma C7_nan_bounds_not_ordered :
  [PrimFloat.nan] <> [] /\
  @main_confidence_interval float (binary64 sample_libm) [PrimFloat.nan]
  = Ok (PrimFloat.nan, PrimFloat.nan) /\
  PrimFloat.leb PrimFloat.nan PrimFloat.nan = false /\
  @main_confidence_interval float (binary64 sample_libm)
    [120%float; PrimFloat.infinity]
  = Ok (PrimFloat.infinity, PrimFloat.nan) /\
  PrimFloat.leb PrimFloat.infinity PrimFloat.nan = false /\
  @main_confidence_interval float (binary64 sample_libm)
    (repeat PrimFloat.infinity (Z.to_nat n_simulations_default))
  = Ok (PrimFloat.nan, PrimFloat.nan) /\
  PrimFloat.is_finite (-0x1.fffffffffffffp+1023)%float = true /\
  PrimFloat.is_finite 0x1.fffffffffffffp+1023%float = true /\
  @main_confidence_interval float (binary64 sample_libm)
    [(-0x1.fffffffffffffp+1023)%float; 0x1.fffffffffffffp+1023%float]
  = Ok (PrimFloat.infinity, PrimFloat.neg_infinity) /\
  PrimFloat.leb PrimFloat.infinity PrimFloat.neg_infinity = false /\
  PrimFloat.eqb (@lower_percentile float (binary64 sample_libm) * 100)%float
    0.5%float = false /\
  ~ (forall predicted_prices : list float,
       predicted_prices <> [] ->
       exists lower_bound upper_bound,
         @main_confidence_interval float (binary64 sample_libm)
           predicted_prices = Ok (lower_bound, upper_bound) /\
         PrimFloat.leb lower_bound upper_bound = true).
Proof.
  split; [discriminate|]. split; [reflexivity|]. split; [reflexivity|].
  split; [vm_compute; reflexivity|]. split; [reflexivity|].
  split; [vm_compute; reflexivity|].
  split; [reflexivity|]. split; [reflexivity|].
  split; [vm_compute; reflexivity|]. split; [reflexivity|].
  split; [reflexivity|].
  intros H. destruct (H [PrimFloat.nan]) as (lo & up & Hci & Hle);
    [discriminate|].
  vm_compute in Hci. injection Hci as <- <-. discriminate.
Qed.

(** ** Missing coefficients *)

(** C8.  The simulation reads exactly [alpha[1]], [alpha[2]], [beta[1]] and
    [beta[2]] (after [mu] and [omega]): a model whose parameters lack one of
    them makes it raise [KeyError], for a label the model lacks, whatever
    the dimensions and the generator, so before any result.  Every order of
    the grid with [p < 2] or [q < 2] can be the one [find_best_model]
    returns, and the parameters arch names for such an order lack
    [alpha[2]] or [beta[2]]: [main] then stops at that [KeyError]. *)
Theorem C8_order_two_hard_coded :
  (forall (F : Type) (num : Num F) (model_fit : @ModelFit F)
      (n_simulations forecast_period : Z) (g : Rng),
      ~ has_label (params model_fit) "alpha[1]" \/
      ~ has_label (params model_fit) "alpha[2]" \/
      ~ has_label (params model_fit) "beta[1]" \/
      ~ has_label (params model_fit) "beta[2]" ->
      exists label,
        monte_carlo_simulation model_fit n_simulations forecast_period g
        = Raise (KeyError label) /\
        In label
          ["mu"; "omega"; "alpha[1]"; "alpha[2]"; "beta[1]"; "beta[2]"]%string
        /\ ~ has_label (params model_fit) label) /\
  (forall p q, In (p, q) grid -> (p < 2 \/ q < 2)%Z ->
     (exists arch_fit, find_best_model arch_fit = Some (p, q)) /\
     forall libm arch_fit model_fit g,
       find_best_model arch_fit = Some (p, q) ->
       arch_fit p q = Ok model_fit ->
       map fst (params model_fit) = egarch_param_names p q ->
       exists label,
         main_simulation libm arch_fit g = Raise (KeyError label) /\
         ~ has_label (params model_fit) label).
Proof.
  split.
  - intros F num model_fit n_simulations forecast_period g.
    apply monte_carlo_simulation_missing.
  - intros p q Hgrid Hlow. split.
    + exists (only_arch_fit p q).
      simpl in Hgrid.
      destruct Hgrid as [H|[H|[H|[H|[]]]]]; injection H as <- <-;
        reflexivity.
    + intros libm arch_fit model_fit g Hbest Hfit Hnames.
      unfold main_simulation. rewrite Hbest. cbn [unpack_order bind].
      rewrite Hfit. cbn [bind]. unfold monte_carlo_simulation_default.
      destruct (@monte_carlo_simulation_missing float (binary64 libm)
                  model_fit n_simulations_default forecast_period_default g)
        as (label & Hraise & _ & Hno).
      { destruct (low_order_lacks_label (params model_fit) Hgrid Hlow Hnames);
          auto. }
      exists label. auto.
Qed.

(** The model fitted at order (1, 1) lacks [alpha[2]]; the grid search can
    return (1, 1), and [main] then stops at the [KeyError]. *)
Lemma C8_order_two_hard_coded_witness :
  (exists label,
     @monte_carlo_simulation float (binary64 sample_libm) sample_fit_1_1 2 3
       sample_rng = Raise (KeyError label) /\
     ~ has_label (params sample_fit_1_1) label) /\
  find_best_model sample_arch_fit = Some (1, 1)%Z /\
  (exists label,
     main_simulation sample_libm sample_arch_fit sample_rng
     = Raise (KeyError label) /\
     ~ has_label (params sample_fit_1_1) label).
Proof.
  destruct C8_order_two_hard_coded as [Hmissing Hmain].
  split; [|split].
  - destruct (Hmissing float (binary64 sample_libm) sample_fit_1_1 2%Z 3%Z
                sample_rng) as (label & Hraise & _ & Hno).
    + right. left. intros [v Hv]. discriminate.
    + exists label. auto.
  - reflexivity.
  - destruct (Hmain 1%Z 1%Z) as [_ Hstop].
    + left. reflexivity.
    + left. lia.
    + apply (Hstop sample_libm sample_arch_fit sample_fit_1_1 sample_rng);
        reflexivity.
Defined.

(** ** Order selection *)



(** * Further properties

    Properties of the code beyond the claims above: of [calculate_returns],
    [find_best_model], [monte_carlo_simulation] and [main] of egarch_ibov.py,
    and of [rolling_seasonal_strength] of test_seasonality.py. *)

(** ** Lists *)

Lemma last_cons {A : Type} (x d : A) (l : list A) :
  last (x :: l) d = last l x.
Proof.
  revert x d. induction l as [|y l IH]; intros x d; [reflexivity|].
  change (last (x :: y :: l) d) with (last (y :: l) d).
  rewrite (IH y d), (IH y x). reflexivity.
Qed.

Lemma seq_offset (a b n : nat) :
  seq (a + b) n = map (fun i => a + i) (seq b n).
Proof.
  revert b; induction n as [|n IH]; intros b; simpl; auto.
  f_equal. rewrite <- IH. f_equal. lia.
Qed.

Lemma last_item_cons {F : Type} (x : F) (a : list F) :
  last_item (x :: a) = Ok (last a x).
Proof.
  unfold last_item.
  assert (H : x :: a <> []) by discriminate.
  destruct (exists_last H) as (l & y & Hl). rewrite Hl.
  rewrite rev_app_distr. simpl.
  f_equal. transitivity (last (x :: a) x).
  - rewrite Hl. symmetry. apply last_last.
  - apply last_cons.
Qed.

(** ** calculate_returns *)

Section ReturnsFacts.

Context {F : Type} {num : Num F}.
Local Open Scope num_scope.

Lemma get_column_raise (data : @DataFrame F) (name : string) (e : exn) :
  get_column data name = Raise e -> e = KeyError name.
Proof.
  induction data as [|[k column] data IH]; simpl.
  - congruence.
  - destruct (String.eqb k name); [discriminate|exact IH].
Qed.

(** Shifting, dividing, taking logarithms and dropping the missing rows
    leaves the log-returns between consecutive rows that are not NaN. *)
Lemma shifted_ratio_log (previous : F) (rows : @Series F) :
  dropna (series_log (series_div rows (shift_from (Some previous) rows)))
  = filter (fun row => negb (np_isnan (snd row)))
      (log_returns_from previous rows).
Proof.
  revert previous. induction rows as [|[label price] rows IH];
    intros previous; simpl; auto.
  rewrite IH. destruct (np_isnan (np_log (price / previous))); reflexivity.
Qed.

Lemma dropna_shifted (close : @Series F) :
  dropna (series_log (series_div close (shift1 close)))
  = filter (fun row => negb (np_isnan (snd row)))
      (consecutive_log_returns close).
Proof.
  destruct close as [|[label price] rows]; simpl; auto.
  apply shifted_ratio_log.
Qed.

Lemma length_log_returns_from (previous : F) (rows : @Series F) :
  List.length (log_returns_from previous rows) = List.length rows.
Proof.
  revert previous; induction rows as [|[label price] rows IH];
    intros previous; simpl; auto.
Qed.

Lemma labels_log_returns_from (previous : F) (rows : @Series F) :
  map fst (log_returns_from previous rows) = map fst rows.
Proof.
  revert previous; induction rows as [|[label price] rows IH];
    intros previous; simpl; auto. f_equal. apply IH.
Qed.

End ReturnsFacts.

(** X1.  [calculate_returns] raises [KeyError('Close')] when the data has no
    [Close] column.  Otherwise it returns, for every row but the first, the
    logarithm of its closing price over the closing price of the row before
    it, labelled by the row, and leaves out the rows where this is NaN: the
    result holds no NaN, has at most one row less than the data, and the
    label of the first row is not among its labels unless a later row bears
    it too. *)
Theorem X1_calculate_returns_consecutive_log_ratios
    {F : Type} {num : Num F} (data : @DataFrame F) :
  match get_column data "Close" with
  | Raise _ => calculate_returns data = Raise (KeyError "Close")
  | Ok close =>
      exists returns,
        calculate_returns data = Ok returns /\
        returns = filter (fun row => negb (np_isnan (snd row)))
                    (consecutive_log_returns close) /\
        Forall (fun row => np_isnan (snd row) = false) returns /\
        List.length returns <= List.length close - 1 /\
        (forall label, In label (map fst returns) ->
           In label (map fst (tl close)))
  end.
Proof.
  unfold calculate_returns.
  destruct (get_column data "Close") as [close|e] eqn:Hclose.
  - cbn [bind]. eexists. split; [reflexivity|].
    rewrite dropna_shifted.
    split; [reflexivity|]. split; [|split].
    + apply Forall_forall. intros row Hrow.
      apply filter_In in Hrow. destruct Hrow as [_ Hrow].
      apply negb_true_iff in Hrow. exact Hrow.
    + etransitivity; [apply filter_length_le|].
      destruct close as [|[label price] rows]; simpl; [lia|].
      rewrite length_log_returns_from. lia.
    + intros label Hlabel.
      apply in_map_iff in Hlabel. destruct Hlabel as (row & <- & Hrow).
      apply filter_In in Hrow. destruct Hrow as [Hrow _].
      destruct close as [|[label price] rows]; simpl in *; [contradiction|].
      rewrite <- (labels_log_returns_from price rows).
      apply in_map. exact Hrow.
  - cbn [bind]. rewrite (get_column_raise _ _ Hclose). reflexivity.
Qed.

Section RealReturnsFacts.

Local Open Scope R_scope.

Lemma filter_notnan_real (s : @Series R) :
  filter (fun row => negb (@np_isnan R real (snd row))) s = s.
Proof.
  induction s as [|row s IH]; simpl; auto. f_equal. exact IH.
Qed.

(** The log-returns of positive prices add up to the logarithm of the last
    price minus that of the first. *)
Lemma log_returns_telescope (previous : R) (rows : @Series R) :
  0 < previous ->
  Forall (fun row => 0 < snd row) rows ->
  real_sum (map snd (@log_returns_from R real previous rows))
  = ln (last (map snd rows) previous) - ln previous.
Proof.
  intros Hprev Hrows. revert previous Hprev.
  induction Hrows as [|[label price] rows Hprice Hrows IH];
    intros previous Hprev.
  - simpl. lra.
  - cbn [log_returns_from map snd real_sum fold_right].
    fold (real_sum (map snd (@log_returns_from R real price rows))).
    cbn [snd] in Hprice. rewrite (IH price Hprice).
    cbn [real np_log div].
    unfold Rdiv. rewrite ln_mult by (auto using Rinv_0_lt_compat).
    rewrite ln_Rinv by assumption.
    rewrite last_cons. lra.
Qed.

Lemma last_positive (first_price : R) (rows : @Series R) :
  0 < first_price ->
  Forall (fun row => 0 < snd row) rows ->
  0 < last (map snd rows) first_price.
Proof.
  intros Hfirst Hrows. revert first_price Hfirst.
  induction Hrows as [|[label price] rows Hprice Hrows IH];
    intros first_price Hfirst; [exact Hfirst|].
  cbn [map snd] in *. rewrite last_cons. apply IH. exact Hprice.
Qed.

End RealReturnsFacts.

(** X2.  Over the reals, for positive closing prices, [calculate_returns]
    returns one log-return for every row but the first, labelled by the row,
    and the returns compound to the last price: the first price times the
    exponential of their sum is the last price. *)
Theorem X2_log_returns_compound_to_the_last_price
    (data : @DataFrame R) (first_label : string) (first_price : R)
    (rows : @Series R) :
  get_column data "Close" = Ok ((first_label, first_price) :: rows) ->
  (0 < first_price)%R ->
  Forall (fun row => (0 < snd row)%R) rows ->
  exists returns,
    @calculate_returns R real data = Ok returns /\
    map fst returns = map fst rows /\
    (first_price * exp (real_sum (map snd returns))
     = last (map snd rows) first_price)%R.
Proof.
  intros Hclose Hfirst Hrows.
  unfold calculate_returns. rewrite Hclose. cbn [bind].
  eexists. split; [reflexivity|].
  rewrite dropna_shifted, filter_notnan_real.
  cbn [consecutive_log_returns].
  split; [apply labels_log_returns_from|].
  rewrite log_returns_telescope by assumption.
  pose proof (last_positive Hfirst Hrows) as Hlast.
  unfold Rminus. rewrite exp_plus, exp_ln by assumption.
  rewrite exp_Ropp, exp_ln by assumption.
  field. lra.
Qed.

(** X2 on three days of prices: 100, 110, 121. *)
Lemma X2_log_returns_compound_to_the_last_price_witness :
  get_column real_data "Close"
  = Ok [("d0", 100); ("d1", 110); ("d2", 121)]%string%R /\
  (0 < 100)%R /\
  Forall (fun row => (0 < snd row)%R) [("d1", 110); ("d2", 121)]%string%R /\
  exists returns,
    @calculate_returns R real real_data = Ok returns /\
    map fst returns = ["d1"; "d2"]%string /\
    (100 * exp (real_sum (map snd returns)) = 121)%R.
Proof.
  assert (H1 : get_column real_data "Close"
               = Ok [("d0", 100); ("d1", 110); ("d2", 121)]%string%R)
    by reflexivity.
  assert (H2 : (0 < 100)%R) by lra.
  assert (H3 : Forall (fun row => (0 < snd row)%R)
                 [("d1", 110); ("d2", 121)]%string%R).
  { repeat constructor; simpl; lra. }
  split; [exact H1|]. split; [exact H2|]. split; [exact H3|].
  exact (X2_log_returns_compound_to_the_last_price real_data H1 H2 H3).
Defined.

(** Zero divided by a positive finite number is zero. *)
Lemma zero_div_positive (p : float) :
  PrimFloat.ltb 0 p = true -> PrimFloat.is_finite p = true ->
  (0 / p)%float = 0%float.
Proof.
  rewrite ltb_spec, is_finite_spec, Prim2SF_zero. intros Hpos Hfin.
  apply Prim2SF_inj. rewrite div_spec, Prim2SF_zero.
  destruct (Prim2SF p) as [s|s| |s m e]; try discriminate.
  destruct s; [discriminate|]. reflexivity.
Qed.

(** X3.  In binary64, on a libm with the IEEE special values, a closing
    price of zero after a positive finite one is not rejected and its row is
    not dropped: [calculate_returns] returns, and the row is in the result
    with the log-return [-inf] ([dropna] drops NaN only). *)
Theorem X3_zero_price_gives_minus_infinity_return (libm : Libm)
    (data : @DataFrame float) (close : @Series float)
    (before after : @Series float) (label_p label_0 : string) (p : float) :
  ieee_special_values libm ->
  get_column data "Close" = Ok close ->
  close = before ++ (label_p, p) :: (label_0, 0%float) :: after ->
  PrimFloat.ltb 0 p = true -> PrimFloat.is_finite p = true ->
  exists returns,
    @calculate_returns float (binary64 libm) data = Ok returns /\
    In (label_0, PrimFloat.neg_infinity) returns.
Proof.
  intros (Hlog0 & _) Hclose Hrows Hpos Hfin.
  unfold calculate_returns. rewrite Hclose. cbn [bind].
  eexists. split; [reflexivity|].
  rewrite dropna_shifted. apply filter_In. split; [|reflexivity].
  subst close.
  assert (Hin : forall previous rows,
            In (label_0, PrimFloat.neg_infinity)
              (@log_returns_from float (binary64 libm) previous
                 (rows ++ (label_p, p) :: (label_0, 0%float) :: after))).
  { intros previous rows. revert previous.
    induction rows as [|[label price] rows IH]; intros previous.
    - cbn [app log_returns_from]. right. left.
      cbn [binary64 np_log div]. rewrite zero_div_positive by assumption.
      rewrite Hlog0. reflexivity.
    - cbn [app log_returns_from]. right. apply IH. }
  destruct before as [|[label price] before].
  - cbn [app consecutive_log_returns log_returns_from]. left.
    cbn [binary64 np_log div]. rewrite zero_div_positive by assumption.
    rewrite Hlog0. reflexivity.
  - cbn [app consecutive_log_returns]. apply Hin.
Qed.

(** X3 on the closing prices 100, 0, 50. *)
Lemma X3_zero_price_gives_minus_infinity_return_witness :
  ieee_special_values sample_libm /\
  get_column data_with_zero_price "Close"
  = Ok [("d0", 100); ("d1", 0); ("d2", 50)]%string%float /\
  PrimFloat.ltb 0 100 = true /\ PrimFloat.is_finite 100 = true /\
  exists returns,
    @calculate_returns float (binary64 sample_libm) data_with_zero_price
    = Ok returns /\
    In ("d1"%string, PrimFloat.neg_infinity) returns.
Proof.
  assert (H1 : get_column data_with_zero_price "Close"
               = Ok [("d0", 100); ("d1", 0); ("d2", 50)]%string%float)
    by reflexivity.
  assert (H2 : PrimFloat.ltb 0 100 = true) by reflexivity.
  assert (H3 : PrimFloat.is_finite 100 = true) by reflexivity.
  split; [exact sample_libm_special_values|]. split; [exact H1|].
  split; [exact H2|]. split; [exact H3|].
  exact (@X3_zero_price_gives_minus_infinity_return sample_libm
           data_with_zero_price _ [] [("d2", 50%float)]%string "d0" "d1"
           100%float sample_libm_special_values H1 eq_refl H2 H3).
Defined.

(** ** find_best_model: the AIC a selected order has *)

Lemma ltb_infinity_not_nan (x : float) :
  PrimFloat.ltb x PrimFloat.infinity = true ->
  PrimFloat.is_nan x = false /\ x <> PrimFloat.infinity.
Proof.
  intros Hlt. split.
  - destruct (PrimFloat.is_nan x) eqn:Hnan; [|reflexivity].
    rewrite (is_nan_true _ Hnan) in Hlt. discriminate Hlt.
  - intros ->. discriminate Hlt.
Qed.

(** X4.  [find_best_model] returns [None] exactly when no candidate of the
    grid has a fit that returns with an AIC below [+inf]: a fit whose AIC is
    NaN or [+inf] counts like a fit that raised.  The AIC of a selected
    order is neither NaN nor [+inf].  When every fit that returns has a NaN
    AIC, [main] stops at the [TypeError] of the unpacking. *)
Theorem X4_find_best_model_needs_an_aic_below_infinity
    (arch_fit : Z -> Z -> result (@ModelFit float)) :
  (find_best_model arch_fit = None <->
   forall p q results,
     In (p, q) grid -> arch_fit p q = Ok results ->
     PrimFloat.ltb (aic results) PrimFloat.infinity = false) /\
  (forall p q results,
     find_best_model arch_fit = Some (p, q) ->
     arch_fit p q = Ok results ->
     PrimFloat.is_nan (aic results) = false /\
     aic results <> PrimFloat.infinity) /\
  ((forall p q results,
      In (p, q) grid -> arch_fit p q = Ok results ->
      PrimFloat.is_nan (aic results) = true) ->
   forall libm g, main_simulation libm arch_fit g = Raise TypeError).
Proof.
  assert (Hinv := select_invariant arch_fit grid).
  assert (Hnone :
    find_best_model arch_fit = None <->
    forall p q results,
      In (p, q) grid -> arch_fit p q = Ok results ->
      PrimFloat.ltb (aic results) PrimFloat.infinity = false).
  { rewrite find_best_model_grid.
    destruct (select arch_fit grid (PrimFloat.infinity, None)) as [b o].
    destruct Hinv as [Hmin Hbest]. cbn [fst snd] in Hmin, Hbest |- *. split.
    - intros ->. subst b. exact Hmin.
    - intros Hall. destruct o as [[p q]|]; [|reflexivity].
      destruct Hbest as (before & after & r & Hgrid & Hfit & _ & Hlt & _).
      rewrite (Hall p q r) in Hlt; [discriminate|..|exact Hfit].
      rewrite Hgrid. apply in_or_app. right. left. reflexivity. }
  split; [exact Hnone|]. split.
  - rewrite find_best_model_grid.
    destruct (select arch_fit grid (PrimFloat.infinity, None)) as [b o].
    destruct Hinv as [_ Hbest]. cbn [fst snd] in Hbest |- *.
    intros p q results -> Hfit.
    destruct Hbest as (before & after & r & _ & Hfit' & _ & Hlt & _).
    assert (r = results) by congruence. subst r.
    apply ltb_infinity_not_nan. exact Hlt.
  - intros Hall libm g. unfold main_simulation.
    replace (find_best_model arch_fit) with (@None (Z * Z)); [reflexivity|].
    symmetry. apply Hnone. intros p q results Hin Hfit.
    rewrite (is_nan_true _ (Hall p q results Hin Hfit)). reflexivity.
Qed.

(** X4 on a fit that returns a NaN AIC at every order. *)
Lemma X4_find_best_model_needs_an_aic_below_infinity_witness :
  (forall p q results,
     In (p, q) grid -> nan_aic_arch_fit p q = Ok results ->
     PrimFloat.is_nan (aic results) = true) /\
  find_best_model nan_aic_arch_fit = None /\
  main_simulation sample_libm nan_aic_arch_fit sample_rng = Raise TypeError.
Proof.
  assert (H : forall p q results,
            In (p, q) grid -> nan_aic_arch_fit p q = Ok results ->
            PrimFloat.is_nan (aic results) = true).
  { intros p q results _ Hfit. injection Hfit as <-. reflexivity. }
  split; [exact H|]. split; [reflexivity|].
  destruct (X4_find_best_model_needs_an_aic_below_infinity nan_aic_arch_fit)
    as (_ & _ & Hmain).
  apply (Hmain H).
Defined.

(** ** monte_carlo_simulation: exceptions, successive runs *)

Section MoreSimulationFacts.

Context {F : Type} {num : Num F}.
Local Open Scope num_scope.

Lemma getitem_cases (s : @Series F) (label : string) :
  (exists v, getitem s label = Ok v)
  \/ getitem s label = Raise (KeyError label).
Proof.
  destruct (getitem s label) as [v|e] eqn:H.
  - left. eauto.
  - right. destruct (getitem_raise _ _ H) as [-> _]. reflexivity.
Qed.

(** The rows of path returns have the shape of the run. *)
Lemma shape_rows (mu omega alpha1 alpha2 beta1 beta2 last_vol : F)
    (n_simulations forecast_period : Z) (draws : nat -> nat -> F) :
  shape
    (map (fun sim =>
            path_row mu omega alpha1 alpha2 beta1 beta2 last_vol
              forecast_period (draws sim))
       (range n_simulations))
    (Z.to_nat n_simulations) (Z.to_nat forecast_period).
Proof.
  unfold range. split.
  - rewrite length_map, length_seq. reflexivity.
  - apply Forall_forall. intros row Hrow.
    apply in_map_iff in Hrow. destruct Hrow as (s & <- & _).
    apply length_path_row.
Qed.

(** The entries of a run, by the draws of their path. *)
Lemma monte_carlo_simulation_entries (model_fit : ModelFit)
    (mu omega alpha1 alpha2 beta1 beta2 last_vol : F)
    (n_simulations forecast_period : Z) (g : Rng) :
  has_inputs model_fit mu omega alpha1 alpha2 beta1 beta2 last_vol ->
  (0 <= n_simulations)%Z -> (0 <= forecast_period)%Z ->
  exists m g',
    monte_carlo_simulation model_fit n_simulations forecast_period g
    = Ok (m, g') /\
    forall s t,
      s < Z.to_nat n_simulations -> t < Z.to_nat forecast_period ->
      getitem2 m s t =
      Some (path_return mu omega alpha1 alpha2 beta1 beta2 last_vol
              (draws_of_path forecast_period g s) t).
Proof.
  intros Hin HN HT. do 2 eexists. split.
  - apply monte_carlo_simulation_run with (1 := Hin); assumption.
  - intros s t Hs Ht. apply getitem2_rows; assumption.
Qed.

End MoreSimulationFacts.

(** X5.  The exceptions of [monte_carlo_simulation], in the order the code
    meets them: the first of [mu], [omega], [alpha[1]], [alpha[2]],
    [beta[1]], [beta[2]] that the parameters lack is a [KeyError] for that
    label, whatever the dimensions and the volatilities; with the six
    present, a negative dimension is [np.zeros]'s [ValueError]; with
    non-negative dimensions, an empty [conditional_volatility] is an
    [IndexError]; otherwise the simulation returns a matrix of
    [n_simulations] rows and [forecast_period] columns and leaves the
    generator [n_simulations * forecast_period] draws further. *)
Theorem X5_simulation_exception_order {F : Type} {num : Num F}
    (model_fit : ModelFit) (n_simulations forecast_period : Z) (g : Rng) :
  match first_missing (params model_fit) simulation_labels with
  | Some label =>
      monte_carlo_simulation model_fit n_simulations forecast_period g
      = Raise (KeyError label)
  | None =>
      if ((n_simulations <? 0) || (forecast_period <? 0))%Z then
        monte_carlo_simulation model_fit n_simulations forecast_period g
        = Raise ValueError
      else
        match conditional_volatility model_fit with
        | [] =>
            monte_carlo_simulation model_fit n_simulations forecast_period g
            = Raise IndexError
        | _ :: _ =>
            exists m,
              monte_carlo_simulation model_fit n_simulations forecast_period g
              = Ok (m, advance g (Z.to_nat n_simulations
                                  * Z.to_nat forecast_period)) /\
              shape m (Z.to_nat n_simulations) (Z.to_nat forecast_period)
        end
  end.
Proof.
  unfold first_missing, simulation_labels. cbn [find].
  destruct (getitem_cases (params model_fit) "mu") as [[mu Hmu]|Hmu];
    rewrite Hmu; [|unfold monte_carlo_simulation; rewrite Hmu; reflexivity].
  destruct (getitem_cases (params model_fit) "omega") as [[omega Ho]|Ho];
    rewrite Ho;
    [|unfold monte_carlo_simulation; rewrite Hmu, Ho; reflexivity].
  destruct (getitem_cases (params model_fit) "alpha[1]") as [[a1 Ha1]|Ha1];
    rewrite Ha1;
    [|unfold monte_carlo_simulation; rewrite Hmu, Ho, Ha1; reflexivity].
  destruct (getitem_cases (params model_fit) "alpha[2]") as [[a2 Ha2]|Ha2];
    rewrite Ha2;
    [|unfold monte_carlo_simulation; rewrite Hmu, Ho, Ha1, Ha2; reflexivity].
  destruct (getitem_cases (params model_fit) "beta[1]") as [[b1 Hb1]|Hb1];
    rewrite Hb1;
    [|unfold monte_carlo_simulation; rewrite Hmu, Ho, Ha1, Ha2, Hb1;
      reflexivity].
  destruct (getitem_cases (params model_fit) "beta[2]") as [[b2 Hb2]|Hb2];
    rewrite Hb2;
    [|unfold monte_carlo_simulation; rewrite Hmu, Ho, Ha1, Ha2, Hb1, Hb2;
      reflexivity].
  destruct ((n_simulations <? 0) || (forecast_period <? 0))%Z eqn:Hneg.
  - unfold monte_carlo_simulation.
    rewrite Hmu, Ho, Ha1, Ha2, Hb1, Hb2. cbn [bind].
    unfold np_zeros, np_full. rewrite Hneg. reflexivity.
  - apply orb_false_iff in Hneg. destruct Hneg as [HN HT].
    apply Z.ltb_ge in HN, HT.
    destruct (conditional_volatility model_fit) as [|x a] eqn:Hcv.
    + unfold monte_carlo_simulation.
      rewrite Hmu, Ho, Ha1, Ha2, Hb1, Hb2. cbn [bind].
      unfold np_zeros. rewrite np_full_ok by assumption. cbn [bind].
      rewrite Hcv. reflexivity.
    + eexists. split.
      * apply monte_carlo_simulation_run
          with (mu := mu) (omega := omega) (alpha1 := a1) (alpha2 := a2)
               (beta1 := b1) (beta2 := b2) (last_vol := last a x);
          try assumption.
        unfold has_inputs. rewrite Hcv, last_item_cons.
        repeat split; assumption.
      * apply shape_rows.
Qed.

(** X6.  Successive runs compose: a run of [n1] paths followed, on the
    generator it leaves, by a run of [n2] paths gives the rows of one run of
    [n1 + n2] paths and leaves the generator in the same state, every path
    having taken [forecast_period] draws. *)
Theorem X6_successive_runs_compose {F : Type} {num : Num F}
    (model_fit : ModelFit)
    (mu omega alpha1 alpha2 beta1 beta2 last_vol : F)
    (n1 n2 forecast_period : Z) (g : Rng) :
  has_inputs model_fit mu omega alpha1 alpha2 beta1 beta2 last_vol ->
  (0 <= n1)%Z -> (0 <= n2)%Z -> (0 <= forecast_period)%Z ->
  exists m1 g1 m2 g2,
    monte_carlo_simulation model_fit n1 forecast_period g = Ok (m1, g1) /\
    monte_carlo_simulation model_fit n2 forecast_period g1 = Ok (m2, g2) /\
    monte_carlo_simulation model_fit (n1 + n2) forecast_period g
    = Ok (m1 ++ m2, g2) /\
    stream g2 = stream g /\
    taken g2
    = taken g + Z.to_nat (n1 + n2) * Z.to_nat forecast_period.
Proof.
  intros Hin H1 H2 HT.
  do 4 eexists. split; [|split; [|split; [|split]]].
  - apply monte_carlo_simulation_run with (1 := Hin); assumption.
  - apply monte_carlo_simulation_run with (1 := Hin); assumption.
  - rewrite (@monte_carlo_simulation_run F num model_fit mu omega alpha1
               alpha2 beta1 beta2 last_vol (n1 + n2)%Z forecast_period g Hin)
      by lia.
    f_equal. f_equal.
    + unfold range. rewrite Z2Nat.inj_add by assumption.
      rewrite seq_app, map_app. f_equal.
      cbn [Nat.add]. rewrite <- (Nat.add_0_r (Z.to_nat n1)) at 1.
      rewrite seq_offset, map_map.
      apply map_ext. intros s. apply path_row_ext. intros t _.
      unfold draws_of_path, advance. cbn [stream taken].
      f_equal. lia.
    + rewrite advance_advance. f_equal.
      rewrite Z2Nat.inj_add by assumption. lia.
  - reflexivity.
  - cbn [advance taken]. rewrite Z2Nat.inj_add by assumption. lia.
Qed.

(** X6 on the sample fit: one path of three steps, then two more. *)
Lemma X6_successive_runs_compose_witness :
  has_inputs sample_fit sample_mu sample_omega sample_alpha1 sample_alpha2
    sample_beta1 sample_beta2 sample_last_vol /\
  (0 <= 1)%Z /\ (0 <= 2)%Z /\ (0 <= 3)%Z /\
  exists m1 g1 m2 g2,
    @monte_carlo_simulation float (binary64 sample_libm) sample_fit 1 3
      sample_rng = Ok (m1, g1) /\
    @monte_carlo_simulation float (binary64 sample_libm) sample_fit 2 3 g1
    = Ok (m2, g2) /\
    @monte_carlo_simulation float (binary64 sample_libm) sample_fit (1 + 2) 3
      sample_rng = Ok (m1 ++ m2, g2).
Proof.
  split; [exact sample_has_inputs|].
  split; [lia|]. split; [lia|]. split; [lia|].
  destruct (@X6_successive_runs_compose float (binary64 sample_libm)
              sample_fit _ _ _ _ _ _ _ 1 2 3 sample_rng sample_has_inputs)
    as (m1 & g1 & m2 & g2 & Hr1 & Hr2 & Hr & _); [lia|lia|lia|].
  exists m1, g1, m2, g2. repeat split; assumption.
Defined.

(** ** monte_carlo_simulation: the sign of the shocks *)

(** The log-variance of a path depends on the absolute values of its draws
    only. *)
Lemma path_log_sigma2_abs_ext {F : Type} {num : Num F}
    (omega alpha1 alpha2 beta1 beta2 last_vol : F)
    (zs zs' : nat -> F) (t : nat) :
  (forall i, i < t -> fabs (zs i) = fabs (zs' i)) ->
  path_log_sigma2 omega alpha1 alpha2 beta1 beta2 last_vol zs t =
  path_log_sigma2 omega alpha1 alpha2 beta1 beta2 last_vol zs' t.
Proof.
  induction t as [|t IH]; intros Hzs; simpl; auto.
  rewrite IH by (intros; apply Hzs; lia).
  rewrite (Hzs t) by lia. reflexivity.
Qed.

Lemma abs_opp (z : float) : PrimFloat.abs (PrimFloat.opp z) = PrimFloat.abs z.
Proof.
  apply Prim2SF_inj. rewrite !abs_spec, opp_spec.
  destruct (Prim2SF z); reflexivity.
Qed.

Lemma mirrored_has_draws (forecast_period : Z) (g : @Rng float) (s t : nat) :
  draws_of_path forecast_period (mirrored g) s t
  = PrimFloat.opp (draws_of_path forecast_period g s t).
Proof. reflexivity. Qed.

(** X7.  The simulated volatility does not see the sign of the shocks (the
    update has no leverage term): a run on the draws of [g] with the signs
    flipped has, at every step of every path, the same volatility [sigma] as
    the run on [g], in binary64 and over the reals.  Its entry is
    [mu - 0.5 * sigma ** 2 + sigma * (-z)] where the run on [g] has
    [mu - 0.5 * sigma ** 2 + sigma * z]; over the reals the two entries add
    up to [2 * (mu - sigma ^ 2 / 2)]. *)
Theorem X7_volatility_ignores_the_sign_of_shocks :
  (forall (libm : Libm) (model_fit : @ModelFit float)
      (mu omega alpha1 alpha2 beta1 beta2 last_vol : float)
      (n_simulations forecast_period : Z) (g : Rng),
      has_inputs model_fit mu omega alpha1 alpha2 beta1 beta2 last_vol ->
      (0 <= n_simulations)%Z -> (0 <= forecast_period)%Z ->
      exists m g1 m' g1',
        @monte_carlo_simulation float (binary64 libm) model_fit n_simulations
          forecast_period g = Ok (m, g1) /\
        @monte_carlo_simulation float (binary64 libm) model_fit n_simulations
          forecast_period (mirrored g) = Ok (m', g1') /\
        forall s t,
          s < Z.to_nat n_simulations -> t < Z.to_nat forecast_period ->
          let z := stream g (taken g + s * Z.to_nat forecast_period + t) in
          let sigma :=
            @path_sigma float (binary64 libm) omega alpha1 alpha2 beta1 beta2
              last_vol (draws_of_path forecast_period g s) t in
          @path_sigma float (binary64 libm) omega alpha1 alpha2 beta1 beta2
            last_vol (draws_of_path forecast_period (mirrored g) s) t
          = sigma /\
          getitem2 m s t
          = Some (mu - 0.5 * libm_pow libm sigma 2 + sigma * z)%float /\
          getitem2 m' s t
          = Some (mu - 0.5 * libm_pow libm sigma 2 + sigma * (- z))%float) /\
  (forall (model_fit : @ModelFit R)
      (mu omega alpha1 alpha2 beta1 beta2 last_vol : R)
      (n_simulations forecast_period : Z) (g : Rng),
      has_inputs model_fit mu omega alpha1 alpha2 beta1 beta2 last_vol ->
      (0 <= n_simulations)%Z -> (0 <= forecast_period)%Z ->
      exists m g1 m' g1',
        @monte_carlo_simulation R real model_fit n_simulations
          forecast_period g = Ok (m, g1) /\
        @monte_carlo_simulation R real model_fit n_simulations
          forecast_period (real_mirrored g) = Ok (m', g1') /\
        forall s t,
          s < Z.to_nat n_simulations -> t < Z.to_nat forecast_period ->
          let sigma :=
            @path_sigma R real omega alpha1 alpha2 beta1 beta2
              last_vol (draws_of_path forecast_period g s) t in
          @path_sigma R real omega alpha1 alpha2 beta1 beta2
            last_vol (draws_of_path forecast_period (real_mirrored g) s) t
          = sigma /\
          exists r r',
            getitem2 m s t = Some r /\ getitem2 m' s t = Some r' /\
            (r + r' = 2 * (mu - 1 / 2 * powerRZ sigma 2))%R).
Proof.
  split.
  - intros libm model_fit mu omega alpha1 alpha2 beta1 beta2 last_vol
      n_simulations forecast_period g Hin HN HT.
    destruct (@monte_carlo_simulation_entries float (binary64 libm) model_fit
                mu omega alpha1 alpha2 beta1 beta2 last_vol n_simulations
                forecast_period g Hin HN HT) as (m & g1 & Hrun & Hm).
    destruct (@monte_carlo_simulation_entries float (binary64 libm) model_fit
                mu omega alpha1 alpha2 beta1 beta2 last_vol n_simulations
                forecast_period (mirrored g) Hin HN HT)
      as (m' & g1' & Hrun' & Hm').
    exists m, g1, m', g1'. split; [exact Hrun|]. split; [exact Hrun'|].
    intros s t Hs Ht. cbv zeta.
    assert (Hsigma :
      @path_sigma float (binary64 libm) omega alpha1 alpha2 beta1 beta2
        last_vol (draws_of_path forecast_period (mirrored g) s) t
      = @path_sigma float (binary64 libm) omega alpha1 alpha2 beta1 beta2
          last_vol (draws_of_path forecast_period g s) t).
    { unfold path_sigma. do 2 f_equal.
      apply path_log_sigma2_abs_ext. intros i _.
      rewrite mirrored_has_draws. cbn [binary64 fabs]. apply abs_opp. }
    split; [exact Hsigma|]. split.
    + rewrite (Hm s t Hs Ht). reflexivity.
    + rewrite (Hm' s t Hs Ht). unfold path_return. rewrite Hsigma.
      rewrite mirrored_has_draws. reflexivity.
  - intros model_fit mu omega alpha1 alpha2 beta1 beta2 last_vol
      n_simulations forecast_period g Hin HN HT.
    destruct (@monte_carlo_simulation_entries R real model_fit
                mu omega alpha1 alpha2 beta1 beta2 last_vol n_simulations
                forecast_period g Hin HN HT) as (m & g1 & Hrun & Hm).
    destruct (@monte_carlo_simulation_entries R real model_fit
                mu omega alpha1 alpha2 beta1 beta2 last_vol n_simulations
                forecast_period (real_mirrored g) Hin HN HT)
      as (m' & g1' & Hrun' & Hm').
    exists m, g1, m', g1'. split; [exact Hrun|]. split; [exact Hrun'|].
    intros s t Hs Ht. cbv zeta.
    assert (Hsigma :
      @path_sigma R real omega alpha1 alpha2 beta1 beta2
        last_vol (draws_of_path forecast_period (real_mirrored g) s) t
      = @path_sigma R real omega alpha1 alpha2 beta1 beta2
          last_vol (draws_of_path forecast_period g s) t).
    { unfold path_sigma. do 2 f_equal.
      apply path_log_sigma2_abs_ext. intros i _.
      unfold draws_of_path, real_mirrored. cbn [real fabs stream taken].
      apply Rabs_Ropp. }
    split; [exact Hsigma|].
    do 2 eexists. split; [apply (Hm s t Hs Ht)|].
    split; [apply (Hm' s t Hs Ht)|].
    unfold path_return. rewrite Hsigma.
    change (draws_of_path forecast_period (real_mirrored g) s t)
      with (- draws_of_path forecast_period g s t)%R.
    generalize (draws_of_path forecast_period g s t) as z.
    generalize (@path_sigma R real omega alpha1 alpha2 beta1 beta2 last_vol
                  (draws_of_path forecast_period g s) t) as sigma.
    intros sigma z. cbn [real add sub mul pow lit_0_5].
    generalize (powerRZ sigma 2) as v. intros v. ring.
Qed.

(** X7 on the sample fit, two paths of three steps. *)
Lemma X7_volatility_ignores_the_sign_of_shocks_witness :
  has_inputs sample_fit sample_mu sample_omega sample_alpha1 sample_alpha2
    sample_beta1 sample_beta2 sample_last_vol /\
  (0 <= 2)%Z /\ (0 <= 3)%Z /\
  exists m g1 m' g1',
    @monte_carlo_simulation float (binary64 sample_libm) sample_fit 2 3
      sample_rng = Ok (m, g1) /\
    @monte_carlo_simulation float (binary64 sample_libm) sample_fit 2 3
      (mirrored sample_rng) = Ok (m', g1').
Proof.
  split; [exact sample_has_inputs|]. split; [lia|]. split; [lia|].
  destruct X7_volatility_ignores_the_sign_of_shocks as [Hfloat _].
  destruct (Hfloat sample_libm sample_fit _ _ _ _ _ _ _ 2%Z 3%Z sample_rng
              sample_has_inputs)
    as (m & g1 & m' & g1' & Hr & Hr' & _); [lia|lia|].
  exists m, g1, m', g1'. split; assumption.
Defined.

(** ** monte_carlo_simulation: the log-variance in closed form *)

Section RealSums.

Local Open Scope R_scope.

Lemma fold_right_Rplus_acc (l : list R) (a : R) :
  fold_right Rplus a l = fold_right Rplus 0 l + a.
Proof. induction l as [|x l IH]; simpl; [|rewrite IH]; lra. Qed.

Lemma real_sum_upto_S (f : nat -> R) (n : nat) :
  real_sum_upto f (S n) = real_sum_upto f n + f n.
Proof.
  unfold real_sum_upto. rewrite seq_S, map_app, fold_right_app.
  cbn [map fold_right Nat.add]. rewrite fold_right_Rplus_acc. lra.
Qed.

Lemma real_sum_upto_ext (f f' : nat -> R) (n : nat) :
  (forall k, (k < n)%nat -> f k = f' k) ->
  real_sum_upto f n = real_sum_upto f' n.
Proof.
  intros H. unfold real_sum_upto. f_equal. apply map_ext_in.
  intros k Hk. apply in_seq in Hk. apply H. lia.
Qed.

Lemma real_sum_upto_scale (c : R) (f : nat -> R) (n : nat) :
  c * real_sum_upto f n = real_sum_upto (fun k => c * f k) n.
Proof.
  induction n as [|n IH].
  - unfold real_sum_upto. simpl. lra.
  - rewrite !real_sum_upto_S, <- IH. lra.
Qed.

(** The recursion of the log-variance, solved. *)
Lemma path_log_sigma2_closed_form
    (omega alpha1 alpha2 beta1 beta2 last_vol : R) (zs : nat -> R) (t : nat) :
  @path_log_sigma2 R real omega alpha1 alpha2 beta1 beta2 last_vol zs t =
  (beta1 + beta2) ^ t * ln (powerRZ last_vol 2)
  + real_sum_upto
      (fun k =>
         (beta1 + beta2) ^ (t - 1 - k)
         * (omega
            + (alpha1 + alpha2) * (Rabs (zs k) - R_sqrt.sqrt (2 / PI))))
      t.
Proof.
  induction t as [|t IH].
  - unfold real_sum_upto. simpl. lra.
  - cbn [path_log_sigma2]. rewrite IH.
    cbn [real add sub mul div fabs np_sqrt np_pi of_int].
    rewrite real_sum_upto_S.
    replace (S t - 1 - t)%nat with 0%nat by lia.
    rewrite (real_sum_upto_ext
               (fun k => (beta1 + beta2) ^ (S t - 1 - k)
                         * (omega + (alpha1 + alpha2)
                                    * (Rabs (zs k) - R_sqrt.sqrt (2 / PI))))
               (fun k => (beta1 + beta2)
                         * ((beta1 + beta2) ^ (t - 1 - k)
                            * (omega
                               + (alpha1 + alpha2)
                                 * (Rabs (zs k) - R_sqrt.sqrt (2 / PI)))))).
    2:{ intros k Hk. replace (S t - 1 - k)%nat with (S (t - 1 - k)) by lia.
        simpl. ring. }
    rewrite <- real_sum_upto_scale. simpl. ring.
Qed.


End RealSums.

(** X8.  Over the reals the log-variance with which path [s] enters its
    step [t] is, in closed form,
    [(beta1 + beta2)^t * ln(last_vol^2)
     + sum over k < t of (beta1 + beta2)^(t-1-k)
         * (omega + (alpha1 + alpha2) * (|z_k| - sqrt(2/pi)))]
    with [z_k] the draw of step [k] of the path: the last volatility and
    every shock enter through powers of [beta1 + beta2] alone. *)
Theorem X8_log_variance_closed_form
    (mu omega alpha1 alpha2 beta1 beta2 last_vol : R)
    (n_simulations forecast_period : Z) (g : Rng) (zeros : Matrix)
    (s t : nat) :
  @np_zeros R real n_simulations forecast_period = Ok zeros ->
  s < Z.to_nat n_simulations -> t <= Z.to_nat forecast_period ->
  exists st,
    @state_at R real mu omega alpha1 alpha2 beta1 beta2 last_vol
      forecast_period s t (g, zeros) = Ok st /\
    log_sigma2 st =
    ((beta1 + beta2) ^ t * ln (powerRZ last_vol 2)
     + real_sum_upto
         (fun k =>
            (beta1 + beta2) ^ (t - 1 - k)
            * (omega
               + (alpha1 + alpha2)
                 * (Rabs (stream g
                            (taken g + s * Z.to_nat forecast_period + k))
                    - R_sqrt.sqrt (2 / PI))))
         t)%R.
Proof.
  intros Hzeros Hs Ht.
  destruct (@state_at_spec R real mu omega alpha1 alpha2 beta1 beta2 last_vol
              forecast_period g zeros (Z.to_nat n_simulations) s t
              (@np_zeros_shape _ _ _ _ _ Hzeros) Hs Ht) as (m & Hst & _).
  eexists. split; [exact Hst|]. cbn [log_sigma2].
  apply path_log_sigma2_closed_form.
Qed.

(** X8 on the coefficients of the scenario: the second path of two, at its
    third step. *)
Lemma X8_log_variance_closed_form_witness :
  @np_zeros R real 2 3 = Ok (repeat (repeat 0%R 3) 2) /\
  1 < Z.to_nat 2 /\ 2 <= Z.to_nat 3 /\
  exists st,
    @state_at R real (5 / 10000)%R (- (1 / 10))%R (1 / 10)%R (5 / 100)%R
      (85 / 100)%R (5 / 100)%R (15 / 1000)%R 3 1 2
      (real_zero_rng, repeat (repeat 0%R 3) 2)
    = Ok st.
Proof.
  assert (Hz : @np_zeros R real 2 3 = Ok (repeat (repeat 0%R 3) 2))
    by reflexivity.
  assert (H1 : 1 < Z.to_nat 2) by (simpl; lia).
  assert (H2 : 2 <= Z.to_nat 3) by (simpl; lia).
  split; [exact Hz|]. split; [exact H1|]. split; [exact H2|].
  destruct (@X8_log_variance_closed_form (5 / 10000)%R (- (1 / 10))%R
              (1 / 10)%R (5 / 100)%R (85 / 100)%R (5 / 100)%R (15 / 1000)%R
              2 3 real_zero_rng _ 1 2 Hz H1 H2) as (st & Hst & _).
  exists st. exact Hst.
Defined.

(** ** monte_carlo_simulation: the sign of the volatility *)




(** The square root of a binary64 number is never below zero. *)
Lemma sqrt_not_negative (x : float) :
  PrimFloat.ltb (PrimFloat.sqrt x) 0 = false.
Proof.
  rewrite ltb_spec, sqrt_spec, Prim2SF_zero. unfold SF64sqrt, SFsqrt.
  destruct (Prim2SF x) as [s|[]| |[] m e]; try reflexivity.
  destruct (SFsqrt_core_binary prec emax (Z.pos m) e) as [[mz ez] lz].
  unfold binary_round_aux.
  destruct (shr_fexp prec emax mz ez lz) as [mrs' e'].
  destruct (shr_fexp prec emax
              (round_nearest_even (shr_m mrs') (loc_of_shr_record mrs'))
              e' loc_Exact) as [mrs'' e''].
  destruct (shr_m mrs''); try reflexivity.
  destruct (e'' <=? emax - prec)%Z; reflexivity.
Qed.

(** X10.  In binary64, whatever libm computes, the volatility of a step is
    never below zero and never [-inf]: every entry of the result is
    [mu - 0.5 * sigma ** 2 + sigma * z] for a [sigma] on which [sigma < 0]
    is false. *)
Theorem X10_binary64_volatility_never_negative (libm : Libm)
    (model_fit : @ModelFit float)
    (mu omega alpha1 alpha2 beta1 beta2 last_vol : float)
    (n_simulations forecast_period : Z) (g : Rng) :
  has_inputs model_fit mu omega alpha1 alpha2 beta1 beta2 last_vol ->
  (0 <= n_simulations)%Z -> (0 <= forecast_period)%Z ->
  exists m g',
    @monte_carlo_simulation float (binary64 libm) model_fit n_simulations
      forecast_period g = Ok (m, g') /\
    forall s t,
      s < Z.to_nat n_simulations -> t < Z.to_nat forecast_period ->
      let z := stream g (taken g + s * Z.to_nat forecast_period + t) in
      let sigma :=
        @path_sigma float (binary64 libm) omega alpha1 alpha2 beta1 beta2
          last_vol (draws_of_path forecast_period g s) t in
      getitem2 m s t
      = Some (mu - 0.5 * libm_pow libm sigma 2 + sigma * z)%float /\
      PrimFloat.ltb sigma 0 = false /\
      sigma <> PrimFloat.neg_infinity.
Proof.
  intros Hin HN HT.
  destruct (@monte_carlo_simulation_entries float (binary64 libm) model_fit
              mu omega alpha1 alpha2 beta1 beta2 last_vol n_simulations
              forecast_period g Hin HN HT) as (m & g' & Hrun & Hm).
  exists m, g'. split; [exact Hrun|].
  intros s t Hs Ht. cbv zeta. split; [apply (Hm s t Hs Ht)|].
  unfold path_sigma. cbn [binary64 np_sqrt].
  split; [apply sqrt_not_negative|].
  intros Hneg.
  pose proof (sqrt_not_negative
                (@np_exp float (binary64 libm)
                   (@path_log_sigma2 float (binary64 libm) omega alpha1 alpha2
                      beta1 beta2 last_vol
                      (draws_of_path forecast_period g s) (S t)))) as H.
  rewrite Hneg in H. discriminate H.
Qed.

(** X10 on the sample fit, two paths of three steps. *)
Lemma X10_binary64_volatility_never_negative_witness :
  has_inputs sample_fit sample_mu sample_omega sample_alpha1 sample_alpha2
    sample_beta1 sample_beta2 sample_last_vol /\
  (0 <= 2)%Z /\ (0 <= 3)%Z /\
  exists m g',
    @monte_carlo_simulation float (binary64 sample_libm) sample_fit 2 3
      sample_rng = Ok (m, g').
Proof.
  split; [exact sample_has_inputs|]. split; [lia|]. split; [lia|].
  destruct (@X10_binary64_volatility_never_negative sample_libm sample_fit
              _ _ _ _ _ _ _ 2 3 sample_rng sample_has_inputs)
    as (m & g' & Hrun & _); [lia|lia|].
  exists m, g'. exact Hrun.
Defined.

(** ** main: the interval of the predicted prices, over the reals *)

Section RealPriceFacts.

Local Open Scope R_scope.




Lemma Rleb_scale (c x y : R) : 0 < c -> Rleb (c * x) (c * y) = Rleb x y.
Proof.
  intros Hc. destruct (Rleb x y) eqn:H.
  - apply Rleb_true in H. apply Rleb_true. nra.
  - apply Rleb_false in H. apply Rleb_false. nra.
Qed.

Lemma insert_sorted_scale (c x : R) (l : list R) :
  0 < c ->
  @insert_sorted R real (c * x) (map (Rmult c) l)
  = map (Rmult c) (@insert_sorted R real x l).
Proof.
  intros Hc. induction l as [|y l IH]; simpl; auto.
  rewrite Rleb_scale by assumption.
  destruct (Rleb x y); simpl; [reflexivity|]. f_equal. exact IH.
Qed.

Lemma np_sort_scale (c : R) (a : list R) :
  0 < c ->
  @np_sort R real (map (Rmult c) a) = map (Rmult c) (@np_sort R real a).
Proof.
  intros Hc. induction a as [|x a IH]; simpl; auto.
  rewrite IH. apply insert_sorted_scale. assumption.
Qed.

Lemma interpolate_scale (c : R) (y : list R) (d v : R) :
  interpolate (map (Rmult c) y) (c * d) v = c * interpolate y d v.
Proof.
  unfold interpolate. rewrite length_map.
  rewrite !(map_nth (Rmult c)). ring.
Qed.

(** Over the reals a percentile commutes with scaling by a positive
    factor. *)
Lemma np_percentile_real_scale (c : R) (a : list R) (q v : R) :
  0 < c -> 0 <= q <= 100 ->
  @np_percentile R real a q = Ok v ->
  @np_percentile R real (map (Rmult c) a) q = Ok (c * v).
Proof.
  intros Hc Hq. destruct a as [|x0 a].
  - unfold np_percentile. cbn [real leb of_int div].
    destruct (negb (Rleb 0 (q / 100) && Rleb (q / 100) 1)); discriminate.
  - cbn [map]. rewrite !np_percentile_real by assumption.
    intros H. injection H as <-. f_equal.
    change (c * x0 :: map (Rmult c) a) with (map (Rmult c) (x0 :: a)).
    rewrite np_sort_scale by assumption.
    rewrite interpolate_scale, length_map. reflexivity.
Qed.

End RealPriceFacts.



(** X12.  Over the reals the two bounds are proportional to the last
    closing price: they are the last price times the bounds computed from
    the gross returns [exp(sum of a path's returns)] alone, so the interval
    relative to the current price does not depend on the price level. *)
Theorem X12_interval_scales_with_the_last_price
    (close : list R) (simulated_returns : @Matrix R) (last_price : R) :
  last_item close = Ok last_price ->
  (0 < last_price)%R ->
  simulated_returns <> [] ->
  exists lower_ratio upper_ratio,
    @main_confidence_interval R real
      (map exp (cumulative_returns real_sum simulated_returns))
    = Ok (lower_ratio, upper_ratio) /\
    @main_interval R real real_sum close simulated_returns
    = Ok (last_price,
          ((last_price * lower_ratio)%R, (last_price * upper_ratio)%R)).
Proof.
  intros Hlast Hpos Hm.
  set (cum := cumulative_returns real_sum simulated_returns).
  assert (Hne : map exp cum <> []).
  { unfold cum, cumulative_returns.
    destruct simulated_returns; [congruence|discriminate]. }
  destruct (real_bounds_ordered Hne) as (lo & hi & Hint & Hlo & Hhi & _).
  exists lo, hi. split; [exact Hint|].
  unfold main_interval. rewrite Hlast. cbn [bind]. fold cum.
  assert (Hprices : @predicted_prices R real last_price cum
                    = map (Rmult last_price) (map exp cum)).
  { unfold predicted_prices. rewrite map_map. reflexivity. }
  rewrite Hprices. unfold main_confidence_interval.
  destruct real_ranks as [Hrl Hru].
  cbn [real mul of_int] in Hrl, Hru |- *. rewrite Hrl, Hru.
  rewrite (@np_percentile_real_scale last_price _ _ lo Hpos)
    by (lra || exact Hlo).
  rewrite (@np_percentile_real_scale last_price _ _ hi Hpos)
    by (lra || exact Hhi).
  reflexivity.
Qed.

(** X12 on a last price of 120 and two paths of two returns. *)
Lemma X12_interval_scales_with_the_last_price_witness :
  @last_item R [100; 120]%R = Ok 120%R /\
  (0 < 120)%R /\
  [[0; 0]; [1; -1]]%R <> [] /\
  exists lower_ratio upper_ratio,
    @main_interval R real real_sum [100; 120]%R [[0; 0]; [1; -1]]%R
    = Ok (120%R, ((120 * lower_ratio)%R, (120 * upper_ratio)%R)).
Proof.
  assert (H1 : @last_item R [100; 120]%R = Ok 120%R) by reflexivity.
  assert (H2 : (0 < 120)%R) by lra.
  assert (H3 : [[0; 0]; [1; -1]]%R <> []) by discriminate.
  split; [exact H1|]. split; [exact H2|]. split; [exact H3|].
  destruct (@X12_interval_scales_with_the_last_price [100; 120]%R
              [[0; 0]; [1; -1]]%R 120%R H1 H2 H3)
    as (lo & hi & _ & Hrun).
  exists lo, hi. exact Hrun.
Defined.

(** X13.  With the default of 10000 simulations the bounds over the reals
    are fixed mixtures of four order statistics of the predicted prices:
    with [y] the prices sorted, the lower bound is
    [0.005 * y[49] + 0.995 * y[50]] and the upper bound is
    [0.995 * y[9949] + 0.005 * y[9950]]. *)
Theorem X13_default_interval_order_statistics
    (predicted_prices : list R) (d : R) :
  List.length predicted_prices = Z.to_nat n_simulations_default ->
  let y := @np_sort R real predicted_prices in
  @main_confidence_interval R real predicted_prices =
  Ok ((5 / 1000 * nth (Z.to_nat 49) y d
       + 995 / 1000 * nth (Z.to_nat 50) y d)%R,
      (995 / 1000 * nth (Z.to_nat 9949) y d
       + 5 / 1000 * nth (Z.to_nat 9950) y d)%R).
Proof.
  intros Hlen y. rename predicted_prices into prices.
  assert (Hleny : List.length y = Z.to_nat 10000).
  { unfold y. rewrite length_np_sort. exact Hlen. }
  destruct prices as [|x0 a].
  { exfalso. cbn [List.length] in Hlen. unfold n_simulations_default in Hlen.
    lia. }
  unfold main_confidence_interval.
  destruct real_ranks as [Hrl Hru].
  cbn [real mul of_int] in Hrl, Hru |- *. rewrite Hrl, Hru.
  rewrite !np_percentile_real by lra. fold y. cbn [bind].
  rewrite Hleny. rewrite Z2Nat.id by lia.
  replace (10000 - 1)%Z with 9999%Z by lia.
  unfold interpolate. rewrite Hleny.
  assert (Hlo : Int_part (9999 * (1 / 2 / 100)) = 49%Z)
    by (apply Int_part_eq; lra).
  assert (Hup : Int_part (9999 * (199 / 2 / 100)) = 9949%Z)
    by (apply Int_part_eq; lra).
  rewrite Hlo, Hup.
  replace (Nat.min (Z.to_nat 49 + 1) (Z.to_nat 10000 - 1)) with (Z.to_nat 50)
    by lia.
  replace (Nat.min (Z.to_nat 9949 + 1) (Z.to_nat 10000 - 1))
    with (Z.to_nat 9950) by lia.
  rewrite (nth_indep y x0 d (n := Z.to_nat 49)) by lia.
  rewrite (nth_indep y x0 d (n := Z.to_nat 50)) by lia.
  rewrite (nth_indep y x0 d (n := Z.to_nat 9949)) by lia.
  rewrite (nth_indep y x0 d (n := Z.to_nat 9950)) by lia.
  f_equal. f_equal; field.
Qed.

(** X13 on 10000 prices of 1. *)
Lemma X13_default_interval_order_statistics_witness :
  List.length (repeat 1%R (Z.to_nat n_simulations_default))
  = Z.to_nat n_simulations_default /\
  exists lower_bound upper_bound,
    @main_confidence_interval R real
      (repeat 1%R (Z.to_nat n_simulations_default))
    = Ok (lower_bound, upper_bound).
Proof.
  assert (H : List.length (repeat 1%R (Z.to_nat n_simulations_default))
              = Z.to_nat n_simulations_default) by apply repeat_length.
  split; [exact H|].
  do 2 eexists. apply (@X13_default_interval_order_statistics _ 0%R H).
Defined.

(** ** main as a whole *)

(** In binary64 the two percentile ranks of [main] are within [0, 100], so
    the bounds of a non-empty collection of prices are always computed. *)
Lemma binary64_interval_total (libm : Libm) (predicted_prices : list float) :
  predicted_prices <> [] ->
  exists lower_bound upper_bound,
    @main_confidence_interval float (binary64 libm) predicted_prices
    = Ok (lower_bound, upper_bound).
Proof.
  intros Hne. destruct predicted_prices as [|x0 a]; [congruence|].
  unfold main_confidence_interval.
  rewrite !np_percentile_valid by reflexivity.
  destruct (find (@np_isnan float (binary64 libm)) (x0 :: a));
    cbn [bind]; eauto.
Qed.

(** X14.  [main], from the data to the printed interval.  Data without a
    [Close] column stops it at [KeyError('Close')].  When it returns, the
    selected order was fitted again, that fit has the six coefficients the
    simulation reads, the simulation ran with the defaults and took
    [10000 * 21] draws, the price reported is the last value of the raw
    [Close] column and the bounds are those of the 10000 predicted prices.
    Conversely, once the data has a non-empty [Close] column and the fit of
    the selected order has the six coefficients and a last volatility,
    nothing after the fit can raise: [main] returns, whatever the numbers. *)
Theorem X14_main_outcomes (libm : Libm) (np_sum : list float -> float)
    (arch_model_fit : @Series float -> Z -> Z -> result (@ModelFit float))
    (ibov : @DataFrame float) (g : @Rng float) :
  (forall e, get_column ibov "Close" = Raise e ->
     main libm np_sum arch_model_fit ibov g = Raise (KeyError "Close")) /\
  (forall report g',
     main libm np_sum arch_model_fit ibov g = Ok (report, g') ->
     exists close returns p q model_fit m,
       get_column ibov "Close" = Ok close /\
       @calculate_returns float (binary64 libm) ibov = Ok returns /\
       find_best_model (arch_model_fit returns) = Some (p, q) /\
       arch_model_fit returns p q = Ok model_fit /\
       (forall label, In label simulation_labels ->
          has_label (params model_fit) label) /\
       @monte_carlo_simulation float (binary64 libm) model_fit
         n_simulations_default forecast_period_default g = Ok (m, g') /\
       g' = advance g (Z.to_nat n_simulations_default
                       * Z.to_nat forecast_period_default) /\
       shape m (Z.to_nat n_simulations_default)
         (Z.to_nat forecast_period_default) /\
       last_item (map snd close) = Ok (fst report) /\
       @main_confidence_interval float (binary64 libm)
         (@predicted_prices float (binary64 libm) (fst report)
            (cumulative_returns np_sum m))
       = Ok (snd report)) /\
  (forall close returns p q model_fit
      mu omega alpha1 alpha2 beta1 beta2 last_vol,
     get_column ibov "Close" = Ok close -> close <> [] ->
     @calculate_returns float (binary64 libm) ibov = Ok returns ->
     find_best_model (arch_model_fit returns) = Some (p, q) ->
     arch_model_fit returns p q = Ok model_fit ->
     has_inputs model_fit mu omega alpha1 alpha2 beta1 beta2 last_vol ->
     exists report g',
       main libm np_sum arch_model_fit ibov g = Ok (report, g')).
Proof.
  split; [|split].
  - intros e He. unfold main, calculate_returns. rewrite He. cbn [bind].
    rewrite (get_column_raise _ _ He). reflexivity.
  - intros report g' Hmain. unfold main in Hmain.
    destruct (@calculate_returns float (binary64 libm) ibov)
      as [returns|e] eqn:Hreturns; [|discriminate]. cbn [bind] in Hmain.
    unfold main_simulation in Hmain.
    destruct (find_best_model (arch_model_fit returns)) as [[p q]|] eqn:Hbest;
      [|discriminate]. cbn [unpack_order bind] in Hmain.
    destruct (arch_model_fit returns p q) as [model_fit|e] eqn:Hfit;
      [|discriminate]. cbn [bind] in Hmain.
    unfold monte_carlo_simulation_default in Hmain.
    destruct (@monte_carlo_simulation_cases float (binary64 libm) model_fit
                n_simulations_default forecast_period_default)
      as [(mu & omega & a1 & a2 & b1 & b2 & lv & Hin & HN & HT)|[e He]].
    2:{ rewrite He in Hmain. discriminate. }
    assert (Hrun : exists m,
              @monte_carlo_simulation float (binary64 libm) model_fit
                n_simulations_default forecast_period_default g
              = Ok (m, advance g (Z.to_nat n_simulations_default
                                  * Z.to_nat forecast_period_default)) /\
              shape m (Z.to_nat n_simulations_default)
                (Z.to_nat forecast_period_default)).
    { eexists. split.
      - apply monte_carlo_simulation_run with (1 := Hin); assumption.
      - apply shape_rows. }
    destruct Hrun as (m & Hrun & Hshape).
    remember (advance g (Z.to_nat n_simulations_default
                         * Z.to_nat forecast_period_default)) as gf eqn:Hgf.
    rewrite Hrun in Hmain. cbn [bind] in Hmain.
    destruct (get_column ibov "Close") as [close|e] eqn:Hclose;
      [|discriminate]. cbn [bind] in Hmain.
    unfold main_interval in Hmain.
    destruct (last_item (map snd close)) as [last_price|e] eqn:Hlast;
      [|discriminate]. cbn [bind] in Hmain.
    match type of Hmain with
    | context [@main_confidence_interval float ?n ?a] =>
        destruct (@main_confidence_interval float n a) as [bounds|e] eqn:Hint;
          [|discriminate]
    end.
    cbn [bind] in Hmain. injection Hmain as <- <-.
    exists close, returns, p, q, model_fit, m.
    split; [reflexivity|]. split; [reflexivity|]. split; [exact Hbest|].
    split; [exact Hfit|]. split.
    { destruct Hin as (Hmu & Ho & Ha1 & Ha2 & Hb1 & Hb2 & _).
      intros label Hlabel. unfold has_label.
      cbn [simulation_labels In] in Hlabel.
      destruct Hlabel as [<-|[<-|[<-|[<-|[<-|[<-|[]]]]]]]; eauto. }
    split; [exact Hrun|]. split; [reflexivity|]. split; [exact Hshape|].
    split; [exact Hlast|exact Hint].
  - intros close returns p q model_fit mu omega a1 a2 b1 b2 lv
      Hclose Hne Hreturns Hbest Hfit Hin.
    unfold main. rewrite Hreturns. cbn [bind].
    unfold main_simulation. rewrite Hbest. cbn [unpack_order bind].
    rewrite Hfit. cbn [bind]. unfold monte_carlo_simulation_default.
    rewrite (@monte_carlo_simulation_run float (binary64 libm) model_fit
               mu omega a1 a2 b1 b2 lv n_simulations_default
               forecast_period_default g Hin)
      by (unfold n_simulations_default, forecast_period_default; lia).
    cbn [bind]. rewrite Hclose. cbn [bind]. unfold main_interval.
    destruct close as [|[label price] rows]; [congruence|].
    cbn [map snd]. rewrite last_item_cons. cbn [bind].
    match goal with
    | |- context [@main_confidence_interval float ?n ?a] =>
        destruct (@binary64_interval_total libm a) as (lo & hi & Hint)
    end.
    { unfold predicted_prices, cumulative_returns, range,
        n_simulations_default.
      rewrite !map_map.
      replace (Z.to_nat 10000) with (S (Z.to_nat 9999)) by lia.
      cbn [seq map]. discriminate. }
    rewrite Hint. cbn [bind]. eauto.
Qed.

(** X14 on three days of prices and a fit that succeeds at (2, 2) only. *)
Lemma X14_main_outcomes_witness :
  get_column sample_data "Close"
  = Ok [("d0", 100); ("d1", 110); ("d2", 121)]%string%float /\
  (forall returns,
     find_best_model (sample_arch_model_fit returns) = Some (2, 2)%Z /\
     sample_arch_model_fit returns 2 2 = Ok sample_fit) /\
  has_inputs sample_fit sample_mu sample_omega sample_alpha1 sample_alpha2
    sample_beta1 sample_beta2 sample_last_vol /\
  exists report g',
    main sample_libm sample_sum sample_arch_model_fit sample_data sample_rng
    = Ok (report, g').
Proof.
  assert (Hclose : get_column sample_data "Close"
                   = Ok [("d0", 100); ("d1", 110); ("d2", 121)]%string%float)
    by reflexivity.
  assert (Hfit : forall returns,
            find_best_model (sample_arch_model_fit returns) = Some (2, 2)%Z /\
            sample_arch_model_fit returns 2 2 = Ok sample_fit)
    by (intros returns; split; reflexivity).
  split; [exact Hclose|]. split; [exact Hfit|].
  split; [exact sample_has_inputs|].
  destruct (@calculate_returns float (binary64 sample_libm) sample_data)
    as [returns|e] eqn:Hreturns; [|vm_compute in Hreturns; discriminate].
  destruct (X14_main_outcomes sample_libm sample_sum sample_arch_model_fit
              sample_data sample_rng) as (_ & _ & Hmain).
  apply (Hmain _ returns 2%Z 2%Z sample_fit sample_mu sample_omega
           sample_alpha1 sample_alpha2 sample_beta1 sample_beta2
           sample_last_vol Hclose);
    [discriminate|exact Hreturns|apply Hfit|apply Hfit
    |exact sample_has_inputs].
Defined.

(** ** test_seasonality.py: the rolling windows *)

Section SeasonalityFacts.

Context {F : Type} {num : Num F}.
Local Open Scope num_scope.

Variable stl_seasonal : list F -> Z -> result (list F).
Variable np_var : list F -> F.

(** The loop appends one triple per start, in order. *)
Lemma windows_appended (series : list F) (period window_size : Z)
    (starts : list Z) (results results' : list (Z * Z * F)) :
  for_in starts (window_strength stl_seasonal np_var series period window_size)
    results = Ok results' ->
  exists added,
    results' = results ++ added /\
    Forall2
      (fun start triple =>
         exists seasonal,
           stl_seasonal (slice series start (start + window_size)) period
           = Ok seasonal /\
           triple =
           (start, (start + window_size)%Z,
            np_var seasonal
            / np_var (slice series start (start + window_size))))
      starts added.
Proof.
  revert results. induction starts as [|start starts IH]; intros results.
  - simpl. intros H. injection H as <-. exists []. rewrite app_nil_r.
    split; [reflexivity|constructor].
  - cbn [for_in]. unfold window_strength at 1.
    destruct (stl_seasonal (slice series start (start + window_size)) period)
      as [seasonal|e] eqn:Hstl; [|discriminate].
    cbn [bind]. intros H. destruct (IH _ H) as (added & -> & Hall).
    eexists. rewrite <- app_assoc. split; [reflexivity|].
    constructor; [|exact Hall].
    exists seasonal. split; [exact Hstl|reflexivity].
Qed.

(** The loop returns when every decomposition does. *)
Lemma windows_all_fit (series : list F) (period window_size : Z)
    (starts : list Z) (results : list (Z * Z * F)) :
  (forall start, In start starts ->
     exists seasonal,
       stl_seasonal (slice series start (start + window_size)) period
       = Ok seasonal) ->
  exists results',
    for_in starts
      (window_strength stl_seasonal np_var series period window_size)
      results = Ok results'.
Proof.
  revert results. induction starts as [|start starts IH]; intros results Hall.
  - simpl. eauto.
  - cbn [for_in]. unfold window_strength at 1.
    destruct (Hall start (or_introl eq_refl)) as [seasonal Hstl].
    rewrite Hstl. cbn [bind]. apply IH.
    intros s Hs. apply Hall. right. exact Hs.
Qed.

(** The [k]-th of the triples appended belongs to the [k]-th start. *)
Lemma windows_nth (series : list F) (period window_size : Z)
    (starts : list Z) (added : list (Z * Z * F)) (k : nat) (start : Z) :
  Forall2
    (fun start triple =>
       exists seasonal,
         stl_seasonal (slice series start (start + window_size)) period
         = Ok seasonal /\
         triple =
         (start, (start + window_size)%Z,
          np_var seasonal
          / np_var (slice series start (start + window_size))))
    starts added ->
  nth_error starts k = Some start ->
  exists seasonal,
    stl_seasonal (slice series start (start + window_size)) period
    = Ok seasonal /\
    nth_error added k
    = Some (start, (start + window_size)%Z,
            np_var seasonal
            / np_var (slice series start (start + window_size))).
Proof.
  intros Hall. revert k.
  induction Hall as [|s0 triple starts added [seasonal [Hstl Heq]] Hall IH];
    intros k Hk.
  - destruct k; discriminate.
  - destruct k as [|k]; cbn [nth_error] in Hk |- *.
    + injection Hk as <-. exists seasonal. split; [exact Hstl|].
      rewrite Heq. reflexivity.
    + apply IH. exact Hk.
Qed.

End SeasonalityFacts.

(** [range(0, stop, step)] for a positive step: the multiples of [step]
    below [stop]. *)
Lemma range3_positive_step (stop step : Z) :
  (0 < step)%Z ->
  exists starts,
    range3 0 stop step = Ok starts /\
    List.length starts = Z.to_nat ((stop + step - 1) / step) /\
    forall k, k < List.length starts ->
      nth_error starts k = Some (Z.of_nat k * step)%Z /\
      (0 <= Z.of_nat k * step < stop)%Z.
Proof.
  intros Hstep. unfold range3.
  destruct (Z.eqb_spec step 0) as [->|_]; [lia|].
  destruct (Z.ltb_spec 0 step) as [_|]; [|lia].
  replace (stop - 0 + step - 1)%Z with (stop + step - 1)%Z by lia.
  set (count := ((stop + step - 1) / step)%Z).
  eexists. split; [reflexivity|].
  rewrite length_map, length_seq. split; [reflexivity|].
  intros k Hk. split.
  - rewrite nth_error_map, nth_error_seq.
    destruct (Nat.ltb_spec k (Z.to_nat count)); [|lia].
    cbn [option_map Nat.add]. f_equal; lia.
  - assert (Hcount : (Z.of_nat k + 1 <= count)%Z) by lia.
    assert (Hmul : (step * count <= stop + step - 1)%Z)
      by (apply Z.mul_div_le; assumption).
    nia.
Qed.

(** A slice that lies within the sequence. *)
Lemma slice_inside {A : Type} (l : list A) (start size : Z) :
  (0 <= start)%Z -> (0 <= size)%Z ->
  (start + size <= Z.of_nat (List.length l))%Z ->
  slice l start (start + size)
  = firstn (Z.to_nat size) (skipn (Z.to_nat start) l) /\
  List.length (slice l start (start + size)) = Z.to_nat size.
Proof.
  intros Hstart Hsize Hend. unfold slice, slice_bound.
  destruct (Z.ltb_spec start 0); [lia|].
  destruct (Z.ltb_spec (start + size) 0); [lia|].
  rewrite !Z.min_l by lia.
  replace (start + size - start)%Z with size by lia.
  split; [reflexivity|].
  rewrite length_firstn, length_skipn. lia.
Qed.

(** X15.  [rolling_seasonal_strength] with a positive [step] and a
    non-negative [window_size], on a series of [n] observations.  If
    [n <= window_size] it returns the empty list without decomposing
    anything.  When it returns, it returns one triple for each of the
    [ceil((n - window_size) / step)] starts [0, step, 2 * step, ...] below
    [n - window_size], in order: [(start, start + window_size, strength)]
    with the strength computed from the window of exactly [window_size]
    observations from [start] on; every window ends before the last
    observation ([start + window_size < n]).  It returns whenever every
    decomposition does. *)
Theorem X15_rolling_windows_stop_before_the_last_observation
    {F : Type} {num : Num F}
    (stl_seasonal : list F -> Z -> result (list F)) (np_var : list F -> F)
    (series : list F) (period window_size step : Z) :
  (0 < step)%Z -> (0 <= window_size)%Z ->
  let n := Z.of_nat (List.length series) in
  let count := Z.to_nat ((n - window_size + step - 1) / step) in
  (n <= window_size ->
   rolling_seasonal_strength stl_seasonal np_var series period window_size step
   = Ok [])%Z /\
  (forall results,
     rolling_seasonal_strength stl_seasonal np_var series period window_size
       step = Ok results ->
     List.length results = count /\
     forall k, k < count ->
       let start := (Z.of_nat k * step)%Z in
       let window := firstn (Z.to_nat window_size)
                       (skipn (Z.to_nat start) series) in
       (start + window_size < n)%Z /\
       List.length window = Z.to_nat window_size /\
       exists seasonal,
         stl_seasonal window period = Ok seasonal /\
         nth_error results k
         = Some (start, (start + window_size)%Z,
                 (np_var seasonal / np_var window)%num)) /\
  ((forall window, exists seasonal, stl_seasonal window period = Ok seasonal) ->
   exists results,
     rolling_seasonal_strength stl_seasonal np_var series period window_size
       step = Ok results).
Proof.
  intros Hstep Hsize n count.
  destruct (@range3_positive_step (n - window_size) step Hstep)
    as (starts & Hrange & Hlen & Hstarts).
  unfold rolling_seasonal_strength. fold n. rewrite Hrange. cbn [bind].
  split; [|split].
  - intros Hn.
    assert (Hnil : starts = []).
    { apply length_zero_iff_nil. rewrite Hlen.
      assert ((n - window_size + step - 1) / step < 1)%Z; [|lia].
      apply Z.div_lt_upper_bound; lia. }
    rewrite Hnil. reflexivity.
  - intros results Hloop.
    destruct (windows_appended _ _ _ _ _ _ _ Hloop) as (added & -> & Hall).
    cbn [app].
    assert (Hadded : List.length added = count).
    { rewrite <- (Forall2_length Hall). exact Hlen. }
    split; [exact Hadded|].
    intros k Hk. cbv zeta.
    assert (Hk' : k < List.length starts) by (rewrite Hlen; exact Hk).
    destruct (Hstarts k Hk') as [Hnth [Hlo Hhi]].
    destruct (@slice_inside F series (Z.of_nat k * step) window_size)
      as [Hslice Hwlen]; [lia|lia|fold n; lia|].
    split; [lia|]. split; [rewrite <- Hslice; exact Hwlen|].
    rewrite <- Hslice.
    eapply windows_nth; eassumption.
  - intros Hfit. apply windows_all_fit. intros start _. apply Hfit.
Qed.

(** X15 on 73 observations and the defaults, windows of 60 every 12: the
    windows start at 0 and 12, and the last observation is in neither. *)
Lemma X15_rolling_windows_stop_before_the_last_observation_witness :
  (0 < step_default)%Z /\ (0 <= window_size_default)%Z /\
  (forall window, exists seasonal,
     sample_stl_seasonal window period_default = Ok seasonal) /\
  exists results,
    @rolling_seasonal_strength R real sample_stl_seasonal sample_var
      (repeat 1%R 73) period_default window_size_default step_default
    = Ok results /\
    List.length results = 2.
Proof.
  assert (H1 : (0 < step_default)%Z) by reflexivity.
  assert (H2 : (0 <= window_size_default)%Z) by discriminate.
  assert (H3 : forall window, exists seasonal,
             sample_stl_seasonal window period_default = Ok seasonal)
    by (intros window; eexists; reflexivity).
  split; [exact H1|]. split; [exact H2|]. split; [exact H3|].
  destruct (@X15_rolling_windows_stop_before_the_last_observation R real
              sample_stl_seasonal sample_var (repeat 1%R 73) period_default
              window_size_default step_default H1 H2) as (_ & Hres & Hret).
  destruct (Hret H3) as [results Hrun].
  exists results. split; [exact Hrun|].
  apply (Hres results Hrun).
Defined.
